(** * Linear response (TDA / TDHF) on a GHF reference: [pyscf/tdscf/ghf.py]

    A shallow embedding of the response-operator builders
    [gen_tda_operation] and [gen_tdhf_operation], of the Koopmans initial
    guess [TDA.init_guess], of the normalisation [norm_xy] inside
    [TDHF.kernel] and of the dense assembler [get_ab], followed by the
    properties proved about them.

    Numbers.  The Python code computes on NumPy arrays of doubles and of
    complex doubles.
    - The operator builders and [get_ab] only add, subtract and multiply:
      they are embedded over an arbitrary type [K] of real scalars with
      these operations (class [Scalar]); complex numbers are pairs over
      [K].  The theorems assume that [K] is a commutative ring, and the
      definitions are run on the integers.
    - [init_guess] compares and sorts orbital-energy gaps: it is embedded
      over the rationals.
    - [norm_xy] divides and takes a square root: it is embedded over a
      class [Arith] and run on the reals, for exact arithmetic, and on the
      binary64 floating-point numbers, for infinities and NaN.

    Exceptions.  A call that may raise returns an [option] or an
    [outcome]. *)

From Stdlib Require Import List ZArith Lia Ring Bool Arith.
From Stdlib Require Import QArith Qminmax Sorted Permutation Psatz.
From Stdlib Require Import Reals.
From Stdlib Require PrimFloat.
Close Scope R_scope.
Import ListNotations.
Close Scope Q_scope.

Set Implicit Arguments.

(** ** Scalars *)

Class Scalar (K : Type) : Type := {
  k0 : K;
  k1 : K;
  kadd : K -> K -> K;
  kmul : K -> K -> K;
  ksub : K -> K -> K;
  kopp : K -> K
}.

Declare Scope K_scope.
Delimit Scope K_scope with K.
Notation "x + y" := (kadd x y) : K_scope.
Notation "x * y" := (kmul x y) : K_scope.
Notation "x - y" := (ksub x y) : K_scope.
Notation "- x" := (kopp x) : K_scope.

Declare Scope C_scope.
Delimit Scope C_scope with C.

Section Complex.
Context {K : Type} {SK : Scalar K}.

(** A complex double: real and imaginary part. *)
Definition cplx : Type := (K * K)%type.

Definition c0 : cplx := (k0, k0).
Definition c1 : cplx := (k1, k0).
Definition of_real (x : K) : cplx := (x, k0).
Definition re (z : cplx) : K := fst z.
Definition im (z : cplx) : K := snd z.
Definition cadd (z w : cplx) : cplx := (re z + re w, im z + im w)%K.
Definition csub (z w : cplx) : cplx := (re z - re w, im z - im w)%K.
Definition copp (z : cplx) : cplx := (- re z, - im z)%K.
Definition cmul (z w : cplx) : cplx :=
  (re z * re w - im z * im w, re z * im w + im z * re w)%K.
(** [ndarray.conj()] *)
Definition conj (z : cplx) : cplx := (re z, - im z)%K.

End Complex.

Arguments cplx K : clear implicits.

Notation "x + y" := (cadd x y) : C_scope.
Notation "x * y" := (cmul x y) : C_scope.
Notation "x - y" := (csub x y) : C_scope.
Notation "- x" := (copp x) : C_scope.

(** ** Arrays

    A NumPy array is a nested list in row-major order: a vector is a list, a
    matrix a list of rows, a batch a list of matrices.  [tab n f] builds
    [[f 0; ...; f (n-1)]]. *)

Section Arrays.
Context {K : Type} {SK : Scalar K}.
Local Abbreviation C := (cplx K).

Definition tab {A : Type} (n : nat) (f : nat -> A) : list A := map f (seq 0 n).

Definition get1 (v : list C) (i : nat) : C := nth i v c0.
Definition get2 (m : list (list C)) (i j : nat) : C := get1 (nth i m []) j.
Definition get3 (t : list (list (list C))) (x i j : nat) : C :=
  get2 (nth x t []) i j.

(** Sum of [f 0], ..., [f (n-1)]: the contraction of one repeated index of an
    Einstein summation ([numpy.einsum], [lib.einsum], [numpy.dot]). *)
Fixpoint csum (n : nat) (f : nat -> C) : C :=
  match n with
  | O => c0
  | S m => (csum m f + f m)%C
  end.

Definition zeros1 (n : nat) : list C := tab n (fun _ => c0).
Definition zeros2 (n m : nat) : list (list C) := tab n (fun _ => zeros1 m).
Definition zeros3 (b n m : nat) : list (list (list C)) :=
  tab b (fun _ => zeros2 n m).

(** [numpy.dot(a, b)] for an [n x m] and an [m x k] matrix. *)
Definition dot (n m k : nat) (a b : list (list C)) : list (list C) :=
  tab n (fun i => tab k (fun j => csum m (fun l => get2 a i l * get2 b l j)%C)).

(** [a.conj().T] for an [n x m] matrix [a]: the result is [m x n]. *)
Definition conjT (n m : nat) (a : list (list C)) : list (list C) :=
  tab m (fun j => tab n (fun i => conj (get2 a i j))).

(** [numpy.diag(v)] for a real vector [v] of length [n]. *)
Definition diag (n : nat) (v : list K) : list (list C) :=
  tab n (fun i => tab n (fun j =>
    if Nat.eqb i j then of_real (nth i v k0) else c0)).

(** [a.reshape(a.shape[0], -1)] of a batch of matrices. *)
Definition ravel_rows (t : list (list (list C))) : list (list C) :=
  map (@concat C) t.

End Arrays.

(** ** The mean-field object

    What the operator builders read from [mf]: [mf.mol.symmetry],
    [mf.mo_coeff] (rows: spinor basis functions, columns: orbitals),
    [mf.mo_energy], [mf.mo_occ], the orbital irreps
    [ghf_symm.get_orbsym(mol, mo_coeff)] and the density response
    [mf.gen_response(hermi=0)], a collaborator that maps a batch of
    densities to a batch of potentials. *)

Record SCF (K : Type) : Type := {
  mol_symmetry : bool;
  mo_coeff : list (list (cplx K));
  mo_energy : list K;
  mo_occ : list Z;
  orbsym : list Z;
  gen_response : list (list (list (cplx K))) -> list (list (list (cplx K)))
}.

Section Operators.
Context {K : Type} {SK : Scalar K}.
Local Abbreviation C := (cplx K).
Local Open Scope C_scope.

(** [numpy.where(v == x)[0]] *)
Fixpoint where_from (x : Z) (v : list Z) (i : nat) : list nat :=
  match v with
  | [] => []
  | y :: v' =>
      if Z.eqb y x then i :: where_from x v' (S i) else where_from x v' (S i)
  end.
Definition where_eq (x : Z) (v : list Z) : list nat := where_from x v 0.

Variable mf : SCF K.

(** [nao, nmo = mo_coeff.shape] *)
Definition nao : nat := length (mo_coeff mf).
Definition nmo : nat := length (hd [] (mo_coeff mf)).

Definition occidx : list nat := where_eq 1%Z (mo_occ mf).
Definition viridx : list nat := where_eq 0%Z (mo_occ mf).
Definition nocc : nat := length occidx.
Definition nvir : nat := length viridx.

(** [orbo = mo_coeff[:,occidx]] and [orbv = mo_coeff[:,viridx]], read at
    row [p] and column [o]. *)
Definition orbo (p o : nat) : C := get2 (mo_coeff mf) p (nth o occidx 0%nat).
Definition orbv (p v : nat) : C := get2 (mo_coeff mf) p (nth v viridx 0%nat).

(** [mo_energy[occidx]] and [mo_energy[viridx]] *)
Definition e_occ : list K := map (fun i => nth i (mo_energy mf) k0) occidx.
Definition e_vir : list K := map (fun a => nth a (mo_energy mf) k0) viridx.

(** The symmetry filter.  [wfnsym] is the irrep id of the target state, if
    one was requested ([None] for Python's [None]); both it and the orbital
    irreps are reduced modulo 10 to the D2h subgroup.  The filter is used
    only when [wfnsym is not None and mol.symmetry]. *)
Definition sym_active (wfnsym : option Z) : bool :=
  match wfnsym with
  | Some _ => mol_symmetry mf
  | None => false
  end.

Definition orbsym_in_d2h (i : nat) : Z := (nth i (orbsym mf) 0 mod 10)%Z.

(** [sym_forbid[i,a]]:
    [(orbsym_in_d2h[occidx,None] ^ orbsym_in_d2h[viridx]) != wfnsym] *)
Definition sym_forbid (wfnsym : Z) (i a : nat) : bool :=
  negb (Z.eqb (Z.lxor (orbsym_in_d2h (nth i occidx 0%nat))
                      (orbsym_in_d2h (nth a viridx 0%nat)))
              (wfnsym mod 10)%Z).

(** The entries that the builders overwrite with zero. *)
Definition forbidden (wfnsym : option Z) (i a : nat) : bool :=
  match wfnsym with
  | Some w => mol_symmetry mf && sym_forbid w i a
  | None => false
  end.

(** [t[:,sym_forbid] = 0] on a batch of [nocc x nvir] blocks, when the
    filter is active. *)
Definition mask_batch (wfnsym : option Z) (t : list (list (list C)))
  : list (list (list C)) :=
  tab (length t) (fun x => tab nocc (fun i => tab nvir (fun a =>
    if forbidden wfnsym i a then c0 else get3 t x i a))).

(** *** [gen_tda_operation] *)

(** [fock = reduce(numpy.dot, (mo_coeff.conj().T, fock_ao, mo_coeff))] *)
Definition fock_mo (fock_ao : list (list C)) : list (list C) :=
  dot nmo nao nmo (dot nmo nao nao (conjT nao nmo (mo_coeff mf)) fock_ao)
      (mo_coeff mf).

(** [foo] and [fvv] of [gen_tda_operation] (lines 72-80). *)
Definition tda_foo (fock_ao : option (list (list C))) : list (list C) :=
  match fock_ao with
  | None => diag nocc e_occ
  | Some f =>
      tab nocc (fun i => tab nocc (fun j =>
        get2 (fock_mo f) (nth i occidx 0%nat) (nth j occidx 0%nat)))
  end.
Definition tda_fvv (fock_ao : option (list (list C))) : list (list C) :=
  match fock_ao with
  | None => diag nvir e_vir
  | Some f =>
      tab nvir (fun a => tab nvir (fun b =>
        get2 (fock_mo f) (nth a viridx 0%nat) (nth b viridx 0%nat)))
  end.

(** [hdiag = fvv.diagonal() - foo.diagonal()[:,None]], then
    [hdiag[sym_forbid] = 0] when the filter is active. *)
Definition hdiag_block (foo fvv : list (list C)) (wfnsym : option Z)
  : list (list C) :=
  tab nocc (fun i => tab nvir (fun a =>
    if forbidden wfnsym i a then c0 else get2 fvv a a - get2 foo i i)).

(** [hdiag.ravel().real] *)
Definition tda_hdiag (fock_ao : option (list (list C))) (wfnsym : option Z)
  : list K :=
  map re (concat (hdiag_block (tda_foo fock_ao) (tda_fvv fock_ao) wfnsym)).

(** [numpy.asarray(zs).reshape(-1,nocc,nvir)]: the batch as rows of length
    [nocc*nvir], each read as an [nocc x nvir] block.  NumPy raises when a
    row has another length, and when the [-1] cannot be inferred or the final
    [reshape(nz,-1)] is ambiguous (an empty batch, [nocc*nvir = 0]). *)
Definition reshape_ok (width : nat) (zs : list (list C)) : bool :=
  negb (Nat.eqb (length zs) 0) && negb (Nat.eqb width 0)
  && forallb (fun z => Nat.eqb (length z) width) zs.

Definition reshape_ov (off : nat) (zs : list (list C)) : list (list (list C)) :=
  tab (length zs) (fun x => tab nocc (fun o => tab nvir (fun v =>
    get2 zs x (off + (o * nvir + v))))).

(** [lib.einsum('xov,qv,po->xpq', zs, orbv.conj(), orbo)] *)
Definition dm_ov (zs : list (list (list C))) (x p q : nat) : C :=
  csum nocc (fun o => csum nvir (fun v =>
    get3 zs x o v * conj (orbv q v) * orbo p o)).

(** [lib.einsum('xov,pv,qo->xpq', ys, orbv, orbo.conj())] *)
Definition dm_vo (ys : list (list (list C))) (x p q : nat) : C :=
  csum nocc (fun o => csum nvir (fun v =>
    get3 ys x o v * orbv p v * conj (orbo q o))).

(** [lib.einsum('xpq,qv,po->xov', v1ao, orbv, orbo.conj())], which is also
    [lib.einsum('xpq,po,qv->xov', v1ao, orbo.conj(), orbv)] *)
Definition proj_ov (v1ao : list (list (list C))) (x o v : nat) : C :=
  csum nao (fun p => csum nao (fun q =>
    get3 v1ao x p q * orbv q v * conj (orbo p o))).

(** [lib.einsum('xpq,qo,pv->xov', v1ao, orbo, orbv.conj())] *)
Definition proj_vo (v1ao : list (list (list C))) (x o v : nat) : C :=
  csum nao (fun p => csum nao (fun q =>
    get3 v1ao x p q * orbo q o * conj (orbv p v))).

(** [lib.einsum('xqs,sp->xqp', zs, fvv)] *)
Definition z_fvv (zs : list (list (list C))) (fvv : list (list C))
  (x q p : nat) : C :=
  csum nvir (fun s => get3 zs x q s * get2 fvv s p).

(** [lib.einsum('xpr,sp->xsr', zs, foo)] *)
Definition foo_z (zs : list (list (list C))) (foo : list (list C))
  (x s r : nat) : C :=
  csum nocc (fun p => get3 zs x p r * get2 foo s p).

(** The body of [vind] (lines 90-103).  [tda_core] is the part after the
    projection of the input (lines 96-103): it reads the batch [zs] that the
    local name [zs] then refers to. *)
Definition tda_core (foo fvv : list (list C)) (wfnsym : option Z)
  (zs : list (list (list C))) : list (list C) :=
  let nz := length zs in
  let dmov := tab nz (fun x => tab nao (fun p => tab nao (fun q =>
                dm_ov zs x p q))) in
  let v1ao := gen_response mf dmov in
  let v1ov := tab nz (fun x => tab nocc (fun o => tab nvir (fun v =>
                proj_ov v1ao x o v + z_fvv zs fvv x o v - foo_z zs foo x o v))) in
  let v1ov := if sym_active wfnsym then mask_batch wfnsym v1ov else v1ov in
  ravel_rows v1ov.

Definition tda_apply (foo fvv : list (list C)) (wfnsym : option Z)
  (zs0 : list (list (list C))) : list (list C) :=
  tda_core foo fvv wfnsym
    (if sym_active wfnsym then mask_batch wfnsym zs0 else zs0).

Definition tda_vind (fock_ao : option (list (list C))) (wfnsym : option Z)
  (zs : list (list C)) : option (list (list C)) :=
  if reshape_ok (nocc * nvir) zs
  then Some (tda_apply (tda_foo fock_ao) (tda_fvv fock_ao) wfnsym
               (reshape_ov 0 zs))
  else None.

(** [gen_tda_operation(mf, fock_ao, wfnsym)] returns [(vind, hdiag)]. *)
Definition gen_tda_operation (fock_ao : option (list (list C)))
  (wfnsym : option Z)
  : (list (list C) -> option (list (list C))) * list K :=
  (tda_vind fock_ao wfnsym, tda_hdiag fock_ao wfnsym).

(** *** [gen_tdhf_operation]

    The builder takes [fock_ao] and never reads it: the projection of the
    Fock matrix is commented out in the source (lines 438-442), and [foo],
    [fvv] are the diagonal matrices of the orbital energies (lines 443-444). *)
Definition tdhf_foo : list (list C) := diag nocc e_occ.
Definition tdhf_fvv : list (list C) := diag nvir e_vir.

(** [numpy.hstack((hdiag.ravel(), -hdiag.ravel())).real] *)
Definition tdhf_hdiag (wfnsym : option Z) : list K :=
  let h := concat (hdiag_block tdhf_foo tdhf_fvv wfnsym) in
  map re (h ++ map copp h).

(** The body of [vind] (lines 454-481).  [tdhf_core] is the part after the
    projection of the input (lines 461-481): [xs], [ys] are the two halves
    [xys[:,0]] and [xys[:,1]] of the batch that [xys] then refers to. *)
Definition tdhf_core (wfnsym : option Z)
  (xs ys : list (list (list C))) : list (list C) :=
  let nz := length xs in
  let dms := tab nz (fun x => tab nao (fun p => tab nao (fun q =>
               dm_ov xs x p q + dm_vo ys x p q))) in
  let v1ao := gen_response mf dms in
  let v1ov := tab nz (fun x => tab nocc (fun o => tab nvir (fun v =>
                proj_ov v1ao x o v + z_fvv xs tdhf_fvv x o v
                - foo_z xs tdhf_foo x o v))) in
  let v1vo := tab nz (fun x => tab nocc (fun o => tab nvir (fun v =>
                proj_vo v1ao x o v + z_fvv ys tdhf_fvv x o v
                - foo_z ys tdhf_foo x o v))) in
  let v1ov := if sym_active wfnsym then mask_batch wfnsym v1ov else v1ov in
  let v1vo := if sym_active wfnsym then mask_batch wfnsym v1vo else v1vo in
  (* numpy.hstack((v1ov.reshape(nz,-1), -v1vo.reshape(nz,-1))) *)
  tab nz (fun x => nth x (ravel_rows v1ov) []
                   ++ map copp (nth x (ravel_rows v1vo) [])).

Definition tdhf_apply (wfnsym : option Z)
  (xs0 ys0 : list (list (list C))) : list (list C) :=
  tdhf_core wfnsym
    (if sym_active wfnsym then mask_batch wfnsym xs0 else xs0)
    (if sym_active wfnsym then mask_batch wfnsym ys0 else ys0).

Definition tdhf_vind (wfnsym : option Z) (xys : list (list C))
  : option (list (list C)) :=
  if reshape_ok (2 * (nocc * nvir)) xys
  then Some (tdhf_apply wfnsym (reshape_ov 0 xys)
               (reshape_ov (nocc * nvir) xys))
  else None.

(** [gen_tdhf_operation(mf, fock_ao, wfnsym)] returns [(vind, hdiag)]. *)
Definition gen_tdhf_operation (fock_ao : option (list (list C)))
  (wfnsym : option Z)
  : (list (list C) -> option (list (list C))) * list K :=
  (tdhf_vind wfnsym, tdhf_hdiag wfnsym).

End Operators.


(** ** The Fock-commutator term, as the spec writes it

    [Z·fvv − foo·Z] for one [nocc x nvir] block [Z], with the matrix product
    [dot]; the operator code computes it with two [einsum] contractions. *)

Section Commutator.
Context {K : Type} {SK : Scalar K}.

Definition fock_commutator (n_occ n_vir : nat)
  (foo fvv Z : list (list (cplx K))) : list (list (cplx K)) :=
  tab n_occ (fun i => tab n_vir (fun a =>
    (get2 (dot n_occ n_vir n_vir Z fvv) i a
     - get2 (dot n_occ n_occ n_vir foo Z) i a)%C)).

End Commutator.

(** ** The operators on arrays in memory

    NumPy arrays are mutable objects, and [vind] receives a reference to the
    caller's array.  A [store] holds the contents of every array by address;
    the contents of a batch are its rows.  [numpy.asarray(a).reshape(...)]
    of an array is a view on the same address, [numpy.copy] allocates, a
    masked assignment overwrites the array that the name refers to, and
    [einsum] and [hstack] build new arrays. *)

Section Memory.
Context {K : Type} {SK : Scalar K}.
Local Abbreviation C := (cplx K).
Variable mf : SCF K.

Definition loc : Type := nat.
Definition store : Type := list (list (list C)).

Definition load (s : store) (l : loc) : option (list (list C)) :=
  nth_error s l.

(** A new array: the next free address. *)
Definition alloc (s : store) (a : list (list C)) : loc * store :=
  (length s, s ++ [a]).

(** An assignment into the array at [l]; no array there, no change. *)
Fixpoint modify (s : store) (l : loc) (f : list (list C) -> list (list C))
  : store :=
  match s, l with
  | [], _ => []
  | a :: s', O => f a :: s'
  | a :: s', S l' => a :: modify s' l' f
  end.

(** [zs[:,sym_forbid] = 0] on the rows of a batch of [nocc x nvir] blocks. *)
Definition zero_forbidden (wfnsym : option Z) (a : list (list C))
  : list (list C) :=
  ravel_rows (mask_batch mf wfnsym (reshape_ov mf 0 a)).

(** [xys[:,:,sym_forbid] = 0] on the rows of a batch of pairs of blocks. *)
Definition zero_forbidden_xy (wfnsym : option Z) (a : list (list C))
  : list (list C) :=
  tab (length a) (fun x =>
    nth x (ravel_rows (mask_batch mf wfnsym (reshape_ov mf 0 a))) []
    ++ nth x (ravel_rows (mask_batch mf wfnsym
                            (reshape_ov mf (nocc mf * nvir mf) a))) []).

(** [vind(zs)] of [gen_tda_operation], called with the address of the
    caller's array; returns the address of the result. *)
Definition tda_vind_mem (fock_ao : option (list (list C)))
  (wfnsym : option Z) (zs : loc) (s : store) : option (loc * store) :=
  match load s zs with
  | None => None
  | Some a =>
      if reshape_ok (nocc mf * nvir mf) a then
        (* zs = numpy.asarray(zs).reshape(-1,nocc,nvir) *)
        let '(zs, s) :=
          if sym_active mf wfnsym then
            (* zs = numpy.copy(zs) *)
            let '(c, s) := alloc s a in
            (* zs[:,sym_forbid] = 0 *)
            (c, modify s c (zero_forbidden wfnsym))
          else (zs, s) in
        match load s zs with
        | None => None
        | Some a' =>
            Some (alloc s (tda_core mf (tda_foo mf fock_ao)
                             (tda_fvv mf fock_ao) wfnsym
                             (reshape_ov mf 0 a')))
        end
      else None
  end.

(** [vind(xys)] of [gen_tdhf_operation], in the same way. *)
Definition tdhf_vind_mem (wfnsym : option Z) (xys : loc) (s : store)
  : option (loc * store) :=
  match load s xys with
  | None => None
  | Some a =>
      if reshape_ok (2 * (nocc mf * nvir mf)) a then
        (* xys = numpy.asarray(xys).reshape(-1,2,nocc,nvir) *)
        let '(xys, s) :=
          if sym_active mf wfnsym then
            (* xys = numpy.copy(xys) *)
            let '(c, s) := alloc s a in
            (* xys[:,:,sym_forbid] = 0 *)
            (c, modify s c (zero_forbidden_xy wfnsym))
          else (xys, s) in
        match load s xys with
        | None => None
        | Some a' =>
            (* xs, ys = xys.transpose(1,0,2,3) *)
            Some (alloc s (tdhf_core mf wfnsym (reshape_ov mf 0 a')
                             (reshape_ov mf (nocc mf * nvir mf) a')))
        end
      else None
  end.

End Memory.

(** ** The Koopmans initial guess: [TDA.init_guess]

    Orbital energies and gaps are compared and sorted here, so they are
    rationals: doubles without rounding, with the decidable order of [Q]. *)

#[export] Instance Q_scalar : Scalar Q := {
  k0 := 0%Q;
  k1 := 1%Q;
  kadd := Qplus;
  kmul := Qmult;
  ksub := Qminus;
  kopp := Qopp
}.

(** What a call may produce: a value, or one of the exceptions that NumPy
    and Python raise on the way. *)
Inductive outcome (A : Type) : Type :=
| Ok (a : A)
| ValueError
| IndexError
| NotImplementedError.
Arguments Ok {A} a.
Arguments ValueError {A}.
Arguments IndexError {A}.
Arguments NotImplementedError {A}.

Section InitGuess.
Local Open Scope Q_scope.

(** The two literals of the source: the sentinel [1e99] written over the
    gaps of forbidden pairs, and the tolerance [1e-6] added to the
    threshold. *)
Definition sentinel : Q := inject_Z (10 ^ 99).
Definition degeneracy_tol : Q := 1 # 1000000.

(** Python's [min(a, b)]: [b] when [b < a], else [a]. *)
Definition py_min (a b : Q) : Q := if Qle_bool a b then a else b.

(** [e_ia.max()]; NumPy raises [ValueError] on an array without elements. *)
Definition array_max (e : list Q) : option Q :=
  match e with
  | [] => None
  | x :: e' => Some (fold_left (fun m y => if Qle_bool y m then m else y) e' x)
  end.

(** [numpy.argsort(e)]: the positions of [e] in ascending order of their
    values, by insertion. *)
Fixpoint insert_idx (e : list Q) (j : nat) (l : list nat) : list nat :=
  match l with
  | [] => [j]
  | k :: l' =>
      if Qle_bool (nth j e 0) (nth k e 0) then j :: l
      else k :: insert_idx e j l'
  end.
Definition argsort (e : list Q) : list nat :=
  fold_right (insert_idx e) [] (seq 0 (length e)).

(** The order of two positions by their gaps, and the gaps in the order of
    [argsort]: used to state that [argsort] sorts. *)
Definition key_le (e : list Q) (j k : nat) : Prop := nth j e 0 <= nth k e 0.
Definition sorted_gaps (e : list Q) : list Q :=
  map (fun j => nth j e 0) (argsort e).

(** [l[k]] for a Python integer [k]: a negative [k] counts from the end. *)
Definition py_index {A : Type} (l : list A) (k : Z) : option A :=
  if (0 <=? k)%Z then nth_error l (Z.to_nat k)
  else if (- Z.of_nat (length l) <=? k)%Z
       then nth_error l (Z.to_nat (Z.of_nat (length l) + k))
       else None.

(** A row of [x0]: zeros, and a one at position [j]. *)
Definition unit_vector (nov j : nat) : list Q :=
  tab nov (fun k => if Nat.eqb k j then 1 else 0).

(** [numpy.where(e_ia <= e_threshold)[0]] *)
Definition where_le (e : list Q) (t : Q) : list nat :=
  filter (fun j => Qle_bool (nth j e 0) t) (seq 0 (length e)).

(** Lines 351-362: from the raveled gaps [e_ia] and [e_ia_max] to [x0]. *)
Definition select_guess (e_ia : list Q) (e_ia_max : Q) (nstates : Z)
  : outcome (list (list Q)) :=
  let nov := length e_ia in
  let nstates := Z.min nstates (Z.of_nat nov) in
  match py_index (argsort e_ia) (nstates - 1) with
  | None => IndexError
  | Some j =>
      let e_threshold := py_min e_ia_max (nth j e_ia 0) in
      let e_threshold := e_threshold + degeneracy_tol in
      let idx := where_le e_ia e_threshold in
      Ok (map (unit_vector nov) idx)
  end.

Variable mf : SCF Q.

(** Lines 338-339.  The occupied orbitals are those of occupation 2. *)
Definition guess_occidx : list nat := where_eq 2%Z (mo_occ mf).
Definition guess_viridx : list nat := where_eq 0%Z (mo_occ mf).

(** [e_ia = mo_energy[viridx] - mo_energy[occidx,None]] *)
Definition guess_e_ia : list (list Q) :=
  map (fun i => map (fun a => nth a (mo_energy mf) 0 - nth i (mo_energy mf) 0)
                 guess_viridx) guess_occidx.

(** Line 349: [e_ia[forbidden] = 1e99] when the filter is active. *)
Definition guess_forbid (wfnsym : Z) (i a : nat) : bool :=
  negb (Z.eqb (Z.lxor (orbsym_in_d2h mf i) (orbsym_in_d2h mf a))
              (wfnsym mod 10)%Z).

Definition guess_mask (wfnsym : option Z) (e : list (list Q))
  : list (list Q) :=
  match wfnsym with
  | Some w =>
      if mol_symmetry mf then
        map (fun '(i, row) =>
               map (fun '(a, g) => if guess_forbid w i a then sentinel else g)
                   (combine guess_viridx row))
            (combine guess_occidx e)
      else e
  | None => e
  end.

(** [TDA.init_guess(mf, nstates, wfnsym)] *)
Definition init_guess (nstates : Z) (wfnsym : option Z)
  : outcome (list (list Q)) :=
  let e_ia := guess_e_ia in
  match array_max (concat e_ia) with
  | None => ValueError
  | Some e_ia_max =>
      let e_ia := guess_mask wfnsym e_ia in
      select_guess (concat e_ia) e_ia_max nstates
  end.

(** [TDHF.init_guess]: [numpy.hstack((x0, numpy.zeros_like(x0)))] *)
Definition tdhf_init_guess (nstates : Z) (wfnsym : option Z)
  : outcome (list (list Q)) :=
  match init_guess nstates wfnsym with
  | Ok x0 => Ok (map (fun x => x ++ map (fun _ => 0) x) x0)
  | ValueError => ValueError
  | IndexError => IndexError
  | NotImplementedError => NotImplementedError
  end.

End InitGuess.

(** ** The normalisation of a TDHF root: [norm_xy] in [TDHF.kernel]

    [norm_xy] divides and takes a square root.  It is embedded over any type
    of numbers with these operations (class [Arith]) and run on two
    instances: the real numbers, for what it computes in exact arithmetic,
    and the binary64 floating-point numbers, which are the doubles of
    NumPy with their infinities and NaN. *)

Class Arith (F : Type) : Type := {
  f0 : F;
  f1 : F;
  fadd : F -> F -> F;
  fsub : F -> F -> F;
  fmul : F -> F -> F;
  fdiv : F -> F -> F;
  fsqrt : F -> F
}.

#[export] Instance R_arith : Arith R := {
  f0 := 0%R;
  f1 := 1%R;
  fadd := Rplus;
  fsub := Rminus;
  fmul := Rmult;
  fdiv := Rdiv;
  fsqrt := sqrt
}.

#[export] Instance float_arith : Arith PrimFloat.float := {
  f0 := PrimFloat.zero;
  f1 := PrimFloat.one;
  fadd := PrimFloat.add;
  fsub := PrimFloat.sub;
  fmul := PrimFloat.mul;
  fdiv := PrimFloat.div;
  fsqrt := PrimFloat.sqrt
}.

Section NormXY.
Context {F : Type} {AF : Arith F}.

(** An amplitude: real and imaginary part (the eigenvectors picked with
    [real_eigenvectors=False] may be complex). *)
Definition amp : Type := (F * F)%type.

(** [a.dot(a)] for a real vector [a]. *)
Definition dot_self (a : list F) : F :=
  fold_left (fun acc v => fadd acc (fmul v v)) a f0.

(** Modelled from the spec: [lib.norm] is [pyscf.lib.norm], not part of the
    source file; the spec's ‖X‖ is the Frobenius norm of the block, the
    square root of the sum of the squared moduli of its entries, which is
    what [numpy.linalg.norm] computes on the raveled block from its real and
    imaginary parts. *)
Definition lib_norm (x : list (list amp)) : F :=
  let v := concat x in
  fsqrt (fadd (dot_self (map fst v)) (dot_self (map snd v))).

(** [x*norm] for a block [x] and a real number [norm]. *)
Definition scale_block (x : list (list amp)) (s : F) : list (list amp) :=
  map (map (fun e => (fmul (fst e) s, fmul (snd e) s))) x.

(** One half of [z.reshape(2,nocc,nvir)]: the [n_occ x n_vir] block that
    starts at offset [off] of [z]. *)
Definition block_of (n_occ n_vir off : nat) (z : list amp)
  : list (list amp) :=
  tab n_occ (fun i => tab n_vir (fun a =>
    nth (off + (i * n_vir + a)) z (f0, f0))).

(** [norm_xy(z)] (lines 536-540).  The only exception on the way is the
    [ValueError] of [reshape] for a vector of another size; there is no test
    of the sign of [norm]. *)
Definition norm_xy (n_occ n_vir : nat) (z : list amp)
  : outcome (list (list amp) * list (list amp)) :=
  if Nat.eqb (length z) (2 * n_occ * n_vir) then
    let x := block_of n_occ n_vir 0 z in
    let y := block_of n_occ n_vir (n_occ * n_vir) z in
    let norm := fsub (fmul (lib_norm x) (lib_norm x))
                     (fmul (lib_norm y) (lib_norm y)) in
    let norm := fsqrt (fdiv f1 norm) in
    Ok (scale_block x norm, scale_block y norm)
  else ValueError.

End NormXY.

(** The indefinite squared norm ‖X‖²−‖Y‖² of the spec, over the reals. *)
Definition frobenius2 (x : list (list (R * R))) : R :=
  fold_right (fun e acc => (fst e * fst e + snd e * snd e + acc)%R) 0%R
    (concat x).

Definition indefinite_norm2 (x y : list (list (R * R))) : R :=
  (frobenius2 x - frobenius2 y)%R.

(** ** The dense assembler: [get_ab]

    [get_ab] asserts that the orbital coefficients are real
    ([mo_coeff.dtype == numpy.double]), so everything here is over the real
    scalars [K] and [.conj()] is the identity.  Tensors with four indices
    are functions of their indices.

    The collaborators are taken as follows.  The grid iterator
    [ni.block_loop] yields a list of blocks; a block carries, with the
    basis-function values [ao] and the weights, what [numint.eval_rho] and
    [ni.eval_xc] return for it. *)

Inductive xc_family : Type := LDA | GGA | HF | NLC | MGGA.

Record grid_block (K : Type) : Type := {
  blk_ngrid : nat;                    (* number of grid points *)
  blk_nbas : nat;                     (* number of columns of [ao] *)
  blk_ao : nat -> nat -> nat -> K;    (* [ao[x,r,p]]; [ao[r,p]] at [x = 0] *)
  blk_weight : nat -> K;
  blk_rho0a : nat -> nat -> K;        (* [rho0a[x,r]]; [rho0a[r]] at [x = 0] *)
  blk_rho0b : nat -> nat -> K;
  blk_vxc1 : nat -> nat -> K;         (* [vxc[1][r,c]], three columns *)
  blk_fxc0 : nat -> nat -> K;         (* [fxc[0][r,c]], three columns *)
  blk_fxc1 : nat -> nat -> K;         (* [fxc[1][r,c]], six columns *)
  blk_fxc2 : nat -> nat -> K          (* [fxc[2][r,c]], six columns *)
}.

(** What [get_ab] reads from a Kohn-Sham object: whether
    [test_deriv_order(mf.xc, 2)] passes, whether [mf.nlc] is set,
    [mf.collinear], the hybrid coefficient, the functional family and the
    blocks of the grid. *)
Record ks_data (K : Type) : Type := {
  ks_deriv2 : bool;
  ks_nlc : bool;
  ks_collinear : bool;
  ks_hyb : K;
  ks_xctype : xc_family;
  ks_blocks : list (grid_block K)
}.

(** The argument of [get_ab]: orbital energies, coefficients and
    occupations, the atomic-orbital integrals [(pq|rs)] of [mf.mol] over
    its [mol_nao] basis functions, and the Kohn-Sham data when [mf] is a
    [dft.KohnShamDFT]. *)
Record ab_input (K : Type) : Type := {
  ab_mo_energy : list K;
  ab_mo_coeff : list (list K);
  ab_mo_occ : list Z;
  ab_mol_nao : nat;
  ab_eri : nat -> nat -> nat -> nat -> K;
  ab_ks : option (ks_data K)
}.

Section GetAB.
Context {K : Type} {SK : Scalar K}.
Local Open Scope K_scope.

Definition tensor4 : Type := nat -> nat -> nat -> nat -> K.

Fixpoint ksum (n : nat) (f : nat -> K) : K :=
  match n with
  | O => k0
  | S m => ksum m f + f m
  end.

Definition k2 : K := k1 + k1.
Definition k4 : K := k2 + k2.

(** Entry [(p,i)] of a matrix given by its rows. *)
Definition entry (c : list (list K)) (p i : nat) : K :=
  nth i (nth p c []) k0.

Variable inp : ab_input K.

(** Line 120: [nao, nmo = mo_coeff.shape]. *)
Definition ab_nao : nat := length (ab_mo_coeff inp).

Definition ab_occidx : list nat := where_eq 1%Z (ab_mo_occ inp).
Definition ab_viridx : list nat := where_eq 0%Z (ab_mo_occ inp).
Definition ab_nocc : nat := length ab_occidx.
Definition ab_nvir : nat := length ab_viridx.
Definition ab_nmo : nat := (ab_nocc + ab_nvir)%nat.

(** [orbo = mo_coeff[:,occidx]], [orbv = mo_coeff[:,viridx]] and
    [mo = numpy.hstack((orbo,orbv))], by rows. *)
Definition ab_orbo : list (list K) :=
  tab ab_nao (fun p => tab ab_nocc (fun i =>
    entry (ab_mo_coeff inp) p (nth i ab_occidx 0%nat))).
Definition ab_orbv : list (list K) :=
  tab ab_nao (fun p => tab ab_nvir (fun a =>
    entry (ab_mo_coeff inp) p (nth a ab_viridx 0%nat))).
Definition ab_mo : list (list K) :=
  tab ab_nao (fun p => nth p ab_orbo [] ++ nth p ab_orbv []).

(** Lines 128-131: the slices at [nao], the number of rows. *)
Definition moa : list (list K) := firstn ab_nao ab_mo.
Definition mob : list (list K) := skipn ab_nao ab_mo.
Definition orboa : list (list K) := firstn ab_nao ab_orbo.
Definition orbob : list (list K) := skipn ab_nao ab_orbo.

(** [e_ia = lib.direct_sum('a-i->ia', mo_energy[viridx], mo_energy[occidx])]
    and [a = numpy.diag(e_ia.ravel()).reshape(nocc,nvir,nocc,nvir)]. *)
Definition ab_e_ia (i a : nat) : K :=
  nth (nth a ab_viridx 0%nat) (ab_mo_energy inp) k0
  - nth (nth i ab_occidx 0%nat) (ab_mo_energy inp) k0.
Definition a_init : tensor4 :=
  fun i a j b =>
    if Nat.eqb (i * ab_nvir + a) (j * ab_nvir + b) then ab_e_ia i a else k0.
Definition b_init : tensor4 := fun _ _ _ _ => k0.

(** Modelled from the spec: [ao2mo.general] is [pyscf.ao2mo], not part of
    the source file.  It "accepts four orbital-coefficient matrix slices and
    returns the corresponding transformed integral tensor": the integrals
    [(pq|rs)] of the molecule contracted with one column of each matrix. *)
Definition ao2mo_general (c1 c2 c3 c4 : list (list K)) : tensor4 :=
  fun i j k l =>
    ksum (ab_mol_nao inp) (fun p => ksum (ab_mol_nao inp) (fun q =>
    ksum (ab_mol_nao inp) (fun r => ksum (ab_mol_nao inp) (fun s =>
      entry c1 p i * entry c2 q j * entry c3 r k * entry c4 s l
      * ab_eri inp p q r s)))).

(** [add_hf_(a, b, hyb)] (lines 138-149). *)
Definition eri_mo_aa : tensor4 :=
  fun i j k l =>
    ao2mo_general orboa moa moa moa i j k l
    + ao2mo_general orbob mob mob mob i j k l.
Definition eri_mo : tensor4 :=
  fun i j k l =>
    ao2mo_general orboa moa mob mob i j k l
    + ao2mo_general orbob mob moa moa i j k l
    + eri_mo_aa i j k l.

Definition add_hf_ (ab : tensor4 * tensor4) (hyb : K) : tensor4 * tensor4 :=
  let n := ab_nocc in
  (fun i a j b =>
     fst ab i a j b + eri_mo i (n + a)%nat (n + b)%nat j
     - eri_mo_aa i j (n + b)%nat (n + a)%nat * hyb,
   fun i a j b =>
     snd ab i a j b + eri_mo i (n + a)%nat j (n + b)%nat
     - eri_mo_aa j (n + a)%nat i (n + b)%nat * hyb).

(** *** One block of the grid *)

Section Block.
Variable blk : grid_block K.

(** Modelled from the spec: [lib.einsum] is [pyscf.lib.einsum], not part of
    the source file; it is the Einstein summation, which requires the two
    extents of a contracted index to agree.  [get_mo_value] contracts the
    columns of [ao] with the rows of [moa] and with the rows of [mob]. *)
Definition get_mo_value_ok : bool :=
  Nat.eqb (blk_nbas blk) (length moa) && Nat.eqb (blk_nbas blk) (length mob).

Definition mo_a (x r i : nat) : K :=
  ksum (blk_nbas blk) (fun p => blk_ao blk x r p * entry moa p i).
Definition mo_b (x r i : nat) : K :=
  ksum (blk_nbas blk) (fun p => blk_ao blk x r p * entry mob p i).
(** [get_mo_value(ao)] (lines 171-179): the values of the occupied and of
    the virtual orbitals of both slices on the grid. *)
Definition get_mo_value
  : (nat -> nat -> nat -> K) * (nat -> nat -> nat -> K)
    * (nat -> nat -> nat -> K) * (nat -> nat -> nat -> K) :=
  (fun x r i => mo_a x r i, fun x r a => mo_a x r (ab_nocc + a),
   fun x r i => mo_b x r i, fun x r a => mo_b x r (ab_nocc + a)).

(** The body of the loops, for the orbital values
    [mo_oa, mo_va, mo_ob, mo_vb = get_mo_value(ao)]. *)
Section Formulas.
Variables mo_oa mo_va mo_ob mo_vb : nat -> nat -> nat -> K.

(** **** LDA (lines 185-202) *)

Definition lda_rho_ov_a (r i a : nat) : K := mo_oa 0 r i * mo_va 0 r a.
Definition lda_rho_ov_b (r i a : nat) : K := mo_ob 0 r i * mo_vb 0 r a.
Definition lda_rho_vo_a : nat -> nat -> nat -> K := lda_rho_ov_a.
Definition lda_rho_vo_b : nat -> nat -> nat -> K := lda_rho_ov_b.

(** [u_u * rho_ov_a] multiplies an array of shape [(ngrid,)] with one of
    shape [(ngrid,nocc,nvir)]: NumPy aligns the last axes, so the kernel is
    indexed by the virtual index when [ngrid = nvir], by the only grid point
    when [ngrid = 1], and the product, or the later [a += ...], raises
    [ValueError] otherwise. *)
Definition lda_broadcast_ok : bool :=
  Nat.eqb (blk_ngrid blk) ab_nvir || Nat.eqb (blk_ngrid blk) 1.
Definition lda_kernel_index (r a : nat) : nat :=
  if Nat.eqb (blk_ngrid blk) ab_nvir then a else r.

Definition lda_w_ov_a (r i a : nat) : K :=
  (blk_fxc0 blk (lda_kernel_index r a) 0 * lda_rho_ov_a r i a
   + blk_fxc0 blk (lda_kernel_index r a) 1 * lda_rho_ov_b r i a)
  * blk_weight blk r.
Definition lda_w_ov_b (r i a : nat) : K :=
  (blk_fxc0 blk (lda_kernel_index r a) 1 * lda_rho_ov_a r i a
   + blk_fxc0 blk (lda_kernel_index r a) 2 * lda_rho_ov_b r i a)
  * blk_weight blk r.

(** [lib.einsum('ria,rjb->iajb', w, rho)] *)
Definition contract_r (w rho : nat -> nat -> nat -> K) : tensor4 :=
  fun i a j b => ksum (blk_ngrid blk) (fun r => w r i a * rho r j b).

Definition lda_update (ab : tensor4 * tensor4) : tensor4 * tensor4 :=
  (fun i a j b =>
     fst ab i a j b + contract_r lda_w_ov_a lda_rho_vo_a i a j b
     + contract_r lda_w_ov_b lda_rho_vo_b i a j b,
   fun i a j b =>
     snd ab i a j b + contract_r lda_w_ov_a lda_rho_ov_a i a j b
     + contract_r lda_w_ov_b lda_rho_ov_b i a j b).

(** **** GGA (lines 208-284) *)

(** [uu, ud, dd = vxc[1].T], [u_u, u_d, d_d = fxc[0].T],
    [u_uu, u_ud, u_dd, d_uu, d_ud, d_dd = fxc[1].T] and
    [uu_uu, uu_ud, uu_dd, ud_ud, ud_dd, dd_dd = fxc[2].T]. *)
Definition v_uu (r : nat) : K := blk_vxc1 blk r 0.
Definition v_ud (r : nat) : K := blk_vxc1 blk r 1.
Definition v_dd (r : nat) : K := blk_vxc1 blk r 2.
Definition f_u_u (r : nat) : K := blk_fxc0 blk r 0.
Definition f_u_d (r : nat) : K := blk_fxc0 blk r 1.
Definition f_d_d (r : nat) : K := blk_fxc0 blk r 2.
Definition f_u_uu (r : nat) : K := blk_fxc1 blk r 0.
Definition f_u_ud (r : nat) : K := blk_fxc1 blk r 1.
Definition f_u_dd (r : nat) : K := blk_fxc1 blk r 2.
Definition f_d_uu (r : nat) : K := blk_fxc1 blk r 3.
Definition f_d_ud (r : nat) : K := blk_fxc1 blk r 4.
Definition f_d_dd (r : nat) : K := blk_fxc1 blk r 5.
Definition f_uu_uu (r : nat) : K := blk_fxc2 blk r 0.
Definition f_uu_ud (r : nat) : K := blk_fxc2 blk r 1.
Definition f_uu_dd (r : nat) : K := blk_fxc2 blk r 2.
Definition f_ud_ud (r : nat) : K := blk_fxc2 blk r 3.
Definition f_ud_dd (r : nat) : K := blk_fxc2 blk r 4.
Definition f_dd_dd (r : nat) : K := blk_fxc2 blk r 5.

(** Lines 217-220: the pair density and its three gradient components. *)
Definition rho_ov_a (x r i a : nat) : K :=
  match x with
  | O => mo_oa 0 r i * mo_va 0 r a
  | S _ => mo_oa x r i * mo_va 0 r a + mo_oa 0 r i * mo_va x r a
  end.
Definition rho_ov_b (x r i a : nat) : K :=
  match x with
  | O => mo_ob 0 r i * mo_vb 0 r a
  | S _ => mo_ob x r i * mo_vb 0 r a + mo_ob 0 r i * mo_vb x r a
  end.
(** Line 221: [rho_vo_a = rho_ov_a.conj()]. *)
Definition rho_vo_a : nat -> nat -> nat -> nat -> K := rho_ov_a.
(** Line 222: [rho_vo_b = rho_vo_a.conj()], the conjugate of [rho_vo_a],
    not of [rho_ov_b]. *)
Definition rho_vo_b : nat -> nat -> nat -> nat -> K := rho_vo_a.

(** [numpy.einsum('xr,xria->ria', rho0[1:4], rho_ov[1:4])] *)
Definition grad_dot (rho0 : nat -> nat -> K)
  (rho_ov : nat -> nat -> nat -> nat -> K) (r i a : nat) : K :=
  ksum 3 (fun x => rho0 (S x) r * rho_ov (S x) r i a).
Definition a0a1 : nat -> nat -> nat -> K := grad_dot (blk_rho0a blk) rho_ov_a.
Definition a0b1 : nat -> nat -> nat -> K := grad_dot (blk_rho0a blk) rho_ov_b.
Definition b0a1 : nat -> nat -> nat -> K := grad_dot (blk_rho0b blk) rho_ov_a.
Definition b0b1 : nat -> nat -> nat -> K := grad_dot (blk_rho0b blk) rho_ov_b.

(** [w_ov] from its three ingredients, then [w_ov *= weight[:,None,None]]:
    [w0] is [w_ov[0]], and [w_ov[1:]] is
    [f_ov_a * rho0a[1:4] + f_ov_b * rho0b[1:4] + g * rho_ov[1:4]]. *)
Definition assemble_w (w0 f_ov_a f_ov_b : nat -> nat -> nat -> K)
  (g : nat -> K) (rho_ov : nat -> nat -> nat -> nat -> K)
  (x r i a : nat) : K :=
  match x with
  | O => w0 r i a
  | S _ => f_ov_a r i a * blk_rho0a blk x r + f_ov_b r i a * blk_rho0b blk x r
           + g r * rho_ov x r i a
  end * blk_weight blk r.

(** aaaa (lines 230-243) *)
Definition w_aaaa : nat -> nat -> nat -> nat -> K :=
  assemble_w
    (fun r i a => f_u_u r * rho_ov_a 0 r i a + k2 * f_u_uu r * a0a1 r i a
                  + f_u_ud r * b0a1 r i a)
    (fun r i a => k4 * f_uu_uu r * a0a1 r i a + k2 * f_uu_ud r * b0a1 r i a
                  + k2 * f_u_uu r * rho_ov_a 0 r i a)
    (fun r i a => k2 * f_uu_ud r * a0a1 r i a + f_ud_ud r * b0a1 r i a
                  + f_u_ud r * rho_ov_a 0 r i a)
    (fun r => k2 * v_uu r) rho_ov_a.

(** bbbb (lines 248-261) *)
Definition w_bbbb : nat -> nat -> nat -> nat -> K :=
  assemble_w
    (fun r i a => f_d_d r * rho_ov_b 0 r i a + k2 * f_d_dd r * b0b1 r i a
                  + f_d_ud r * a0b1 r i a)
    (fun r i a => k2 * f_ud_dd r * b0b1 r i a + f_ud_ud r * a0b1 r i a
                  + f_d_ud r * rho_ov_b 0 r i a)
    (fun r i a => k4 * f_dd_dd r * b0b1 r i a + k2 * f_ud_dd r * a0b1 r i a
                  + k2 * f_d_dd r * rho_ov_b 0 r i a)
    (fun r => k2 * v_dd r) rho_ov_b.

(** aabb and bbaa (lines 266-279) *)
Definition w_aabb : nat -> nat -> nat -> nat -> K :=
  assemble_w
    (fun r i a => f_u_d r * rho_ov_b 0 r i a + k2 * f_u_dd r * b0b1 r i a
                  + f_u_ud r * a0b1 r i a)
    (fun r i a => k4 * f_uu_dd r * b0b1 r i a + k2 * f_uu_ud r * a0b1 r i a
                  + k2 * f_d_uu r * rho_ov_b 0 r i a)
    (fun r i a => k2 * f_ud_dd r * b0b1 r i a + f_ud_ud r * a0b1 r i a
                  + f_d_ud r * rho_ov_b 0 r i a)
    (fun r => v_ud r) rho_ov_b.

(** [lib.einsum('xria,xrjb->iajb', w_ov, rho)] *)
Definition contract_xr (w rho : nat -> nat -> nat -> nat -> K) : tensor4 :=
  fun i a j b =>
    ksum 4 (fun x => ksum (blk_ngrid blk) (fun r => w x r i a * rho x r j b)).

Definition gga_update (ab : tensor4 * tensor4) : tensor4 * tensor4 :=
  let a_iajb := contract_xr w_aabb rho_vo_a in
  let b_iajb := contract_xr w_aabb rho_ov_a in
  (fun i a j b =>
     fst ab i a j b
     + contract_xr w_aaaa rho_vo_a i a j b
     + contract_xr w_bbbb rho_vo_b i a j b
     + a_iajb i a j b
     (* a_iajb.conj().transpose(2,3,0,1) *)
     + a_iajb j b i a,
   fun i a j b =>
     snd ab i a j b
     + contract_xr w_aaaa rho_ov_a i a j b
     + contract_xr w_bbbb rho_ov_b i a j b
     + b_iajb i a j b * k2).

End Formulas.

(** One pass of the LDA loop and one of the GGA loop: an exception of
    [get_mo_value], or of the broadcast, ends the call. *)
Definition lda_block (ab : tensor4 * tensor4) : outcome (tensor4 * tensor4) :=
  if get_mo_value_ok && lda_broadcast_ok then
    let '(mo_oa, mo_va, mo_ob, mo_vb) := get_mo_value in
    Ok (lda_update mo_oa mo_va mo_ob mo_vb ab)
  else ValueError.

Definition gga_block (ab : tensor4 * tensor4) : outcome (tensor4 * tensor4) :=
  if get_mo_value_ok then
    let '(mo_oa, mo_va, mo_ob, mo_vb) := get_mo_value in
    Ok (gga_update mo_oa mo_va mo_ob mo_vb ab)
  else ValueError.

End Block.

(** The loop over the blocks of the grid: the first exception ends it. *)
Fixpoint over_blocks
  (step : grid_block K -> tensor4 * tensor4 -> outcome (tensor4 * tensor4))
  (blocks : list (grid_block K)) (ab : tensor4 * tensor4)
  : outcome (tensor4 * tensor4) :=
  match blocks with
  | [] => Ok ab
  | blk :: rest =>
      match step blk ab with
      | Ok ab' => over_blocks step rest ab'
      | ValueError => ValueError
      | IndexError => IndexError
      | NotImplementedError => NotImplementedError
      end
  end.

(** [get_ab(mf)] (lines 108-296). *)
Definition get_ab : outcome (tensor4 * tensor4) :=
  let ab := (a_init, b_init) in
  match ab_ks inp with
  | Some ks =>
      if negb (ks_deriv2 ks) then NotImplementedError
      else if ks_nlc ks then NotImplementedError
      else if negb (ks_collinear ks) then NotImplementedError
      else
        let ab := add_hf_ ab (ks_hyb ks) in
        match ks_xctype ks with
        | LDA => over_blocks lda_block (ks_blocks ks) ab
        | GGA => over_blocks gga_block (ks_blocks ks) ab
        | HF => Ok ab
        | NLC => NotImplementedError
        | MGGA => NotImplementedError
        end
  | None => Ok (add_hf_ ab k1)
  end.

(** The symmetry of the spec for a tensor of shape
    [(nocc,nvir,nocc,nvir)]: [t[i,a,j,b] = t[j,b,i,a]].  On real tensors
    the conjugate of the spec is the identity. *)
Definition exchange_symmetric (t : tensor4) : Prop :=
  forall i a j b,
    (i < ab_nocc)%nat -> (a < ab_nvir)%nat ->
    (j < ab_nocc)%nat -> (b < ab_nvir)%nat ->
    t i a j b = t j b i a.

End GetAB.

(** ** A concrete scalar type and small reference states

    Integers are doubles without rounding; they are used to run the
    embedding on concrete inputs. *)

#[export] Instance Z_scalar : Scalar Z := {
  k0 := 0%Z;
  k1 := 1%Z;
  kadd := Z.add;
  kmul := Z.mul;
  ksub := Z.sub;
  kopp := Z.opp
}.

(** A density response without two-electron or functional contribution. *)
Definition zero_response {K : Type} {SK : Scalar K}
  (d : list (list (list (cplx K)))) : list (list (list (cplx K))) :=
  map (map (map (fun _ => c0))) d.

(** One occupied and one virtual spin orbital with energies [-1] and [2],
    in the basis of the orbitals themselves. *)
Definition toy_mf : SCF Z := {|
  mol_symmetry := false;
  mo_coeff := [[(1, 0); (0, 0)]; [(0, 0); (1, 0)]]%Z;
  mo_energy := [-1; 2]%Z;
  mo_occ := [1; 0]%Z;
  orbsym := [];
  gen_response := zero_response
|}.

(** A Fock matrix that differs from the orbital energies of [toy_mf]. *)
Definition toy_fock : list (list (cplx Z)) :=
  [[(-3, 0); (0, 0)]; [(0, 0); (5, 0)]]%Z.

(** One occupied and two virtual orbitals in a point group with symmetry:
    the occupied orbital and the first virtual one have irrep 0, the second
    virtual one has irrep 1.  For the target irrep 0 the pair [(0,1)] is
    forbidden and the pair [(0,0)] is allowed. *)
Definition sym_mf : SCF Z := {|
  mol_symmetry := true;
  mo_coeff := [[(1, 0); (0, 0); (0, 0)];
               [(0, 0); (1, 0); (0, 0)];
               [(0, 0); (0, 0); (1, 0)]]%Z;
  mo_energy := [-1; 2; 4]%Z;
  mo_occ := [1; 0; 0]%Z;
  orbsym := [0; 0; 1]%Z;
  gen_response := zero_response
|}.

(** The state of the spec's toy system as [init_guess] receives it: one
    occupied and one virtual spin orbital with energies [-1.0] and [0.5]. *)
Definition toy_mf_Q : SCF Q := {|
  mol_symmetry := false;
  mo_coeff := [[(1, 0); (0, 0)]; [(0, 0); (1, 0)]]%Q;
  mo_energy := [-1; 1 # 2]%Q;
  mo_occ := [1; 0]%Z;
  orbsym := [];
  gen_response := zero_response
|}.

(** A state with three gaps, the two lowest exactly equal: [init_guess]
    reads the occupied orbital at occupation 2. *)
Definition degenerate_mf : SCF Q := {|
  mol_symmetry := false;
  mo_coeff := [];
  mo_energy := [0; 1; 1; 2]%Q;
  mo_occ := [2; 0; 0; 0]%Z;
  orbsym := [];
  gen_response := zero_response
|}.

(** A Hartree-Fock reference for [get_ab]: two basis functions, two
    occupied and two virtual orbitals, and integrals [(pq|rs)] with the
    symmetry of real integrals. *)
Definition toy_ab : ab_input Z := {|
  ab_mo_energy := [-2; -1; 2; 4]%Z;
  ab_mo_coeff := [[1; 0; 1; 0]; [0; 1; 1; 1]; [1; 0; 0; 1]; [0; 0; 1; 1]]%Z;
  ab_mo_occ := [1; 1; 0; 0]%Z;
  ab_mol_nao := 2;
  ab_eri := fun p q r s => Z.of_nat ((p + q + 1) * (r + s + 1));
  ab_ks := None
|}.

(** The same reference with an LDA and with a GGA functional on a grid
    without points. *)
Definition toy_ks (xc : xc_family) : ks_data Z := {|
  ks_deriv2 := true;
  ks_nlc := false;
  ks_collinear := true;
  ks_hyb := 0%Z;
  ks_xctype := xc;
  ks_blocks := []
|}.

Definition toy_ab_ks (xc : xc_family) : ab_input Z := {|
  ab_mo_energy := ab_mo_energy toy_ab;
  ab_mo_coeff := ab_mo_coeff toy_ab;
  ab_mo_occ := ab_mo_occ toy_ab;
  ab_mol_nao := ab_mol_nao toy_ab;
  ab_eri := ab_eri toy_ab;
  ab_ks := Some (toy_ks xc)
|}.

(** One grid point of weight 1 where only the down-down kernel [d_d] of
    [fxc[0]] is not zero, and orbital values on it: an occupied orbital
    with value 1 in both spin slices, and two virtual orbitals, the first
    with values [(0, 1)] and the second with values [(1, 0)] in the two
    slices; all gradients vanish. *)
Definition one_point : grid_block Z := {|
  blk_ngrid := 1;
  blk_nbas := 2;
  blk_ao := fun _ _ _ => 0%Z;
  blk_weight := fun _ => 1%Z;
  blk_rho0a := fun _ _ => 0%Z;
  blk_rho0b := fun _ _ => 0%Z;
  blk_vxc1 := fun _ _ => 0%Z;
  blk_fxc0 := fun _ c => if Nat.eqb c 2 then 1%Z else 0%Z;
  blk_fxc1 := fun _ _ => 0%Z;
  blk_fxc2 := fun _ _ => 0%Z
|}.
Definition pt_oa (x r i : nat) : Z := if Nat.eqb x 0 then 1%Z else 0%Z.
Definition pt_va (x r a : nat) : Z :=
  if Nat.eqb x 0 then (if Nat.eqb a 0 then 0%Z else 1%Z) else 0%Z.
Definition pt_ob (x r i : nat) : Z := if Nat.eqb x 0 then 1%Z else 0%Z.
Definition pt_vb (x r a : nat) : Z :=
  if Nat.eqb x 0 then (if Nat.eqb a 0 then 1%Z else 0%Z) else 0%Z.

(** ** The end of [TDA.kernel] and of [TDHF.kernel]

    After the Davidson iteration both kernels count the orbitals again, from
    the occupations alone (lines 392-394 and 531-533), and reshape every
    root [xi] of the solver with these counts (lines 395 and 536-541). *)

Section Kernel.

(** [nocc = (mo_occ>0).sum()], [nmo = mo_occ.size], [nvir = nmo - nocc] *)
Definition kernel_nocc (occ : list Z) : nat :=
  length (filter (fun o => Z.ltb 0 o) occ).
Definition kernel_nmo (occ : list Z) : nat := length occ.
Definition kernel_nvir (occ : list Z) : nat := kernel_nmo occ - kernel_nocc occ.

Context {K : Type} {SK : Scalar K}.
Local Abbreviation C := (cplx K).

(** [xi.reshape(nocc,nvir)]; NumPy raises [ValueError] for a vector of
    another size. *)
Definition reshape_root (n_occ n_vir : nat) (xi : list C)
  : outcome (list (list C)) :=
  if Nat.eqb (length xi) (n_occ * n_vir)
  then Ok (tab n_occ (fun i => tab n_vir (fun a => get1 xi (i * n_vir + a))))
  else ValueError.

(** [self.xy = [(xi.reshape(nocc,nvir), 0) for xi in x1]]: the Y block of
    a TDA root is the integer 0. *)
Fixpoint tda_xy (occ : list Z) (x1 : list (list C))
  : outcome (list (list (list C) * Z)) :=
  match x1 with
  | [] => Ok []
  | xi :: rest =>
      match reshape_root (kernel_nocc occ) (kernel_nvir occ) xi with
      | Ok x =>
          match tda_xy occ rest with
          | Ok xy => Ok ((x, 0%Z) :: xy)
          | ValueError => ValueError
          | IndexError => IndexError
          | NotImplementedError => NotImplementedError
          end
      | ValueError => ValueError
      | IndexError => IndexError
      | NotImplementedError => NotImplementedError
      end
  end.

End Kernel.

(** [self.xy = [norm_xy(z) for z in x1]] of [TDHF.kernel]. *)
Fixpoint tdhf_xy {F : Type} {AF : Arith F} (occ : list Z)
  (x1 : list (list (amp (F := F))))
  : outcome (list (list (list amp) * list (list amp))) :=
  match x1 with
  | [] => Ok []
  | z :: rest =>
      match norm_xy (kernel_nocc occ) (kernel_nvir occ) z with
      | Ok xy =>
          match tdhf_xy occ rest with
          | Ok xys => Ok (xy :: xys)
          | ValueError => ValueError
          | IndexError => IndexError
          | NotImplementedError => NotImplementedError
          end
      | ValueError => ValueError
      | IndexError => IndexError
      | NotImplementedError => NotImplementedError
      end
  end.

(** [nov = e_ia.size] of [TDA.init_guess] (line 351). *)
Definition guess_nov (mf : SCF Q) : nat := length (concat (guess_e_ia mf)).

(** A closed-shell-like state for [init_guess] in a point group with
    symmetry: one orbital of occupation 2 with irrep 0, and two empty
    orbitals with irreps 0 and 1.  For the target irrep 0 the pair of the
    occupied orbital with the second empty orbital is forbidden. *)
Definition sym_guess_mf : SCF Q := {|
  mol_symmetry := true;
  mo_coeff := [];
  mo_energy := [0; 1; 2]%Q;
  mo_occ := [2; 0; 0]%Z;
  orbsym := [0; 0; 1]%Z;
  gen_response := zero_response
|}.


(** * Properties *)

(** ** Lists built by [tab] *)

Section TabFacts.
Context {A : Type}.

Lemma tab_length (n : nat) (f : nat -> A) : length (tab n f) = n.
Proof. unfold tab. now rewrite length_map, length_seq. Qed.

Lemma nth_tab (n : nat) (f : nat -> A) (d : A) (i : nat) :
  i < n -> nth i (tab n f) d = f i.
Proof.
  intros Hi. unfold tab.
  rewrite (nth_indep _ d (f 0)) by now rewrite length_map, length_seq.
  rewrite (map_nth f (seq 0 n) 0 i), seq_nth by exact Hi. reflexivity.
Qed.

Lemma nth_tab_default (n : nat) (f : nat -> A) (d : A) (i : nat) :
  n <= i -> nth i (tab n f) d = d.
Proof. intros Hi. apply nth_overflow. now rewrite tab_length. Qed.

Lemma tab_ext (n : nat) (f g : nat -> A) :
  (forall i, i < n -> f i = g i) -> tab n f = tab n g.
Proof.
  intros H. unfold tab. apply map_ext_in. intros i Hi.
  apply in_seq in Hi. apply H. lia.
Qed.

Lemma tab_const (n : nat) (a : A) : tab n (fun _ => a) = repeat a n.
Proof.
  unfold tab. generalize 0. induction n as [|n IH]; intros s; simpl.
  - reflexivity.
  - now rewrite IH.
Qed.

Lemma tab_S (n : nat) (f : nat -> A) : tab (S n) f = tab n f ++ [f n].
Proof. unfold tab. rewrite seq_S, map_app. reflexivity. Qed.

End TabFacts.

Lemma map_tab {A B : Type} (g : A -> B) (n : nat) (f : nat -> A) :
  map g (tab n f) = tab n (fun i => g (f i)).
Proof. unfold tab. now rewrite map_map. Qed.

Lemma tab_nth {A : Type} (l : list A) (d : A) :
  tab (length l) (fun i => nth i l d) = l.
Proof.
  apply nth_ext with (d := d) (d' := d).
  - apply tab_length.
  - intros i Hi. rewrite tab_length in Hi. now rewrite nth_tab.
Qed.

Lemma concat_tab_length {A : Type} (n m : nat) (f : nat -> list A) :
  (forall i, i < n -> length (f i) = m) -> length (concat (tab n f)) = n * m.
Proof.
  induction n as [|n IH]; intros H.
  - reflexivity.
  - rewrite tab_S, concat_app, length_app, IH by (intros; apply H; lia).
    simpl. rewrite app_nil_r, H by lia. lia.
Qed.

Lemma nth_concat_tab {A : Type} (n m : nat) (f : nat -> list A) (d : A)
  (i a : nat) :
  (forall j, j < n -> length (f j) = m) -> i < n -> a < m ->
  nth (i * m + a) (concat (tab n f)) d = nth a (f i) d.
Proof.
  induction n as [|n IH]; intros Hlen Hi Ha.
  - lia.
  - rewrite tab_S, concat_app. simpl. rewrite app_nil_r.
    assert (Hl : length (concat (tab n f)) = n * m)
      by (apply concat_tab_length; intros; apply Hlen; lia).
    destruct (Nat.eq_dec i n) as [->|Hne].
    + rewrite app_nth2 by (rewrite Hl; lia). rewrite Hl. f_equal. lia.
    + rewrite app_nth1 by (rewrite Hl; nia).
      apply IH; [intros; apply Hlen; lia | lia | exact Ha].
Qed.

(** ** Complex arithmetic over a commutative ring of reals *)

Section RingFacts.
Context {K : Type} {SK : Scalar K}.
Hypothesis Kth : ring_theory k0 k1 kadd kmul ksub kopp (@eq K).
Add Ring Kring : Kth.
Local Abbreviation C := (cplx K).
Local Open Scope C_scope.

Ltac cplx_ring :=
  repeat match goal with z : cplx _ |- _ => destruct z end;
  unfold cadd, csub, cmul, copp, conj, c0, c1, of_real, re, im; simpl;
  f_equal; ring.

Lemma cmul_0_l (z : C) : c0 * z = c0.
Proof. cplx_ring. Qed.

Lemma cmul_0_r (z : C) : z * c0 = c0.
Proof. cplx_ring. Qed.

Lemma cadd_0_l (z : C) : c0 + z = z.
Proof. cplx_ring. Qed.

Lemma cadd_0_r (z : C) : z + c0 = z.
Proof. cplx_ring. Qed.

Lemma csub_0_r (z : C) : z - c0 = z.
Proof. cplx_ring. Qed.

Lemma copp_0 : - c0 = (c0 : C).
Proof. cplx_ring. Qed.

Lemma cmul_comm (z w : C) : z * w = w * z.
Proof. cplx_ring. Qed.

Lemma re_sub_of_real (x y : K) : re (of_real x - of_real y) = (x - y)%K.
Proof. reflexivity. Qed.

Lemma csum_ext (n : nat) (f g : nat -> C) :
  (forall i, i < n -> f i = g i) -> csum n f = csum n g.
Proof.
  induction n as [|n IH]; intros H; simpl.
  - reflexivity.
  - rewrite IH, H by (intros; try apply H; lia). reflexivity.
Qed.

Lemma csum_zero (n : nat) (f : nat -> C) :
  (forall i, i < n -> f i = c0) -> csum n f = c0.
Proof.
  induction n as [|n IH]; intros H; simpl.
  - reflexivity.
  - rewrite IH, H by (intros; try apply H; lia). apply cadd_0_l.
Qed.

(** Reading a zero array gives zero at every index, in range or not. *)
Lemma get1_zeros1 (n i : nat) : get1 (zeros1 n) i = (c0 : C).
Proof.
  unfold get1, zeros1. destruct (Nat.lt_ge_cases i n).
  - now rewrite nth_tab.
  - now rewrite nth_tab_default.
Qed.

Lemma get2_zeros2 (n m i j : nat) : get2 (zeros2 n m) i j = (c0 : C).
Proof.
  unfold get2, zeros2. destruct (Nat.lt_ge_cases i n).
  - rewrite nth_tab by assumption. apply get1_zeros1.
  - rewrite nth_tab_default by assumption. unfold get1. now destruct j.
Qed.

Lemma get3_zeros3 (b n m x i j : nat) : get3 (zeros3 b n m) x i j = (c0 : C).
Proof.
  unfold get3, zeros3. destruct (Nat.lt_ge_cases x b).
  - rewrite nth_tab by assumption. apply get2_zeros2.
  - rewrite nth_tab_default by assumption. unfold get2, get1.
    destruct i; now destruct j.
Qed.

Lemma get3_tab (b n m : nat) (f : nat -> nat -> nat -> C) (x i j : nat) :
  x < b -> i < n -> j < m ->
  get3 (tab b (fun x => tab n (fun i => tab m (fun j => f x i j)))) x i j
  = f x i j.
Proof.
  intros Hx Hi Hj. unfold get3, get2, get1.
  now rewrite (nth_tab _ _ Hx), (nth_tab _ _ Hi), (nth_tab _ _ Hj).
Qed.

Lemma tab_zeros3 (b n m : nat) (f : nat -> nat -> nat -> C) :
  (forall x i j, f x i j = c0) ->
  tab b (fun x => tab n (fun i => tab m (fun j => f x i j))) = zeros3 b n m.
Proof.
  intros H. unfold zeros3, zeros2, zeros1.
  apply tab_ext; intros x _. apply tab_ext; intros i _.
  apply tab_ext; intros j _. apply H.
Qed.

Lemma get3_zero_response (d : list (list (list C))) (x p q : nat) :
  get3 (zero_response d) x p q = c0.
Proof.
  unfold get3, get2, get1, zero_response.
  change (@nil (list C)) with (map (map (fun _ : C => (c0 : C))) []).
  rewrite map_nth.
  change (@nil C) with (map (fun _ : C => (c0 : C)) []).
  rewrite map_nth.
  generalize (nth p (nth x d []) []) q.
  induction l as [|z l IH]; intros [|j]; simpl; auto.
Qed.

Lemma get2_tab (n m : nat) (f : nat -> nat -> C) (i j : nat) :
  i < n -> j < m ->
  get2 (tab n (fun i => tab m (fun j => f i j))) i j = f i j.
Proof.
  intros Hi Hj. unfold get2, get1.
  now rewrite (nth_tab _ _ Hi), (nth_tab _ _ Hj).
Qed.

End RingFacts.

(** ** The diagonal of the TDHF operator *)

Section Diagonal.
Context {K : Type} {SK : Scalar K}.
Variable mf : SCF K.
Local Abbreviation C := (cplx K).

Lemma hdiag_block_length (foo fvv : list (list C)) (wfnsym : option Z) :
  length (concat (hdiag_block mf foo fvv wfnsym)) = nocc mf * nvir mf.
Proof.
  unfold hdiag_block. apply concat_tab_length. intros i _. apply tab_length.
Qed.

Lemma hdiag_block_nth (foo fvv : list (list C)) (wfnsym : option Z)
  (i a : nat) :
  i < nocc mf -> a < nvir mf ->
  nth (i * nvir mf + a) (concat (hdiag_block mf foo fvv wfnsym)) c0
  = if forbidden mf wfnsym i a then c0 else (get2 fvv a a - get2 foo i i)%C.
Proof.
  intros Hi Ha. unfold hdiag_block.
  rewrite nth_concat_tab by (try assumption; intros; apply tab_length).
  now rewrite nth_tab.
Qed.

(** The diagonal entries of [numpy.diag(v)] are the entries of [v]. *)
Lemma diag_diagonal (n : nat) (v : list K) (i : nat) :
  i < n -> get2 (diag n v) i i = of_real (nth i v k0).
Proof.
  intros Hi. unfold diag, get2, get1.
  rewrite (nth_tab _ _ Hi), (nth_tab _ _ Hi), Nat.eqb_refl. reflexivity.
Qed.

(** C8.  The diagonal returned by [gen_tdhf_operation] has length
    [2*nocc*nvir]; its entry at [(i,a)] in the first half is the real part of
    [fvv[a,a] - foo[i,i]], that is the orbital-energy difference
    [e_vir[a] - e_occ[i]], or zero when the pair is symmetry-forbidden; the
    second half is the negation of the first half, entry by entry. *)
Theorem tdhf_hdiag_layout (fock_ao : option (list (list C)))
  (wfnsym : option Z) :
  let hdiag := snd (gen_tdhf_operation mf fock_ao wfnsym) in
  let nov := nocc mf * nvir mf in
  length hdiag = 2 * nov
  /\ (forall i a, i < nocc mf -> a < nvir mf ->
        nth (i * nvir mf + a) hdiag k0
        = (if forbidden mf wfnsym i a then k0
           else re (get2 (tdhf_fvv mf) a a - get2 (tdhf_foo mf) i i)%C)
        /\ re (get2 (tdhf_fvv mf) a a - get2 (tdhf_foo mf) i i)%C
           = (nth a (e_vir mf) k0 - nth i (e_occ mf) k0)%K)
  /\ (forall j, j < nov -> nth (nov + j) hdiag k0 = (- nth j hdiag k0)%K).
Proof.
  cbn zeta. unfold gen_tdhf_operation, tdhf_hdiag. cbn [snd].
  set (h := concat (hdiag_block mf (tdhf_foo mf) (tdhf_fvv mf) wfnsym)).
  assert (Hh : length h = nocc mf * nvir mf) by apply hdiag_block_length.
  split; [|split].
  - rewrite length_map, length_app, length_map, Hh. lia.
  - intros i a Hi Ha. split.
    + change k0 with (re (c0 : C)) at 1. rewrite map_nth.
      rewrite app_nth1 by (rewrite Hh; nia).
      unfold h. rewrite hdiag_block_nth by assumption.
      now destruct (forbidden mf wfnsym i a).
    + unfold tdhf_fvv, tdhf_foo. now rewrite !diag_diagonal by assumption.
  - intros j Hj. change k0 with (re (c0 : C)). rewrite !map_nth.
    rewrite app_nth2 by (rewrite Hh; lia). rewrite Hh.
    replace (nocc mf * nvir mf + j - nocc mf * nvir mf) with j by lia.
    rewrite app_nth1 by (rewrite Hh; lia).
    rewrite (nth_indep (map copp h) c0 (copp c0))
      by (rewrite length_map, Hh; lia).
    rewrite map_nth. reflexivity.
Qed.

End Diagonal.

(** ** The TDA and TDHF operators *)

Section OperatorFacts.
Context {K : Type} {SK : Scalar K}.
Hypothesis Kth : ring_theory k0 k1 kadd kmul ksub kopp (@eq K).
Variable mf : SCF K.
Local Abbreviation C := (cplx K).

Lemma reshape_ov_length (off : nat) (zs : list (list C)) :
  length (reshape_ov mf off zs) = length zs.
Proof. apply tab_length. Qed.

Lemma get3_reshape_ov (off : nat) (zs : list (list C)) (x o v : nat) :
  x < length zs -> o < nocc mf -> v < nvir mf ->
  get3 (reshape_ov mf off zs) x o v = get2 zs x (off + (o * nvir mf + v)).
Proof. intros. unfold reshape_ov. now rewrite get3_tab. Qed.

Lemma proj_ov_zero (v1ao : list (list (list C))) (x o v : nat) :
  (forall p q, get3 v1ao x p q = c0) -> proj_ov mf v1ao x o v = c0.
Proof.
  intros H. unfold proj_ov.
  apply (csum_zero Kth); intros p _. apply (csum_zero Kth); intros q _.
  now rewrite H, !(cmul_0_l Kth).
Qed.

Lemma proj_vo_zero (v1ao : list (list (list C))) (x o v : nat) :
  (forall p q, get3 v1ao x p q = c0) -> proj_vo mf v1ao x o v = c0.
Proof.
  intros H. unfold proj_vo.
  apply (csum_zero Kth); intros p _. apply (csum_zero Kth); intros q _.
  now rewrite H, !(cmul_0_l Kth).
Qed.

(** C3.  When the density response [vresp] returns zero and no symmetry
    filter is active, the TDA operator maps every well-shaped batch to the
    flattened Fock-commutator term [Z·fvv − foo·Z] of each of its blocks,
    where [foo] and [fvv] are the diagonal matrices of the occupied and of
    the virtual orbital energies. *)
Theorem tda_vind_fock_commutator (wfnsym : option Z) (zs : list (list C)) :
  (forall d x p q, get3 (gen_response mf d) x p q = c0) ->
  sym_active mf wfnsym = false ->
  reshape_ok (nocc mf * nvir mf) zs = true ->
  fst (gen_tda_operation mf None wfnsym) zs
  = Some (map (fun Z => concat (fock_commutator (nocc mf) (nvir mf)
                                  (diag (nocc mf) (e_occ mf))
                                  (diag (nvir mf) (e_vir mf)) Z))
              (reshape_ov mf 0 zs)).
Proof.
  intros Hresp Hsym Hshape. cbn [gen_tda_operation fst].
  unfold tda_vind. rewrite Hshape. f_equal.
  unfold tda_apply, tda_core. rewrite Hsym, reshape_ov_length.
  cbn [tda_foo tda_fvv].
  set (foo := diag (nocc mf) (e_occ mf)).
  set (fvv := diag (nvir mf) (e_vir mf)).
  unfold ravel_rows. rewrite map_tab.
  match goal with |- _ = map ?g _ =>
    rewrite <- (tab_nth (reshape_ov mf 0 zs) []) at 1;
    rewrite (map_tab g), reshape_ov_length
  end.
  apply tab_ext; intros x Hx. f_equal. unfold fock_commutator.
  apply tab_ext; intros o Ho. apply tab_ext; intros v Hv.
  rewrite proj_ov_zero by (intros; apply Hresp).
  rewrite (cadd_0_l Kth).
  unfold dot. rewrite !get2_tab by assumption. apply f_equal2.
  - unfold z_fvv. apply (csum_ext); intros s Hs.
    reflexivity.
  - unfold foo_z. apply (csum_ext); intros p Hp.
    unfold get3. apply (cmul_comm Kth).
Qed.

(** *** Trial vectors supported on forbidden pairs *)

Lemma forbidden_inactive (wfnsym : option Z) (i a : nat) :
  sym_active mf wfnsym = false -> forbidden mf wfnsym i a = false.
Proof.
  unfold sym_active, forbidden. destruct wfnsym as [w|]; [|reflexivity].
  now intros ->.
Qed.

(** After the projection of the input, a batch whose entries vanish at every
    allowed pair is the zero batch. *)
Lemma masked_input_zero (wfnsym : option Z) (off : nat) (zs : list (list C)) :
  (forall x i a, x < length zs -> i < nocc mf -> a < nvir mf ->
     forbidden mf wfnsym i a = false ->
     get2 zs x (off + (i * nvir mf + a)) = c0) ->
  (if sym_active mf wfnsym then mask_batch mf wfnsym (reshape_ov mf off zs)
   else reshape_ov mf off zs)
  = zeros3 (length zs) (nocc mf) (nvir mf).
Proof.
  intros H. unfold zeros3, zeros2, zeros1.
  destruct (sym_active mf wfnsym) eqn:Hact.
  - unfold mask_batch. rewrite reshape_ov_length.
    apply tab_ext; intros x Hx. apply tab_ext; intros i Hi.
    apply tab_ext; intros a Ha.
    destruct (forbidden mf wfnsym i a) eqn:Hf; [reflexivity|].
    rewrite get3_reshape_ov by assumption. now apply H.
  - unfold reshape_ov.
    apply tab_ext; intros x Hx. apply tab_ext; intros i Hi.
    apply tab_ext; intros a Ha. apply H; try assumption.
    now apply forbidden_inactive.
Qed.

Lemma mask_zeros3 (wfnsym : option Z) (nz : nat) :
  (if sym_active mf wfnsym
   then mask_batch mf wfnsym (zeros3 nz (nocc mf) (nvir mf))
   else zeros3 nz (nocc mf) (nvir mf))
  = zeros3 nz (nocc mf) (nvir mf).
Proof.
  destruct (sym_active mf wfnsym); [|reflexivity].
  unfold mask_batch. unfold zeros3 at 1. rewrite tab_length.
  unfold zeros3, zeros2, zeros1.
  apply tab_ext; intros x Hx. apply tab_ext; intros i Hi.
  apply tab_ext; intros a Ha.
  destruct (forbidden mf wfnsym i a); [reflexivity|].
  apply (get3_zeros3 nz (nocc mf) (nvir mf)).
Qed.

Lemma dm_ov_zeros (nz x p q : nat) :
  dm_ov mf (zeros3 nz (nocc mf) (nvir mf)) x p q = c0.
Proof.
  unfold dm_ov. apply (csum_zero Kth); intros o _.
  apply (csum_zero Kth); intros v _.
  now rewrite get3_zeros3, !(cmul_0_l Kth).
Qed.

Lemma dm_vo_zeros (nz x p q : nat) :
  dm_vo mf (zeros3 nz (nocc mf) (nvir mf)) x p q = c0.
Proof.
  unfold dm_vo. apply (csum_zero Kth); intros o _.
  apply (csum_zero Kth); intros v _.
  now rewrite get3_zeros3, !(cmul_0_l Kth).
Qed.

Lemma z_fvv_zeros (fvv : list (list C)) (nz x o v : nat) :
  z_fvv mf (zeros3 nz (nocc mf) (nvir mf)) fvv x o v = c0.
Proof.
  unfold z_fvv. apply (csum_zero Kth); intros s _.
  now rewrite get3_zeros3, (cmul_0_l Kth).
Qed.

Lemma foo_z_zeros (foo : list (list C)) (nz x o v : nat) :
  foo_z mf (zeros3 nz (nocc mf) (nvir mf)) foo x o v = c0.
Proof.
  unfold foo_z. apply (csum_zero Kth); intros s _.
  now rewrite get3_zeros3, (cmul_0_l Kth).
Qed.

Lemma concat_zeros2 (n m : nat) :
  concat (zeros2 n m) = repeat (c0 : C) (n * m).
Proof.
  unfold zeros2, zeros1. rewrite !tab_const.
  induction n as [|n IH]; simpl.
  - reflexivity.
  - now rewrite IH, repeat_app.
Qed.

Lemma ravel_zeros3 (nz n m : nat) :
  ravel_rows (zeros3 nz n m) = repeat (repeat (c0 : C) (n * m)) nz.
Proof.
  unfold ravel_rows, zeros3. rewrite map_tab, <- tab_const.
  apply tab_ext; intros x _. apply concat_zeros2.
Qed.

Lemma tda_apply_zero (foo fvv : list (list C)) (wfnsym : option Z)
  (off : nat) (zs : list (list C)) :
  (forall x i a, x < length zs -> i < nocc mf -> a < nvir mf ->
     forbidden mf wfnsym i a = false ->
     get2 zs x (off + (i * nvir mf + a)) = c0) ->
  gen_response mf (zeros3 (length zs) (nao mf) (nao mf))
  = zeros3 (length zs) (nao mf) (nao mf) ->
  tda_apply mf foo fvv wfnsym (reshape_ov mf off zs)
  = repeat (repeat c0 (nocc mf * nvir mf)) (length zs).
Proof.
  intros Hz Hresp. unfold tda_apply, tda_core.
  rewrite (masked_input_zero wfnsym off zs Hz).
  set (n := length (zeros3 (length zs) (nocc mf) (nvir mf))).
  assert (Hn : n = length zs) by apply tab_length.
  rewrite Hn. clear n Hn.
  rewrite (tab_zeros3 (length zs) (nao mf) (nao mf))
    by (intros; apply dm_ov_zeros).
  rewrite Hresp.
  rewrite (tab_zeros3 (length zs) (nocc mf) (nvir mf)).
  - rewrite mask_zeros3. apply ravel_zeros3.
  - intros x o v.
    rewrite proj_ov_zero by (intros; apply get3_zeros3).
    rewrite z_fvv_zeros, foo_z_zeros.
    now rewrite (cadd_0_l Kth), (csub_0_r Kth).
Qed.

Lemma tdhf_apply_zero (wfnsym : option Z) (xys : list (list C)) :
  (forall x i a, x < length xys -> i < nocc mf -> a < nvir mf ->
     forbidden mf wfnsym i a = false ->
     get2 xys x (0 + (i * nvir mf + a)) = c0) ->
  (forall x i a, x < length xys -> i < nocc mf -> a < nvir mf ->
     forbidden mf wfnsym i a = false ->
     get2 xys x (nocc mf * nvir mf + (i * nvir mf + a)) = c0) ->
  gen_response mf (zeros3 (length xys) (nao mf) (nao mf))
  = zeros3 (length xys) (nao mf) (nao mf) ->
  tdhf_apply mf wfnsym (reshape_ov mf 0 xys)
    (reshape_ov mf (nocc mf * nvir mf) xys)
  = repeat (repeat c0 (2 * (nocc mf * nvir mf))) (length xys).
Proof.
  intros Hx Hy Hresp. unfold tdhf_apply, tdhf_core.
  rewrite (masked_input_zero wfnsym 0 xys Hx).
  rewrite (masked_input_zero wfnsym _ xys Hy).
  set (n := length (zeros3 (length xys) (nocc mf) (nvir mf))).
  assert (Hn : n = length xys) by apply tab_length.
  rewrite Hn. clear n Hn.
  rewrite (tab_zeros3 (length xys) (nao mf) (nao mf))
    by (intros; rewrite dm_ov_zeros, dm_vo_zeros; apply (cadd_0_l Kth)).
  rewrite Hresp.
  rewrite !(tab_zeros3 (length xys) (nocc mf) (nvir mf)).
  - rewrite mask_zeros3, ravel_zeros3.
    rewrite <- (tab_const (length xys)
                  (repeat (c0 : C) (2 * (nocc mf * nvir mf)))).
    apply tab_ext; intros x Hlt.
    rewrite nth_repeat_lt by exact Hlt.
    rewrite map_repeat, (copp_0 Kth), <- repeat_app. f_equal. lia.
  - intros x o v.
    rewrite proj_vo_zero by (intros; apply get3_zeros3).
    rewrite z_fvv_zeros, foo_z_zeros.
    now rewrite (cadd_0_l Kth), (csub_0_r Kth).
  - intros x o v.
    rewrite proj_ov_zero by (intros; apply get3_zeros3).
    rewrite z_fvv_zeros, foo_z_zeros.
    now rewrite (cadd_0_l Kth), (csub_0_r Kth).
Qed.

(** C7.  A trial batch whose entries vanish at every pair that is not
    symmetry-forbidden is mapped to the zero batch by the TDA operator and
    by the TDHF operator (there for both halves X and Y), provided the
    density response maps the zero densities to zero. *)
Theorem vind_forbidden_only_zero (fock_ao : option (list (list C)))
  (wfnsym : option Z) (zs xys : list (list C)) :
  let nov := nocc mf * nvir mf in
  gen_response mf (zeros3 (length zs) (nao mf) (nao mf))
  = zeros3 (length zs) (nao mf) (nao mf) ->
  gen_response mf (zeros3 (length xys) (nao mf) (nao mf))
  = zeros3 (length xys) (nao mf) (nao mf) ->
  reshape_ok nov zs = true ->
  reshape_ok (2 * nov) xys = true ->
  (forall x i a, x < length zs -> i < nocc mf -> a < nvir mf ->
     forbidden mf wfnsym i a = false -> get2 zs x (i * nvir mf + a) = c0) ->
  (forall x i a, x < length xys -> i < nocc mf -> a < nvir mf ->
     forbidden mf wfnsym i a = false ->
     get2 xys x (i * nvir mf + a) = c0
     /\ get2 xys x (nov + (i * nvir mf + a)) = c0) ->
  fst (gen_tda_operation mf fock_ao wfnsym) zs
  = Some (repeat (repeat c0 nov) (length zs))
  /\ fst (gen_tdhf_operation mf fock_ao wfnsym) xys
     = Some (repeat (repeat c0 (2 * nov)) (length xys)).
Proof.
  intros nov Hr1 Hr2 Hs1 Hs2 Hz Hxy. subst nov. split.
  - cbn [gen_tda_operation fst]. unfold tda_vind. rewrite Hs1. f_equal.
    apply tda_apply_zero; [|exact Hr1]. intros. now apply Hz.
  - cbn [gen_tdhf_operation fst]. unfold tdhf_vind. rewrite Hs2. f_equal.
    apply tdhf_apply_zero; [| |exact Hr2]; intros; now apply Hxy.
Qed.

(** *** An explicit Fock matrix *)

(** C5 (amended).  With an explicit Fock matrix [fock_ao],
    [gen_tda_operation] takes [foo] and [fvv] from the occupied-occupied and
    virtual-virtual blocks of [mo_coeff.conj().T · fock_ao · mo_coeff], and
    its diagonal from their diagonals.  [gen_tdhf_operation] accepts
    [fock_ao] and ignores it: it returns the same operator and diagonal as
    without it, with [foo] and [fvv] the diagonal matrices of the stored
    orbital energies. *)
Theorem fock_ao_projection_tda_only (fock_ao : list (list C))
  (wfnsym : option Z) :
  (forall i j, i < nocc mf -> j < nocc mf ->
     get2 (tda_foo mf (Some fock_ao)) i j
     = get2 (dot (nmo mf) (nao mf) (nmo mf)
               (dot (nmo mf) (nao mf) (nao mf)
                  (conjT (nao mf) (nmo mf) (mo_coeff mf)) fock_ao)
               (mo_coeff mf))
         (nth i (occidx mf) 0) (nth j (occidx mf) 0))
  /\ (forall a b, a < nvir mf -> b < nvir mf ->
        get2 (tda_fvv mf (Some fock_ao)) a b
        = get2 (dot (nmo mf) (nao mf) (nmo mf)
                  (dot (nmo mf) (nao mf) (nao mf)
                     (conjT (nao mf) (nmo mf) (mo_coeff mf)) fock_ao)
                  (mo_coeff mf))
            (nth a (viridx mf) 0) (nth b (viridx mf) 0))
  /\ (forall i a, i < nocc mf -> a < nvir mf ->
        nth (i * nvir mf + a)
          (snd (gen_tda_operation mf (Some fock_ao) wfnsym)) k0
        = if forbidden mf wfnsym i a then k0
          else re (get2 (tda_fvv mf (Some fock_ao)) a a
                   - get2 (tda_foo mf (Some fock_ao)) i i)%C)
  /\ gen_tdhf_operation mf (Some fock_ao) wfnsym
     = gen_tdhf_operation mf None wfnsym
  /\ (forall i a, i < nocc mf -> a < nvir mf ->
        forbidden mf wfnsym i a = false ->
        nth (i * nvir mf + a)
          (snd (gen_tdhf_operation mf (Some fock_ao) wfnsym)) k0
        = (nth a (e_vir mf) k0 - nth i (e_occ mf) k0)%K).
Proof.
  repeat split.
  - intros i j Hi Hj. cbn [tda_foo]. now rewrite get2_tab.
  - intros a b Ha Hb. cbn [tda_fvv]. now rewrite get2_tab.
  - intros i a Hi Ha. cbn [gen_tda_operation snd]. unfold tda_hdiag.
    change k0 with (re (c0 : C)) at 1. rewrite map_nth.
    rewrite hdiag_block_nth by assumption.
    now destruct (forbidden mf wfnsym i a).
  - intros i a Hi Ha Hf. cbn [gen_tdhf_operation snd]. unfold tdhf_hdiag.
    change k0 with (re (c0 : C)) at 1. rewrite map_nth.
    rewrite app_nth1 by (rewrite hdiag_block_length; nia).
    rewrite hdiag_block_nth, Hf by assumption.
    unfold tdhf_fvv, tdhf_foo. now rewrite !diag_diagonal by assumption.
Qed.

End OperatorFacts.

(** ** The operators leave the caller's array alone *)

Section MemoryFacts.
Context {K : Type} {SK : Scalar K}.
Local Abbreviation C := (cplx K).
Variable mf : SCF K.

Lemma load_alloc_old (s : store (K := K)) (a : list (list C)) (l : loc)
  (b : list (list C)) :
  load s l = Some b -> load (s ++ [a]) l = Some b.
Proof.
  unfold load. intros H.
  rewrite nth_error_app1; [exact H|].
  apply nth_error_Some. now rewrite H.
Qed.

Lemma load_alloc_new (s : store (K := K)) (a : list (list C)) :
  load (s ++ [a]) (length s) = Some a.
Proof.
  unfold load.
  rewrite nth_error_app2 by lia. now rewrite Nat.sub_diag.
Qed.

Lemma load_modify_other (s : store (K := K)) (c l : loc)
  (f : list (list C) -> list (list C)) :
  l <> c -> load (modify s c f) l = load s l.
Proof.
  unfold load. revert c l.
  induction s as [|a s IH]; intros [|c] [|l] Hne; simpl; try reflexivity.
  - congruence.
  - apply IH. congruence.
Qed.

Lemma load_modify_same (s : store (K := K)) (c : loc)
  (f : list (list C) -> list (list C)) (a : list (list C)) :
  load s c = Some a -> load (modify s c f) c = Some (f a).
Proof.
  unfold load. revert c.
  induction s as [|b s IH]; intros [|c] H; simpl in *; try discriminate.
  - now inversion H.
  - now apply IH.
Qed.

Lemma load_lt (s : store (K := K)) (l : loc) (b : list (list C)) :
  load s l = Some b -> l < length s.
Proof. unfold load. intros H. apply nth_error_Some. now rewrite H. Qed.

(** Reading back the rows of a batch of blocks as blocks. *)
Lemma reshape_ov_ravel (n : nat) (f : nat -> nat -> nat -> C) :
  reshape_ov mf 0
    (ravel_rows (tab n (fun x => tab (nocc mf) (fun i => tab (nvir mf)
                   (fun a => f x i a)))))
  = tab n (fun x => tab (nocc mf) (fun i => tab (nvir mf) (fun a => f x i a))).
Proof.
  unfold reshape_ov, ravel_rows. rewrite length_map, tab_length.
  apply tab_ext; intros x Hx. apply tab_ext; intros i Hi.
  apply tab_ext; intros a Ha.
  unfold get2, get1. rewrite map_tab, (nth_tab _ _ Hx). cbn [Nat.add].
  rewrite nth_concat_tab by (try assumption; intros; apply tab_length).
  now rewrite (nth_tab _ _ Ha).
Qed.

Lemma nth_ravel_length (n x : nat) (f : nat -> nat -> nat -> C) :
  x < n ->
  length (nth x (ravel_rows (tab n (fun x => tab (nocc mf) (fun i =>
            tab (nvir mf) (fun a => f x i a))))) [])
  = nocc mf * nvir mf.
Proof.
  intros Hx. unfold ravel_rows. rewrite map_tab, (nth_tab _ _ Hx).
  apply concat_tab_length. intros; apply tab_length.
Qed.

Lemma reshape_ov_hstack (n : nat) (f g : nat -> nat -> nat -> C) :
  let X := tab n (fun x => tab (nocc mf) (fun i => tab (nvir mf)
                  (fun a => f x i a))) in
  let Y := tab n (fun x => tab (nocc mf) (fun i => tab (nvir mf)
                  (fun a => g x i a))) in
  let rows := tab n (fun x => nth x (ravel_rows X) []
                              ++ nth x (ravel_rows Y) []) in
  reshape_ov mf 0 rows = X
  /\ reshape_ov mf (nocc mf * nvir mf) rows = Y.
Proof.
  intros X Y rows. unfold reshape_ov. subst rows. rewrite tab_length.
  split; apply tab_ext; intros x Hx; apply tab_ext; intros i Hi;
    apply tab_ext; intros a Ha; unfold get2, get1;
    rewrite (nth_tab _ _ Hx).
  - rewrite app_nth1 by (subst X; rewrite nth_ravel_length by exact Hx; nia).
    subst X. unfold ravel_rows. rewrite map_tab, (nth_tab _ _ Hx).
    cbn [Nat.add].
    rewrite nth_concat_tab by (try assumption; intros; apply tab_length).
    now rewrite (nth_tab _ _ Ha).
  - rewrite app_nth2 by (subst X; rewrite nth_ravel_length by exact Hx; lia).
    subst X. rewrite nth_ravel_length by exact Hx.
    replace (nocc mf * nvir mf + (i * nvir mf + a) - nocc mf * nvir mf)
      with (i * nvir mf + a) by lia.
    subst Y. unfold ravel_rows. rewrite map_tab, (nth_tab _ _ Hx).
    rewrite nth_concat_tab by (try assumption; intros; apply tab_length).
    now rewrite (nth_tab _ _ Ha).
Qed.

Lemma reshape_ov_len (off : nat) (a : list (list C)) :
  length (reshape_ov mf off a) = length a.
Proof. apply tab_length. Qed.

Lemma reshape_zero_forbidden (wfnsym : option Z) (a : list (list C)) :
  reshape_ov mf 0 (zero_forbidden mf wfnsym a)
  = mask_batch mf wfnsym (reshape_ov mf 0 a).
Proof. unfold zero_forbidden, mask_batch. apply reshape_ov_ravel. Qed.

Lemma reshape_zero_forbidden_xy (wfnsym : option Z) (a : list (list C)) :
  reshape_ov mf 0 (zero_forbidden_xy mf wfnsym a)
  = mask_batch mf wfnsym (reshape_ov mf 0 a)
  /\ reshape_ov mf (nocc mf * nvir mf) (zero_forbidden_xy mf wfnsym a)
     = mask_batch mf wfnsym (reshape_ov mf (nocc mf * nvir mf) a).
Proof.
  unfold zero_forbidden_xy, mask_batch. rewrite !reshape_ov_len.
  apply (reshape_ov_hstack (length a)).
Qed.

Lemma frame_copy_modify (s : store (K := K)) (a : list (list C))
  (f : list (list C) -> list (list C)) (l : loc) (b : list (list C)) :
  load s l = Some b ->
  load (modify (s ++ [a]) (length s) f) l = Some b.
Proof.
  intros H. rewrite load_modify_other.
  - now apply load_alloc_old.
  - apply load_lt in H. lia.
Qed.

Lemma tda_vind_mem_spec (fock_ao : option (list (list C)))
  (wfnsym : option Z) (s : store) (zs : loc) (a : list (list C)) :
  load s zs = Some a ->
  reshape_ok (nocc mf * nvir mf) a = true ->
  exists r s',
    tda_vind_mem mf fock_ao wfnsym zs s = Some (r, s')
    /\ (forall l b, load s l = Some b -> load s' l = Some b)
    /\ load s' r = tda_vind mf fock_ao wfnsym a.
Proof.
  intros Hload Hshape. unfold tda_vind_mem, tda_vind, tda_apply.
  rewrite Hload, Hshape.
  destruct (sym_active mf wfnsym) eqn:Hact.
  - unfold alloc at 1. cbv iota beta.
    rewrite (@load_modify_same _ _ _ _ (load_alloc_new s a)).
    eexists. eexists. split; [reflexivity|]. split.
    + intros l b Hl. apply load_alloc_old. now apply frame_copy_modify.
    + unfold alloc. cbn [fst snd]. rewrite load_alloc_new.
      now rewrite reshape_zero_forbidden.
  - rewrite Hload. eexists. eexists. split; [reflexivity|]. split.
    + intros l b Hl. unfold alloc. cbn [snd]. now apply load_alloc_old.
    + unfold alloc. cbn [fst snd]. now rewrite load_alloc_new.
Qed.

Lemma tdhf_vind_mem_spec (wfnsym : option Z) (s : store) (xys : loc)
  (a : list (list C)) :
  load s xys = Some a ->
  reshape_ok (2 * (nocc mf * nvir mf)) a = true ->
  exists r s',
    tdhf_vind_mem mf wfnsym xys s = Some (r, s')
    /\ (forall l b, load s l = Some b -> load s' l = Some b)
    /\ load s' r = tdhf_vind mf wfnsym a.
Proof.
  intros Hload Hshape. unfold tdhf_vind_mem, tdhf_vind, tdhf_apply.
  rewrite Hload, Hshape.
  destruct (sym_active mf wfnsym) eqn:Hact.
  - unfold alloc at 1. cbv iota beta.
    rewrite (@load_modify_same _ _ _ _ (load_alloc_new s a)).
    eexists. eexists. split; [reflexivity|]. split.
    + intros l b Hl. apply load_alloc_old. now apply frame_copy_modify.
    + unfold alloc. cbn [fst snd]. rewrite load_alloc_new.
      destruct (reshape_zero_forbidden_xy wfnsym a) as [-> ->].
      reflexivity.
  - rewrite Hload. eexists. eexists. split; [reflexivity|]. split.
    + intros l b Hl. unfold alloc. cbn [snd]. now apply load_alloc_old.
    + unfold alloc. cbn [fst snd]. now rewrite load_alloc_new.
Qed.

(** C10.  A call of the TDA or of the TDHF operator on the caller's array
    returns, and afterwards the caller's array, like every array that
    existed before the call, has the contents it had before: with an active
    symmetry filter the forbidden entries are zeroed in a copy.  The array
    returned holds what the operator computes from the contents of the
    input. *)
Theorem vind_leaves_input_unchanged (fock_ao : option (list (list C)))
  (wfnsym : option Z) (s : store) (zs : loc) (a : list (list C)) :
  load s zs = Some a ->
  (reshape_ok (nocc mf * nvir mf) a = true ->
   exists r s',
     tda_vind_mem mf fock_ao wfnsym zs s = Some (r, s')
     /\ load s' zs = Some a
     /\ (forall l b, load s l = Some b -> load s' l = Some b)
     /\ load s' r = fst (gen_tda_operation mf fock_ao wfnsym) a)
  /\ (reshape_ok (2 * (nocc mf * nvir mf)) a = true ->
      exists r s',
        tdhf_vind_mem mf wfnsym zs s = Some (r, s')
        /\ load s' zs = Some a
        /\ (forall l b, load s l = Some b -> load s' l = Some b)
        /\ load s' r = fst (gen_tdhf_operation mf fock_ao wfnsym) a).
Proof.
  intros Hload. split; intros Hshape.
  - destruct (tda_vind_mem_spec fock_ao wfnsym s zs Hload Hshape)
      as (r & s' & Hrun & Hframe & Hres).
    exists r, s'. repeat split; auto.
  - destruct (tdhf_vind_mem_spec wfnsym s zs Hload Hshape)
      as (r & s' & Hrun & Hframe & Hres).
    exists r, s'. repeat split; auto.
Qed.

End MemoryFacts.

(** ** The initial guess *)

Section GuessFacts.
Local Open Scope Q_scope.

Lemma where_from_none (x : Z) (v : list Z) (i : nat) :
  Forall (fun y => y <> x) v -> where_from x v i = [].
Proof.
  intros H. revert i. induction H as [|y v Hy _ IH]; intros i; simpl.
  - reflexivity.
  - apply Z.eqb_neq in Hy. rewrite Hy. apply IH.
Qed.

(** C2 fails on the code.  [init_guess] looks for the occupied orbitals at
    occupation 2; a state whose occupations are 0 or 1 has none, the array of
    gaps has no element and [e_ia.max()] raises [ValueError]: no guess is
    returned, whatever the orbital energies. *)
Theorem init_guess_ghf_occupations_rejected (mf : SCF Q) (nstates : Z)
  (wfnsym : option Z) :
  Forall (fun o => o = 0%Z \/ o = 1%Z) (mo_occ mf) ->
  init_guess mf nstates wfnsym = ValueError.
Proof.
  intros Hocc. unfold init_guess, guess_e_ia, guess_occidx, where_eq.
  rewrite where_from_none; [reflexivity|].
  eapply Forall_impl; [|exact Hocc]. intros o [-> | ->]; discriminate.
Qed.

(** *** [argsort] sorts *)

Lemma Qle_bool_false (x y : Q) : Qle_bool x y = false -> y <= x.
Proof.
  intros H. destruct (Qlt_le_dec x y) as [Hlt|Hle]; [|exact Hle].
  apply Qlt_le_weak, Qle_bool_iff in Hlt. congruence.
Qed.

Lemma insert_idx_perm (e : list Q) (j : nat) (l : list nat) :
  Permutation (insert_idx e j l) (j :: l).
Proof.
  induction l as [|k l IH]; simpl.
  - apply Permutation_refl.
  - destruct (Qle_bool (nth j e 0) (nth k e 0)).
    + apply Permutation_refl.
    + eapply Permutation_trans; [apply perm_skip, IH | apply perm_swap].
Qed.

Lemma argsort_perm (e : list Q) :
  Permutation (argsort e) (seq 0 (length e)).
Proof.
  unfold argsort. induction (seq 0 (length e)) as [|j l IH]; simpl.
  - apply Permutation_refl.
  - eapply Permutation_trans; [apply insert_idx_perm | apply perm_skip, IH].
Qed.

Lemma insert_idx_sorted (e : list Q) (j : nat) (l : list nat) :
  StronglySorted (key_le e) l -> StronglySorted (key_le e) (insert_idx e j l).
Proof.
  induction 1 as [|k l Hs IH Hk]; simpl.
  - constructor; constructor.
  - destruct (Qle_bool (nth j e 0) (nth k e 0)) eqn:Hjk.
    + apply Qle_bool_iff in Hjk. constructor.
      * now constructor.
      * constructor; [exact Hjk|].
        eapply Forall_impl; [|exact Hk].
        intros m Hm. unfold key_le in *. lra.
    + apply Qle_bool_false in Hjk. constructor; [exact IH|].
      apply (Permutation_Forall (Permutation_sym (insert_idx_perm e j l))).
      constructor; assumption.
Qed.

Lemma argsort_sorted (e : list Q) : StronglySorted (key_le e) (argsort e).
Proof.
  unfold argsort. induction (seq 0 (length e)) as [|j l IH]; simpl.
  - constructor.
  - now apply insert_idx_sorted.
Qed.

Lemma map_nth_seq (e : list Q) :
  map (fun j => nth j e 0) (seq 0 (length e)) = e.
Proof. apply (tab_nth e 0). Qed.

Lemma sorted_gaps_perm (e : list Q) : Permutation (sorted_gaps e) e.
Proof.
  unfold sorted_gaps.
  eapply Permutation_trans;
    [apply Permutation_map, argsort_perm | rewrite map_nth_seq; reflexivity].
Qed.

Lemma sorted_gaps_sorted (e : list Q) : StronglySorted Qle (sorted_gaps e).
Proof.
  unfold sorted_gaps. induction (argsort_sorted e) as [|k l Hs IH Hk]; simpl.
  - constructor.
  - constructor; [exact IH|]. apply Forall_map. exact Hk.
Qed.

Lemma argsort_length (e : list Q) : length (argsort e) = length e.
Proof.
  rewrite (Permutation_length (argsort_perm e)). apply length_seq.
Qed.

Lemma argsort_lt (e : list Q) (j : nat) :
  In j (argsort e) -> (j < length e)%nat.
Proof.
  intros H. apply (Permutation_in _ (argsort_perm e)) in H.
  apply in_seq in H. lia.
Qed.

Lemma argsort_NoDup (e : list Q) : NoDup (argsort e).
Proof.
  apply (Permutation_NoDup (Permutation_sym (argsort_perm e))), seq_NoDup.
Qed.

Lemma StronglySorted_nth {A : Type} (R : A -> A -> Prop) (l : list A)
  (d : A) (p q : nat) :
  StronglySorted R l -> (p < q)%nat -> (q < length l)%nat ->
  R (nth p l d) (nth q l d).
Proof.
  intros Hs. revert p q.
  induction Hs as [|a l Hs IH Ha]; intros p q Hpq Hq; simpl in Hq.
  - lia.
  - destruct q as [|q]; [lia|]. destruct p as [|p]; simpl.
    + rewrite Forall_forall in Ha. apply Ha, nth_In. lia.
    + apply IH; lia.
Qed.

Lemma NoDup_firstn {A : Type} (n : nat) (l : list A) :
  NoDup l -> NoDup (firstn n l).
Proof.
  intros H. rewrite <- (firstn_skipn n l) in H.
  now apply NoDup_app_remove_r in H.
Qed.

Lemma py_min_le (a b : Q) : b <= a -> py_min a b == b.
Proof.
  intros H. unfold py_min. destruct (Qle_bool a b) eqn:Hab.
  - apply Qle_bool_iff in Hab. lra.
  - reflexivity.
Qed.

Lemma where_le_compat (e : list Q) (t t' : Q) :
  t == t' -> where_le e t = where_le e t'.
Proof.
  intros Ht. unfold where_le. apply filter_ext. intros j.
  destruct (Qle_bool (nth j e 0) t) eqn:H1;
    destruct (Qle_bool (nth j e 0) t') eqn:H2; try reflexivity.
  - apply Qle_bool_iff in H1.
    assert (H3 : Qle_bool (nth j e 0) t' = true) by (apply Qle_bool_iff; lra).
    congruence.
  - apply Qle_bool_iff in H2.
    assert (H3 : Qle_bool (nth j e 0) t = true) by (apply Qle_bool_iff; lra).
    congruence.
Qed.

Lemma where_le_In (e : list Q) (t : Q) (j : nat) :
  In j (where_le e t) <-> (j < length e)%nat /\ nth j e 0 <= t.
Proof.
  unfold where_le. rewrite filter_In, in_seq, Qle_bool_iff.
  intuition lia.
Qed.

Lemma where_le_NoDup (e : list Q) (t : Q) : NoDup (where_le e t).
Proof. apply NoDup_filter, seq_NoDup. Qed.

(** The value that the code reads at [argsort(e_ia)[nstates-1]]. *)
Lemma select_guess_run (e : list Q) (e_max : Q) (nstates : Z) :
  (1 <= nstates <= Z.of_nat (length e))%Z ->
  (forall g, In g e -> g <= e_max) ->
  let k := Z.to_nat (nstates - 1) in
  let j := nth k (argsort e) 0%nat in
  (k < length e)%nat /\ (j < length e)%nat
  /\ nth_error (sorted_gaps e) k = Some (nth j e 0)
  /\ select_guess e e_max nstates
     = Ok (map (unit_vector (length e))
             (where_le e (nth j e 0 + degeneracy_tol))).
Proof.
  intros Hn Hmax k j.
  assert (Hk : (k < length e)%nat) by (subst k; lia).
  assert (Hj : (j < length e)%nat).
  { apply argsort_lt. subst j. apply nth_In. now rewrite argsort_length. }
  assert (Hnth : nth_error (argsort e) k = Some j).
  { subst j. apply nth_error_nth'. now rewrite argsort_length. }
  repeat split; try assumption.
  - unfold sorted_gaps. rewrite nth_error_map, Hnth. reflexivity.
  - unfold select_guess.
    rewrite Z.min_l by lia. unfold py_index.
    replace (0 <=? nstates - 1)%Z with true by (symmetry; apply Z.leb_le; lia).
    fold k. rewrite Hnth. do 2 f_equal.
    apply where_le_compat.
    rewrite py_min_le; [reflexivity|]. apply Hmax, nth_In, Hj.
Qed.

(** The selection stage (lines 351-362) on an array of gaps [e_ia] with an
    upper bound [e_ia_max] of the gaps. *)
Lemma select_guess_spec (e_ia : list Q) (e_ia_max : Q)
  (nstates : Z) :
  (1 <= nstates <= Z.of_nat (length e_ia))%Z ->
  (forall g, In g e_ia -> g <= e_ia_max) ->
  exists (sorted : list Q) (kth : Q) (idx : list nat),
    Permutation sorted e_ia /\ StronglySorted Qle sorted
    /\ nth_error sorted (Z.to_nat (nstates - 1)) = Some kth
    /\ select_guess e_ia e_ia_max nstates
       = Ok (map (unit_vector (length e_ia)) idx)
    /\ NoDup idx
    /\ (forall j, In j idx <->
          (j < length e_ia)%nat /\ nth j e_ia 0 <= kth + degeneracy_tol)
    /\ (Z.to_nat nstates <= length idx)%nat
    /\ (nstates = 1%Z ->
        forall p q, (p < q)%nat -> (q < length e_ia)%nat ->
          nth p e_ia 0 == nth q e_ia 0 ->
          (forall j, (j < length e_ia)%nat -> nth p e_ia 0 <= nth j e_ia 0) ->
          In p idx /\ In q idx /\ (2 <= length idx)%nat
          /\ ((forall j, (j < length e_ia)%nat -> j <> p -> j <> q ->
                  nth p e_ia 0 + degeneracy_tol < nth j e_ia 0) ->
              length idx = 2%nat)).
Proof.
  intros Hn Hmax.
  destruct (select_guess_run e_ia Hn Hmax)
    as (Hk & Hj & Hkth & Hrun).
  set (k := Z.to_nat (nstates - 1)) in *.
  set (j := nth k (argsort e_ia) 0%nat) in *.
  set (kth := nth j e_ia 0) in *.
  set (idx := where_le e_ia (kth + degeneracy_tol)) in *.
  assert (Htol : 0 <= degeneracy_tol) by (unfold degeneracy_tol; lra).
  exists (sorted_gaps e_ia), kth, idx.
  split; [apply sorted_gaps_perm|]. split; [apply sorted_gaps_sorted|].
  split; [exact Hkth|]. split; [exact Hrun|].
  split; [apply where_le_NoDup|]. split; [intros; apply where_le_In|].
  assert (Hbelow : forall p, (p <= k)%nat ->
            nth (nth p (argsort e_ia) 0%nat) e_ia 0 <= kth).
  { intros p Hp. destruct (Nat.eq_dec p k) as [->|Hne].
    - subst kth j. lra.
    - apply (StronglySorted_nth (R := key_le e_ia) 0%nat
               (argsort_sorted e_ia)); [lia|].
      now rewrite argsort_length. }
  split.
  - replace (Z.to_nat nstates) with (S k) by (subst k; lia).
    rewrite <- (firstn_length_le (argsort e_ia) (n := S k))
      by (rewrite argsort_length; lia).
    apply NoDup_incl_length; [apply NoDup_firstn, argsort_NoDup|].
    intros m Hm. apply (In_nth _ _ 0%nat) in Hm.
    destruct Hm as (p & Hp & <-).
    rewrite firstn_length_le in Hp by (rewrite argsort_length; lia).
    rewrite nth_firstn.
    replace (p <? S k)%nat with true by (symmetry; apply Nat.ltb_lt; lia).
    apply where_le_In. split.
    + apply argsort_lt, nth_In. rewrite argsort_length. lia.
    + assert (Hpk : (p <= k)%nat) by lia.
      specialize (Hbelow p Hpk). lra.
  - intros H1 p q Hpq Hq Heq Hlow.
    assert (Hk0 : k = 0%nat) by (subst k; lia).
    assert (Hmin : forall m, (m < length e_ia)%nat -> kth <= nth m e_ia 0).
    { intros m Hm.
      assert (Hin : In m (argsort e_ia)).
      { apply (Permutation_in _ (Permutation_sym (argsort_perm e_ia))).
        apply in_seq. lia. }
      apply (In_nth _ _ 0%nat) in Hin. destruct Hin as (r & Hr & <-).
      destruct (Nat.eq_dec r k) as [->|Hne]; [subst kth j; lra|].
      apply (StronglySorted_nth (R := key_le e_ia) 0%nat
               (argsort_sorted e_ia)); [lia | exact Hr]. }
    assert (Hp : (p < length e_ia)%nat) by lia.
    assert (Hpk : nth p e_ia 0 == kth).
    { apply Qle_antisym; [apply Hlow, Hj | apply Hmin, Hp]. }
    assert (Hinp : In p idx) by (apply where_le_In; split; [exact Hp | lra]).
    assert (Hinq : In q idx) by (apply where_le_In; split; [exact Hq | lra]).
    split; [exact Hinp|]. split; [exact Hinq|].
    assert (Hnd : NoDup [p; q]).
    { constructor; [simpl; intros [H|[]]; lia|].
      constructor; [simpl; tauto | constructor]. }
    split.
    + change 2%nat with (length [p; q]).
      apply NoDup_incl_length; [exact Hnd|].
      intros m [<-|[<-|[]]]; assumption.
    + intros Hsep. change 2%nat with (length [p; q]).
      apply Permutation_length, NoDup_Permutation;
        [apply where_le_NoDup | exact Hnd|].
      intros m. split.
      * intros Hm. apply where_le_In in Hm. destruct Hm as [Hm Hle].
        destruct (Nat.eq_dec m p) as [->|Hmp]; [now left|].
        destruct (Nat.eq_dec m q) as [->|Hmq]; [right; now left|].
        specialize (Hsep m Hm Hmp Hmq). lra.
      * intros [<-|[<-|[]]]; assumption.
Qed.

Lemma fold_max_ge (e : list Q) (x : Q) :
  x <= fold_left (fun m y => if Qle_bool y m then m else y) e x
  /\ forall g, In g e ->
       g <= fold_left (fun m y => if Qle_bool y m then m else y) e x.
Proof.
  revert x. induction e as [|y e IH]; intros x; simpl.
  - split; [lra | intros g []].
  - destruct (Qle_bool y x) eqn:Hyx.
    + apply Qle_bool_iff in Hyx. destruct (IH x) as [Hx Hall].
      split; [exact Hx|]. intros g [<-|Hg]; [lra | now apply Hall].
    + apply Qle_bool_false in Hyx. destruct (IH y) as [Hy Hall].
      split; [lra|]. intros g [<-|Hg]; [exact Hy | now apply Hall].
Qed.

Lemma array_max_bound (e : list Q) (m : Q) :
  array_max e = Some m -> forall g, In g e -> g <= m.
Proof.
  destruct e as [|x e]; simpl; [discriminate|].
  intros [= <-] g [<-|Hg].
  - exact (proj1 (fold_max_ge e x)).
  - exact (proj2 (fold_max_ge e x) g Hg).
Qed.

Lemma guess_mask_inactive (mf : SCF Q) (wfnsym : option Z)
  (e : list (list Q)) :
  sym_active mf wfnsym = false -> guess_mask mf wfnsym e = e.
Proof.
  unfold sym_active, guess_mask. destruct wfnsym as [w|]; [|reflexivity].
  now intros ->.
Qed.

(** C9.  Let the gaps be those that [init_guess] computes, without symmetry
    filter, and let [kth] be the [nstates]-th smallest of them: the entry at
    position [nstates-1] of a sorted permutation of the gaps.  [init_guess]
    returns one unit vector for every pair whose gap is at most
    [kth + 1e-6], hence for every pair within the tolerance of [kth], and at
    least [nstates] vectors.  With [nstates = 1] and two equal lowest gaps
    at [p] and [q], the vectors of [p] and of [q] are both returned; they
    are the only ones when every other gap exceeds the lowest by more than
    the tolerance. *)
Theorem init_guess_includes_degenerate (mf : SCF Q) (nstates : Z)
  (wfnsym : option Z) :
  let e_ia := concat (guess_e_ia mf) in
  sym_active mf wfnsym = false ->
  (1 <= nstates <= Z.of_nat (length e_ia))%Z ->
  exists (sorted : list Q) (kth : Q) (idx : list nat),
    Permutation sorted e_ia /\ StronglySorted Qle sorted
    /\ nth_error sorted (Z.to_nat (nstates - 1)) = Some kth
    /\ init_guess mf nstates wfnsym
       = Ok (map (unit_vector (length e_ia)) idx)
    /\ NoDup idx
    /\ (forall j, In j idx <->
          (j < length e_ia)%nat /\ nth j e_ia 0 <= kth + degeneracy_tol)
    /\ (Z.to_nat nstates <= length idx)%nat
    /\ (nstates = 1%Z ->
        forall p q, (p < q)%nat -> (q < length e_ia)%nat ->
          nth p e_ia 0 == nth q e_ia 0 ->
          (forall j, (j < length e_ia)%nat -> nth p e_ia 0 <= nth j e_ia 0) ->
          In p idx /\ In q idx /\ (2 <= length idx)%nat
          /\ ((forall j, (j < length e_ia)%nat -> j <> p -> j <> q ->
                  nth p e_ia 0 + degeneracy_tol < nth j e_ia 0) ->
              length idx = 2%nat)).
Proof.
  intros e_ia Hact Hn. unfold init_guess.
  rewrite (guess_mask_inactive mf wfnsym _ Hact). fold e_ia.
  destruct (array_max e_ia) as [m|] eqn:Hmax.
  - apply (@select_guess_spec e_ia m nstates Hn).
    now apply array_max_bound.
  - destruct e_ia; [simpl in Hn; lia | discriminate].
Qed.

End GuessFacts.

(** ** The normalisation of TDHF roots *)

Lemma norm_xy_ok {F : Type} {AF : Arith F} (n_occ n_vir : nat)
  (z : list (amp (F := F))) :
  length z = (2 * n_occ * n_vir)%nat ->
  norm_xy n_occ n_vir z
  = Ok (scale_block (block_of n_occ n_vir 0 z)
          (fsqrt (fdiv f1
             (fsub (fmul (lib_norm (block_of n_occ n_vir 0 z))
                         (lib_norm (block_of n_occ n_vir 0 z)))
                   (fmul (lib_norm (block_of n_occ n_vir (n_occ * n_vir) z))
                         (lib_norm (block_of n_occ n_vir (n_occ * n_vir) z)))))),
        scale_block (block_of n_occ n_vir (n_occ * n_vir) z)
          (fsqrt (fdiv f1
             (fsub (fmul (lib_norm (block_of n_occ n_vir 0 z))
                         (lib_norm (block_of n_occ n_vir 0 z)))
                   (fmul (lib_norm (block_of n_occ n_vir (n_occ * n_vir) z))
                         (lib_norm (block_of n_occ n_vir (n_occ * n_vir) z))))))).
Proof.
  intros Hlen. unfold norm_xy.
  apply Nat.eqb_eq in Hlen. now rewrite Hlen.
Qed.

Section NormFacts.
Local Open Scope R_scope.

Lemma dot_self_acc (a : list R) (acc : R) :
  fold_left (fun s v => fadd s (fmul v v)) a acc
  = acc + fold_right (fun v s => v * v + s) 0 a.
Proof.
  revert acc. induction a as [|v a IH]; intros acc; simpl.
  - lra.
  - rewrite IH. lra.
Qed.

Lemma frobenius2_flat (v : list (R * R)) :
  dot_self (map fst v) + dot_self (map snd v)
  = fold_right (fun e acc => fst e * fst e + snd e * snd e + acc) 0 v.
Proof.
  unfold dot_self. rewrite !dot_self_acc. simpl.
  induction v as [|e v IH]; simpl; lra.
Qed.

Lemma frobenius2_nonneg (x : list (list (R * R))) : 0 <= frobenius2 x.
Proof.
  unfold frobenius2. induction (concat x) as [|e v IH]; simpl.
  - lra.
  - pose proof (Rle_0_sqr (fst e)). pose proof (Rle_0_sqr (snd e)).
    unfold Rsqr in *. lra.
Qed.

(** The code's [lib.norm(x)**2] is the squared Frobenius norm. *)
Lemma lib_norm_sqr (x : list (list (R * R))) :
  lib_norm x * lib_norm x = frobenius2 x.
Proof.
  unfold lib_norm. cbn [fsqrt fadd R_arith].
  change (fadd (dot_self (map fst (concat x))) (dot_self (map snd (concat x))))
    with (dot_self (map fst (concat x)) + dot_self (map snd (concat x))).
  rewrite frobenius2_flat. apply sqrt_sqrt, frobenius2_nonneg.
Qed.

Lemma frobenius2_scale (x : list (list (R * R))) (s : R) :
  frobenius2 (scale_block x s) = s * s * frobenius2 x.
Proof.
  unfold frobenius2, scale_block. rewrite <- concat_map.
  cbn [fmul R_arith].
  induction (concat x) as [|e v IH]; simpl.
  - lra.
  - rewrite IH. lra.
Qed.

(** C6.  In exact arithmetic: for a root vector [z] of [2*nocc*nvir]
    amplitudes whose pair of blocks [(X,Y)] has a strictly positive
    indefinite squared norm, [norm_xy] returns a pair [(X',Y')] with
    ‖X'‖²−‖Y'‖² = 1, for the squared Frobenius norms and likewise for the
    squares of [lib.norm]. *)
Theorem norm_xy_normalised (n_occ n_vir : nat) (z : list (R * R)) :
  length z = (2 * n_occ * n_vir)%nat ->
  0 < indefinite_norm2 (block_of n_occ n_vir 0 z)
        (block_of n_occ n_vir (n_occ * n_vir) z) ->
  exists x' y',
    norm_xy n_occ n_vir z = Ok (x', y')
    /\ indefinite_norm2 x' y' = 1
    /\ lib_norm x' * lib_norm x' - lib_norm y' * lib_norm y' = 1.
Proof.
  intros Hlen Hpos. rewrite (norm_xy_ok n_occ n_vir z Hlen).
  set (x := block_of n_occ n_vir 0 z) in *.
  set (y := block_of n_occ n_vir (n_occ * n_vir) z) in *.
  cbn [fsqrt fsub fmul fdiv f1 R_arith].
  rewrite !lib_norm_sqr. unfold indefinite_norm2 in Hpos.
  set (n := frobenius2 x - frobenius2 y) in *.
  set (s := sqrt (1 / n)).
  assert (Hs : s * s = 1 / n).
  { apply sqrt_sqrt. apply Rlt_le. unfold Rdiv. rewrite Rmult_1_l.
    now apply Rinv_0_lt_compat. }
  eexists. eexists. split; [reflexivity|].
  assert (Hone : indefinite_norm2 (scale_block x s) (scale_block y s) = 1).
  { unfold indefinite_norm2. rewrite !frobenius2_scale, Hs.
    fold n. unfold n. field. fold n. lra. }
  split; [exact Hone|].
  rewrite !lib_norm_sqr. exact Hone.
Qed.

End NormFacts.

(** C1 (amended).  [norm_xy] makes no test of the sign of ‖X‖²−‖Y‖²: for
    every vector [z] of [2*nocc*nvir] amplitudes it returns the two blocks
    scaled by [sqrt(1/norm)] and raises nothing, whatever the value of
    [norm]; this holds for every arithmetic, the doubles included. *)
Theorem norm_xy_never_rejects {F : Type} {AF : Arith F} (n_occ n_vir : nat)
  (z : list (amp (F := F))) :
  length z = (2 * n_occ * n_vir)%nat ->
  let x := block_of n_occ n_vir 0 z in
  let y := block_of n_occ n_vir (n_occ * n_vir) z in
  let norm := fsub (fmul (lib_norm x) (lib_norm x))
                   (fmul (lib_norm y) (lib_norm y)) in
  norm_xy n_occ n_vir z
  = Ok (scale_block x (fsqrt (fdiv f1 norm)),
        scale_block y (fsqrt (fdiv f1 norm))).
Proof.
  intros Hlen. cbn zeta. now apply norm_xy_ok.
Qed.

(** ** The dense blocks A and B *)

Section GetABFacts.
Context {K : Type} {SK : Scalar K}.
Hypothesis Kth : ring_theory k0 k1 kadd kmul ksub kopp (@eq K).
Add Ring Kring_ab : Kth.
Local Open Scope K_scope.

Lemma ksum_ext (n : nat) (f g : nat -> K) :
  (forall i, (i < n)%nat -> f i = g i) -> ksum n f = ksum n g.
Proof.
  induction n as [|n IH]; intros H; simpl.
  - reflexivity.
  - rewrite IH, H by (intros; try apply H; lia). reflexivity.
Qed.

Lemma ksum_zero (n : nat) (f : nat -> K) :
  (forall i, (i < n)%nat -> f i = k0) -> ksum n f = k0.
Proof.
  induction n as [|n IH]; intros H; simpl.
  - reflexivity.
  - rewrite IH, H by (intros; try apply H; lia). ring.
Qed.

Lemma ksum_add (n : nat) (f g : nat -> K) :
  ksum n (fun i => f i + g i) = ksum n f + ksum n g.
Proof.
  induction n as [|n IH]; simpl.
  - ring.
  - rewrite IH. ring.
Qed.

Lemma ksum_swap (n m : nat) (f : nat -> nat -> K) :
  ksum n (fun i => ksum m (fun j => f i j))
  = ksum m (fun j => ksum n (fun i => f i j)).
Proof.
  induction n as [|n IH]; simpl.
  - symmetry. now apply ksum_zero.
  - rewrite IH. symmetry. apply ksum_add.
Qed.

Section Assembler.
Variable inp : ab_input K.

(** The atomic-orbital integrals of real basis functions are symmetric
    under the exchange of the two functions of a pair and under the
    exchange of the two pairs. *)
Hypothesis eri_swap12 :
  forall p q r s, ab_eri inp p q r s = ab_eri inp q p r s.
Hypothesis eri_swap34 :
  forall p q r s, ab_eri inp p q r s = ab_eri inp p q s r.
Hypothesis eri_pairs :
  forall p q r s, ab_eri inp p q r s = ab_eri inp r s p q.

Lemma ao2mo_ext (c1 c2 c3 c4 d1 d2 d3 d4 : list (list K))
  (i j k l i' j' k' l' : nat) :
  (forall p, entry c1 p i = entry d1 p i') ->
  (forall p, entry c2 p j = entry d2 p j') ->
  (forall p, entry c3 p k = entry d3 p k') ->
  (forall p, entry c4 p l = entry d4 p l') ->
  ao2mo_general inp c1 c2 c3 c4 i j k l
  = ao2mo_general inp d1 d2 d3 d4 i' j' k' l'.
Proof.
  intros H1 H2 H3 H4. unfold ao2mo_general.
  apply ksum_ext; intros p _. apply ksum_ext; intros q _.
  apply ksum_ext; intros r _. apply ksum_ext; intros s _.
  now rewrite H1, H2, H3, H4.
Qed.

Lemma ao2mo_swap12 (c1 c2 c3 c4 : list (list K)) (i j k l : nat) :
  ao2mo_general inp c1 c2 c3 c4 i j k l
  = ao2mo_general inp c2 c1 c3 c4 j i k l.
Proof.
  unfold ao2mo_general. rewrite ksum_swap.
  apply ksum_ext; intros q _. apply ksum_ext; intros p _.
  apply ksum_ext; intros r _. apply ksum_ext; intros s _.
  rewrite (eri_swap12 p q r s). ring.
Qed.

Lemma ao2mo_swap34 (c1 c2 c3 c4 : list (list K)) (i j k l : nat) :
  ao2mo_general inp c1 c2 c3 c4 i j k l
  = ao2mo_general inp c1 c2 c4 c3 i j l k.
Proof.
  unfold ao2mo_general.
  apply ksum_ext; intros p _. apply ksum_ext; intros q _.
  rewrite ksum_swap.
  apply ksum_ext; intros s _. apply ksum_ext; intros r _.
  rewrite (eri_swap34 p q r s). ring.
Qed.

Lemma ao2mo_pairs (c1 c2 c3 c4 : list (list K)) (i j k l : nat) :
  ao2mo_general inp c1 c2 c3 c4 i j k l
  = ao2mo_general inp c3 c4 c1 c2 k l i j.
Proof.
  unfold ao2mo_general.
  (* p q r s -> p r q s -> r p q s -> r p s q -> r s p q *)
  transitivity
    (ksum (ab_mol_nao inp) (fun p => ksum (ab_mol_nao inp) (fun r =>
     ksum (ab_mol_nao inp) (fun q => ksum (ab_mol_nao inp) (fun s =>
       entry c1 p i * entry c2 q j * entry c3 r k * entry c4 s l
       * ab_eri inp p q r s))))).
  { apply ksum_ext; intros p _. apply ksum_swap. }
  rewrite ksum_swap.
  apply ksum_ext; intros r _.
  transitivity
    (ksum (ab_mol_nao inp) (fun p => ksum (ab_mol_nao inp) (fun s =>
     ksum (ab_mol_nao inp) (fun q =>
       entry c1 p i * entry c2 q j * entry c3 r k * entry c4 s l
       * ab_eri inp p q r s)))).
  { apply ksum_ext; intros p _. apply ksum_swap. }
  rewrite ksum_swap.
  apply ksum_ext; intros s _. apply ksum_ext; intros p _.
  apply ksum_ext; intros q _.
  rewrite (eri_pairs p q r s). ring.
Qed.

(** The occupied columns of [mo] are the columns of [orbo], in both
    slices. *)
Lemma ab_orbo_length : length (ab_orbo inp) = ab_nao inp.
Proof. apply tab_length. Qed.

Lemma ab_mo_length : length (ab_mo inp) = ab_nao inp.
Proof. apply tab_length. Qed.

Lemma entry_mo_occ (p i : nat) :
  (i < ab_nocc inp)%nat -> entry (ab_mo inp) p i = entry (ab_orbo inp) p i.
Proof.
  intros Hi. unfold entry.
  destruct (Nat.lt_ge_cases p (ab_nao inp)) as [Hp|Hp].
  - unfold ab_mo at 1. rewrite (nth_tab _ _ Hp).
    apply app_nth1. unfold ab_orbo. rewrite (nth_tab _ _ Hp).
    now rewrite tab_length.
  - rewrite !(nth_overflow _ []);
      [reflexivity | now rewrite ab_orbo_length | now rewrite ab_mo_length].
Qed.

Lemma moa_all : moa inp = ab_mo inp.
Proof. unfold moa. apply firstn_all2. now rewrite ab_mo_length. Qed.

Lemma orboa_all : orboa inp = ab_orbo inp.
Proof. unfold orboa. apply firstn_all2. now rewrite ab_orbo_length. Qed.

(** [nao] is the number of rows of [mo_coeff], so the second slices
    [mo[nao:]] and [orbo[nao:]] have no row. *)
Lemma mob_empty : mob inp = [].
Proof. unfold mob. apply skipn_all2. now rewrite ab_mo_length. Qed.

Lemma orbob_empty : orbob inp = [].
Proof. unfold orbob. apply skipn_all2. now rewrite ab_orbo_length. Qed.

Lemma entry_orboa (p i : nat) :
  (i < ab_nocc inp)%nat -> entry (orboa inp) p i = entry (moa inp) p i.
Proof. intros Hi. rewrite orboa_all, moa_all. symmetry. now apply entry_mo_occ. Qed.

Lemma entry_orbob (p i : nat) : entry (orbob inp) p i = entry (mob inp) p i.
Proof. now rewrite orbob_empty, mob_empty. Qed.

(** *** The two-electron part *)

Lemma eri_mo_aa_occ (i j k l : nat) :
  (i < ab_nocc inp)%nat ->
  eri_mo_aa inp i j k l
  = ao2mo_general inp (moa inp) (moa inp) (moa inp) (moa inp) i j k l
    + ao2mo_general inp (mob inp) (mob inp) (mob inp) (mob inp) i j k l.
Proof.
  intros Hi. unfold eri_mo_aa. f_equal; apply ao2mo_ext; intros p;
    try reflexivity; [now apply entry_orboa | apply entry_orbob].
Qed.

Lemma eri_mo_occ (i j k l : nat) :
  (i < ab_nocc inp)%nat ->
  eri_mo inp i j k l
  = ao2mo_general inp (moa inp) (moa inp) (mob inp) (mob inp) i j k l
    + ao2mo_general inp (mob inp) (mob inp) (moa inp) (moa inp) i j k l
    + (ao2mo_general inp (moa inp) (moa inp) (moa inp) (moa inp) i j k l
       + ao2mo_general inp (mob inp) (mob inp) (mob inp) (mob inp) i j k l).
Proof.
  intros Hi. unfold eri_mo. rewrite eri_mo_aa_occ by exact Hi.
  f_equal. f_equal; apply ao2mo_ext; intros p;
    try reflexivity; [now apply entry_orboa | apply entry_orbob].
Qed.

(** [(ia|bj) = (jb|ai)] *)
Lemma eri_mo_iabj (i a b j : nat) :
  (i < ab_nocc inp)%nat -> (j < ab_nocc inp)%nat ->
  eri_mo inp i a b j = eri_mo inp j b a i.
Proof.
  intros Hi Hj. rewrite !eri_mo_occ by assumption.
  rewrite (ao2mo_pairs (moa inp) (moa inp) (mob inp) (mob inp) j b a i).
  rewrite (ao2mo_swap12 (mob inp) (mob inp) (moa inp) (moa inp) a i j b).
  rewrite (ao2mo_swap34 (mob inp) (mob inp) (moa inp) (moa inp) i a j b).
  rewrite (ao2mo_pairs (mob inp) (mob inp) (moa inp) (moa inp) j b a i).
  rewrite (ao2mo_swap12 (moa inp) (moa inp) (mob inp) (mob inp) a i j b).
  rewrite (ao2mo_swap34 (moa inp) (moa inp) (mob inp) (mob inp) i a j b).
  rewrite (ao2mo_pairs (moa inp) (moa inp) (moa inp) (moa inp) j b a i).
  rewrite (ao2mo_swap12 (moa inp) (moa inp) (moa inp) (moa inp) a i j b).
  rewrite (ao2mo_swap34 (moa inp) (moa inp) (moa inp) (moa inp) i a j b).
  rewrite (ao2mo_pairs (mob inp) (mob inp) (mob inp) (mob inp) j b a i).
  rewrite (ao2mo_swap12 (mob inp) (mob inp) (mob inp) (mob inp) a i j b).
  rewrite (ao2mo_swap34 (mob inp) (mob inp) (mob inp) (mob inp) i a j b).
  ring.
Qed.

(** [(ia|jb) = (jb|ia)] *)
Lemma eri_mo_iajb (i a j b : nat) :
  (i < ab_nocc inp)%nat -> (j < ab_nocc inp)%nat ->
  eri_mo inp i a j b = eri_mo inp j b i a.
Proof.
  intros Hi Hj. rewrite !eri_mo_occ by assumption.
  rewrite (ao2mo_pairs (moa inp) (moa inp) (mob inp) (mob inp) j b i a).
  rewrite (ao2mo_pairs (mob inp) (mob inp) (moa inp) (moa inp) j b i a).
  rewrite (ao2mo_pairs (moa inp) (moa inp) (moa inp) (moa inp) j b i a).
  rewrite (ao2mo_pairs (mob inp) (mob inp) (mob inp) (mob inp) j b i a).
  ring.
Qed.

(** [(ij|ba) = (ji|ab)] *)
Lemma eri_mo_aa_ijba (i j b a : nat) :
  (i < ab_nocc inp)%nat -> (j < ab_nocc inp)%nat ->
  eri_mo_aa inp i j b a = eri_mo_aa inp j i a b.
Proof.
  intros Hi Hj. rewrite !eri_mo_aa_occ by assumption.
  rewrite (ao2mo_swap12 (moa inp) (moa inp) (moa inp) (moa inp) j i a b).
  rewrite (ao2mo_swap34 (moa inp) (moa inp) (moa inp) (moa inp) i j a b).
  rewrite (ao2mo_swap12 (mob inp) (mob inp) (mob inp) (mob inp) j i a b).
  rewrite (ao2mo_swap34 (mob inp) (mob inp) (mob inp) (mob inp) i j a b).
  reflexivity.
Qed.

(** [(ja|ib) = (ib|ja)] *)
Lemma eri_mo_aa_jaib (j a i b : nat) :
  (i < ab_nocc inp)%nat -> (j < ab_nocc inp)%nat ->
  eri_mo_aa inp j a i b = eri_mo_aa inp i b j a.
Proof.
  intros Hi Hj. rewrite !eri_mo_aa_occ by assumption.
  rewrite (ao2mo_pairs (moa inp) (moa inp) (moa inp) (moa inp) i b j a).
  rewrite (ao2mo_pairs (mob inp) (mob inp) (mob inp) (mob inp) i b j a).
  reflexivity.
Qed.

Lemma a_init_symmetric : exchange_symmetric inp (a_init inp).
Proof.
  intros i a j b Hi Ha Hj Hb. unfold a_init.
  destruct (Nat.eqb_spec (i * ab_nvir inp + a) (j * ab_nvir inp + b))
    as [Heq|Hne].
  - assert (Hij : i = j).
    { destruct (Nat.lt_trichotomy i j) as [H|[H|H]];
        [exfalso; nia | exact H | exfalso; nia]. }
    subst j. assert (a = b) by lia. subst b.
    now rewrite Nat.eqb_refl.
  - destruct (Nat.eqb_spec (j * ab_nvir inp + b) (i * ab_nvir inp + a));
      [congruence | reflexivity].
Qed.

Lemma add_hf_symmetric (ab : tensor4 * tensor4) (hyb : K) :
  exchange_symmetric inp (fst ab) -> exchange_symmetric inp (snd ab) ->
  exchange_symmetric inp (fst (add_hf_ inp ab hyb))
  /\ exchange_symmetric inp (snd (add_hf_ inp ab hyb)).
Proof.
  intros Ha Hb. unfold add_hf_. cbn [fst snd]. split.
  - intros i a j b Hi Hav Hj Hbv.
    rewrite (Ha i a j b) by assumption.
    rewrite (@eri_mo_iabj i (ab_nocc inp + a) (ab_nocc inp + b) j Hi Hj).
    rewrite (@eri_mo_aa_ijba i j (ab_nocc inp + b) (ab_nocc inp + a) Hi Hj).
    reflexivity.
  - intros i a j b Hi Hav Hj Hbv.
    rewrite (Hb i a j b) by assumption.
    rewrite (@eri_mo_iajb i (ab_nocc inp + a) j (ab_nocc inp + b) Hi Hj).
    rewrite (@eri_mo_aa_jaib j (ab_nocc inp + a) i (ab_nocc inp + b) Hi Hj).
    reflexivity.
Qed.

(** *** The blocks of the grid

    [get_mo_value] contracts the columns of [ao] with the rows of [mob],
    and [mob] has no row: a block is accepted only when [ao] has no column,
    and then every orbital value on the grid is an empty sum. *)

Lemma get_mo_value_ok_nbas (blk : grid_block K) :
  get_mo_value_ok inp blk = true -> blk_nbas blk = 0%nat.
Proof.
  unfold get_mo_value_ok. rewrite mob_empty. intros H.
  apply andb_prop in H. destruct H as [_ H]. now apply Nat.eqb_eq in H.
Qed.

Lemma mo_a_zero (blk : grid_block K) (x r i : nat) :
  blk_nbas blk = 0%nat -> mo_a inp blk x r i = k0.
Proof. intros H. unfold mo_a. now rewrite H. Qed.

Lemma mo_b_zero (blk : grid_block K) (x r i : nat) :
  blk_nbas blk = 0%nat -> mo_b inp blk x r i = k0.
Proof. intros H. unfold mo_b. now rewrite H. Qed.

Lemma contract_r_zero (blk : grid_block K)
  (w rho : nat -> nat -> nat -> K) (i a j b : nat) :
  (forall r, rho r j b = k0) -> contract_r blk w rho i a j b = k0.
Proof.
  intros H. unfold contract_r. apply ksum_zero; intros r _.
  rewrite H. ring.
Qed.

Lemma contract_xr_zero (blk : grid_block K)
  (w rho : nat -> nat -> nat -> nat -> K) (i a j b : nat) :
  (forall x r, rho x r j b = k0) -> contract_xr blk w rho i a j b = k0.
Proof.
  intros H. unfold contract_xr. apply ksum_zero; intros x _.
  apply ksum_zero; intros r _. rewrite H. ring.
Qed.

(** Where the virtual orbitals vanish on the grid, the pair densities
    vanish and a pass of either loop adds nothing. *)
Section VanishingOrbitals.
Variable blk : grid_block K.
Variables mo_oa mo_va mo_ob mo_vb : nat -> nat -> nat -> K.
Hypothesis va_zero : forall x r a, mo_va x r a = k0.
Hypothesis vb_zero : forall x r a, mo_vb x r a = k0.

Lemma rho_ov_a_zero (x r i a : nat) : rho_ov_a mo_oa mo_va x r i a = k0.
Proof. unfold rho_ov_a. destruct x; rewrite !va_zero; ring. Qed.

Lemma rho_ov_b_zero (x r i a : nat) : rho_ov_b mo_ob mo_vb x r i a = k0.
Proof. unfold rho_ov_b. destruct x; rewrite !vb_zero; ring. Qed.

Lemma lda_update_adds_nothing (ab : tensor4 * tensor4) (i a j b : nat) :
  fst (lda_update inp blk mo_oa mo_va mo_ob mo_vb ab) i a j b = fst ab i a j b
  /\ snd (lda_update inp blk mo_oa mo_va mo_ob mo_vb ab) i a j b
     = snd ab i a j b.
Proof.
  unfold lda_update. cbn [fst snd].
  assert (Ha : forall r, lda_rho_ov_a mo_oa mo_va r j b = k0).
  { intros r. unfold lda_rho_ov_a. rewrite va_zero. ring. }
  assert (Hb : forall r, lda_rho_ov_b mo_ob mo_vb r j b = k0).
  { intros r. unfold lda_rho_ov_b. rewrite vb_zero. ring. }
  unfold lda_rho_vo_a, lda_rho_vo_b.
  rewrite !contract_r_zero by assumption. split; ring.
Qed.

Lemma gga_update_adds_nothing (ab : tensor4 * tensor4) (i a j b : nat) :
  fst (gga_update blk mo_oa mo_va mo_ob mo_vb ab) i a j b = fst ab i a j b
  /\ snd (gga_update blk mo_oa mo_va mo_ob mo_vb ab) i a j b = snd ab i a j b.
Proof.
  unfold gga_update. cbn [fst snd]. unfold rho_vo_b, rho_vo_a.
  rewrite !contract_xr_zero
    by (intros; first [apply rho_ov_a_zero | apply rho_ov_b_zero]).
  split; ring.
Qed.

End VanishingOrbitals.

Lemma lda_block_adds_nothing (blk : grid_block K)
  (ab ab' : tensor4 * tensor4) :
  lda_block inp blk ab = Ok ab' ->
  forall i a j b,
    fst ab' i a j b = fst ab i a j b /\ snd ab' i a j b = snd ab i a j b.
Proof.
  unfold lda_block. destruct (get_mo_value_ok inp blk) eqn:Hok;
    [|discriminate].
  apply get_mo_value_ok_nbas in Hok.
  destruct (lda_broadcast_ok inp blk); [|discriminate].
  cbn [andb]. unfold get_mo_value. intros [= <-] i a j b.
  apply lda_update_adds_nothing; intros; now apply mo_a_zero || now apply mo_b_zero.
Qed.

Lemma gga_block_adds_nothing (blk : grid_block K)
  (ab ab' : tensor4 * tensor4) :
  gga_block inp blk ab = Ok ab' ->
  forall i a j b,
    fst ab' i a j b = fst ab i a j b /\ snd ab' i a j b = snd ab i a j b.
Proof.
  unfold gga_block. destruct (get_mo_value_ok inp blk) eqn:Hok;
    [|discriminate].
  apply get_mo_value_ok_nbas in Hok.
  unfold get_mo_value. intros [= <-] i a j b.
  apply gga_update_adds_nothing; intros; now apply mo_a_zero || now apply mo_b_zero.
Qed.

Lemma over_blocks_adds_nothing
  (step : grid_block K -> tensor4 * tensor4 -> outcome (tensor4 * tensor4))
  (blocks : list (grid_block K)) :
  (forall blk ab ab', step blk ab = Ok ab' ->
     forall i a j b,
       fst ab' i a j b = fst ab i a j b /\ snd ab' i a j b = snd ab i a j b) ->
  forall ab ab', over_blocks step blocks ab = Ok ab' ->
  forall i a j b,
    fst ab' i a j b = fst ab i a j b /\ snd ab' i a j b = snd ab i a j b.
Proof.
  intros Hstep. induction blocks as [|blk rest IH]; intros ab ab' H i a j b.
  - simpl in H. inversion H. now split.
  - simpl in H. destruct (step blk ab) as [ab1| | |] eqn:H1;
      try discriminate.
    destruct (IH _ _ H i a j b) as [Ea Eb].
    destruct (Hstep _ _ _ H1 i a j b) as [Ea1 Eb1].
    split; congruence.
Qed.

(** A Kohn-Sham run that returns has added nothing on the grid: the blocks
    are those of [add_hf_] with the hybrid coefficient. *)
Lemma get_ab_ks_is_hf_part (ks : ks_data K) (A B : tensor4) :
  ab_ks inp = Some ks -> get_ab inp = Ok (A, B) ->
  forall i a j b,
    A i a j b = fst (add_hf_ inp (a_init inp, b_init) (ks_hyb ks)) i a j b
    /\ B i a j b = snd (add_hf_ inp (a_init inp, b_init) (ks_hyb ks)) i a j b.
Proof.
  intros Hks. unfold get_ab. rewrite Hks.
  destruct (ks_deriv2 ks); [|discriminate].
  destruct (ks_nlc ks); [discriminate|].
  destruct (ks_collinear ks); [|discriminate]. cbn [negb].
  destruct (ks_xctype ks); try discriminate; intros H i a j b.
  - apply (over_blocks_adds_nothing (lda_block inp) (ks_blocks ks)
             lda_block_adds_nothing _ H i a j b).
  - apply (over_blocks_adds_nothing (gga_block inp) (ks_blocks ks)
             gga_block_adds_nothing _ H i a j b).
  - inversion H. now split.
Qed.

(** Without a functional, [get_ab] always returns. *)
Lemma get_ab_hf_returns :
  ab_ks inp = None ->
  get_ab inp = Ok (add_hf_ inp (a_init inp, b_init) k1).
Proof. intros H. unfold get_ab. now rewrite H. Qed.

(** C4.  For real atomic-orbital integrals with their permutational
    symmetry: whenever [get_ab] returns [(A, B)], for a Hartree-Fock
    reference and for the LDA, GGA and HF families of a Kohn-Sham
    reference, [A[i,a,j,b] = A[j,b,i,a]] and [B[i,a,j,b] = B[j,b,i,a]] for
    all occupied [i], [j] and virtual [a], [b]; the tensors are real, so
    [A] equals its conjugate. *)
Theorem get_ab_exchange_symmetric (A B : tensor4) :
  get_ab inp = Ok (A, B) ->
  exchange_symmetric inp A /\ exchange_symmetric inp B.
Proof.
  intros H.
  assert (Hinit : exchange_symmetric inp (fst (a_init inp, @b_init K SK))
                  /\ exchange_symmetric inp (snd (a_init inp, @b_init K SK))).
  { split; [apply a_init_symmetric | intros i a j b _ _ _ _; reflexivity]. }
  destruct Hinit as [Ha0 Hb0].
  destruct (ab_ks inp) as [ks|] eqn:Hks.
  - destruct (add_hf_symmetric (a_init inp, b_init) (ks_hyb ks) Ha0 Hb0)
      as [Ha Hb].
    pose proof (get_ab_ks_is_hf_part Hks H) as Heq.
    split; intros i a j b Hi Hav Hj Hbv.
    + rewrite (proj1 (Heq i a j b)), (proj1 (Heq j b i a)). now apply Ha.
    + rewrite (proj2 (Heq i a j b)), (proj2 (Heq j b i a)). now apply Hb.
  - rewrite (get_ab_hf_returns Hks) in H. inversion H.
    apply (add_hf_symmetric (a_init inp, b_init) k1 Ha0 Hb0).
Qed.

End Assembler.

End GetABFacts.

(** ** The operators on concrete reference states *)

Lemma Z_ring : ring_theory (k0 : Z) k1 kadd kmul ksub kopp (@eq Z).
Proof. exact InitialRing.Zth. Qed.

(** For [toy_mf] the diagonal is the orbital gap [2 - (-1)] and its
    negation. *)
Lemma tdhf_hdiag_layout_witness :
  snd (gen_tdhf_operation toy_mf None None) = [3; -3]%Z
  /\ nth 1 (snd (gen_tdhf_operation toy_mf None None)) 0%Z
     = (- nth 0 (snd (gen_tdhf_operation toy_mf None None)) 0)%Z.
Proof.
  split; [reflexivity|].
  exact (proj2 (proj2 (tdhf_hdiag_layout toy_mf None None)) 0
           (Nat.lt_0_succ 0)).
Defined.

Lemma tda_vind_fock_commutator_witness :
  fst (gen_tda_operation toy_mf None None) [[(1, 0)%Z]]
  = Some [[(3, 0)%Z]].
Proof.
  rewrite (tda_vind_fock_commutator Z_ring toy_mf None [[(1, 0)%Z]]).
  - reflexivity.
  - intros d x p q. apply get3_zero_response.
  - reflexivity.
  - reflexivity.
Defined.

(** In [sym_mf] with target irrep 0 the pair [(0,1)] is forbidden: a trial
    vector supported on it is mapped to zero by both operators. *)
Lemma vind_forbidden_only_zero_witness :
  fst (gen_tda_operation sym_mf None (Some 0%Z)) [[(0, 0); (7, 0)]%Z]
  = Some [[(0, 0); (0, 0)]%Z]
  /\ fst (gen_tdhf_operation sym_mf None (Some 0%Z))
       [[(0, 0); (7, 0); (0, 0); (5, 0)]%Z]
     = Some [[(0, 0); (0, 0); (0, 0); (0, 0)]%Z].
Proof.
  apply (vind_forbidden_only_zero Z_ring sym_mf None (Some 0%Z)
           [[(0, 0); (7, 0)]%Z] [[(0, 0); (7, 0); (0, 0); (5, 0)]%Z]).
  - reflexivity.
  - reflexivity.
  - reflexivity.
  - reflexivity.
  - intros x i a Hx Hi Ha Hf.
    change (nocc sym_mf) with 1 in Hi. change (nvir sym_mf) with 2 in Ha.
    simpl in Hx.
    assert (x = 0) by lia. assert (i = 0) by lia.
    assert (Ha' : a = 0 \/ a = 1) by lia. subst x i.
    destruct Ha' as [-> | ->]; [reflexivity | cbv in Hf; discriminate].
  - intros x i a Hx Hi Ha Hf.
    change (nocc sym_mf) with 1 in Hi. change (nvir sym_mf) with 2 in Ha.
    simpl in Hx.
    assert (x = 0) by lia. assert (i = 0) by lia.
    assert (Ha' : a = 0 \/ a = 1) by lia. subst x i.
    destruct Ha' as [-> | ->];
      [split; reflexivity | cbv in Hf; discriminate].
Defined.

(** The claim that the TDHF builder projects an explicit Fock matrix fails on
    [toy_mf] with [toy_fock]: the diagonal it returns is [[3; -3]], from the
    orbital energies, and not [[8; -8]], from the blocks of the projected
    Fock matrix. *)
Lemma tdhf_ignores_fock_ao :
  let foo := tda_foo toy_mf (Some toy_fock) in
  let fvv := tda_fvv toy_mf (Some toy_fock) in
  let h := concat (hdiag_block toy_mf foo fvv None) in
  snd (gen_tdhf_operation toy_mf (Some toy_fock) None)
  <> map re (h ++ map copp h).
Proof. cbv. discriminate. Qed.

Lemma fock_ao_projection_tda_only_witness :
  nth 0 (snd (gen_tda_operation toy_mf (Some toy_fock) None)) 0%Z = 8%Z
  /\ nth 0 (snd (gen_tdhf_operation toy_mf (Some toy_fock) None)) 0%Z = 3%Z.
Proof.
  destruct (fock_ao_projection_tda_only toy_mf toy_fock None)
    as (_ & _ & Htda & _ & Htdhf).
  split.
  - exact (Htda 0 0 (Nat.lt_0_succ 0) (Nat.lt_0_succ 0)).
  - exact (Htdhf 0 0 (Nat.lt_0_succ 0) (Nat.lt_0_succ 0) eq_refl).
Defined.

(** ** The memory model and the initial guess on concrete inputs *)

(** In [sym_mf] with target irrep 0, the caller's array at address 0 is
    intact after the call; the masked copy sits at address 1 and the result
    at address 2. *)
Lemma vind_leaves_input_unchanged_witness :
  tda_vind_mem sym_mf None (Some 0%Z) 0 [[[(1, 0); (7, 0)]%Z]]
  = Some (2, [[[(1, 0); (7, 0)]]; [[(1, 0); (0, 0)]]; [[(3, 0); (0, 0)]]]%Z)
  /\ (exists r s',
        tda_vind_mem sym_mf None (Some 0%Z) 0 [[[(1, 0); (7, 0)]%Z]]
        = Some (r, s')
        /\ load s' 0 = Some [[(1, 0); (7, 0)]%Z])
  /\ (exists r s',
        tdhf_vind_mem sym_mf (Some 0%Z) 0
          [[[(1, 0); (7, 0); (2, 0); (5, 0)]%Z]]
        = Some (r, s')
        /\ load s' 0 = Some [[(1, 0); (7, 0); (2, 0); (5, 0)]%Z]).
Proof.
  split; [reflexivity|]. split.
  - destruct (proj1 (vind_leaves_input_unchanged sym_mf None (Some 0%Z)
                       [[[(1, 0); (7, 0)]%Z]] 0 eq_refl) eq_refl)
      as (r & s' & Hrun & Hin & _).
    exists r, s'. split; assumption.
  - destruct (proj2 (vind_leaves_input_unchanged sym_mf None (Some 0%Z)
                       [[[(1, 0); (7, 0); (2, 0); (5, 0)]%Z]] 0 eq_refl)
                eq_refl)
      as (r & s' & Hrun & Hin & _).
    exists r, s'. split; assumption.
Defined.

(** The store tells a copy from an assignment in place: the same masked
    assignment applied to the caller's array itself would change it. *)
Example masking_in_place_changes_the_array :
  let s : store := [[[(1, 0); (7, 0)]%Z]] in
  load (modify s 0 (zero_forbidden sym_mf (Some 0%Z))) 0
  = Some [[(1, 0); (0, 0)]%Z]
  /\ load s 0 = Some [[(1, 0); (7, 0)]%Z].
Proof. split; reflexivity. Qed.

(** The toy state of the spec, occupations [1, 0]: no guess, an exception. *)
Lemma init_guess_ghf_occupations_rejected_witness :
  init_guess toy_mf_Q 1 None = ValueError.
Proof.
  apply (init_guess_ghf_occupations_rejected toy_mf_Q 1 None).
  simpl. constructor; [now right|]. constructor; [now left|]. constructor.
Defined.

(** Two equal lowest gaps and [nstates = 1]: two guess vectors. *)
Lemma init_guess_includes_degenerate_witness :
  init_guess degenerate_mf 1 None = Ok [[1; 0; 0]; [0; 1; 0]]%Q
  /\ exists sorted kth idx,
       Permutation sorted [1; 1; 2]%Q
       /\ nth_error sorted 0 = Some kth
       /\ init_guess degenerate_mf 1 None = Ok (map (unit_vector 3) idx)
       /\ length idx = 2.
Proof.
  split; [reflexivity|].
  destruct (@init_guess_includes_degenerate degenerate_mf 1%Z None eq_refl)
    as (sorted & kth & idx & Hperm & _ & Hkth & Hrun & _ & _ & _ & Htwo).
  - simpl. lia.
  - exists sorted, kth, idx. repeat split; try assumption.
    destruct (Htwo eq_refl 0 1) as (_ & _ & _ & Hex).
    + lia.
    + simpl. lia.
    + reflexivity.
    + intros [|[|[|j]]] Hj; simpl in *; unfold Qle; simpl; lia.
    + apply Hex. intros [|[|[|j]]] Hj H0 H1; simpl in *; try lia.
      reflexivity.
Defined.

(** ** [norm_xy] on concrete roots *)

Section NormExamples.
Import PrimFloat.

(** X = [[0]], Y = [[1]] in doubles: the indefinite squared norm is [-1],
    and [norm_xy] returns blocks of NaN; no exception is raised. *)
Lemma norm_xy_negative_norm_returns_nan :
  let z : list (amp (F := float)) := [(0, 0); (1, 0)]%float in
  let x := block_of 1 1 0 z in
  let y := block_of 1 1 1 z in
  fsub (fmul (lib_norm x) (lib_norm x)) (fmul (lib_norm y) (lib_norm y))
  = (-1)%float
  /\ norm_xy 1 1 z = Ok ([[(nan, nan)]], [[(nan, nan)]]).
Proof. vm_compute. split; reflexivity. Qed.

(** X = Y = [[1]] in doubles: the indefinite squared norm is zero, the
    scale factor is infinite. *)
Lemma norm_xy_never_rejects_witness :
  norm_xy 1 1 ([(1, 0); (1, 0)]%float : list (amp (F := float)))
  = Ok ([[(infinity, nan)]], [[(infinity, nan)]]).
Proof.
  rewrite (norm_xy_never_rejects 1 1
             ([(1, 0); (1, 0)]%float : list (amp (F := float)))).
  - vm_compute. reflexivity.
  - reflexivity.
Defined.

(** In doubles the normalisation holds up to rounding only: X = [[3]],
    Y = [[1]] is scaled to a pair with ‖X'‖²−‖Y'‖² one unit in the last
    place above 1. *)
Example norm_xy_double_rounding :
  match norm_xy 1 1 ([(3, 0); (1, 0)]%float : list (amp (F := float))) with
  | Ok (x', y') =>
      fsub (fmul (lib_norm x') (lib_norm x'))
           (fmul (lib_norm y') (lib_norm y'))
  | _ => nan
  end = 0x1.0000000000001p+0%float.
Proof. vm_compute. reflexivity. Qed.

End NormExamples.

Lemma norm_xy_normalised_witness :
  exists x' y',
    norm_xy 1 1 [(1, 0); (0, 0)]%R = Ok (x', y')
    /\ indefinite_norm2 x' y' = 1%R.
Proof.
  destruct (norm_xy_normalised 1 1 [(1, 0); (0, 0)]%R) as (x' & y' & H1 & H2 & _).
  - reflexivity.
  - unfold indefinite_norm2, frobenius2. simpl. lra.
  - exists x', y'. split; assumption.
Defined.

(** ** [get_ab] on concrete references *)

Lemma toy_eri_symmetric :
  (forall p q r s, ab_eri toy_ab p q r s = ab_eri toy_ab q p r s)
  /\ (forall p q r s, ab_eri toy_ab p q r s = ab_eri toy_ab p q s r)
  /\ (forall p q r s, ab_eri toy_ab p q r s = ab_eri toy_ab r s p q).
Proof. repeat split; intros p q r s; simpl; f_equal; ring. Qed.

(** The Hartree-Fock blocks of [toy_ab]: off-diagonal entries that are
    exchanged by the symmetry. *)
Lemma get_ab_exchange_symmetric_witness :
  exists A B,
    get_ab toy_ab = Ok (A, B)
    /\ A 0 0 1 0 = (-1)%Z /\ A 1 0 0 0 = (-1)%Z
    /\ B 0 1 1 0 = 1%Z /\ B 1 0 0 1 = 1%Z
    /\ exchange_symmetric toy_ab A /\ exchange_symmetric toy_ab B.
Proof.
  eexists. eexists. split; [reflexivity|].
  repeat (split; [reflexivity|]).
  destruct toy_eri_symmetric as (H12 & H34 & Hp).
  exact (get_ab_exchange_symmetric Z_ring toy_ab H12 H34 Hp eq_refl).
Defined.

(** A Kohn-Sham reference returns for the LDA, GGA and HF families, here
    on a grid without points, and raises for meta-GGA and for non-local
    correlation. *)
Example get_ab_families :
  (forall xc, In xc [LDA; GGA; HF] ->
     exists A B, get_ab (toy_ab_ks xc) = Ok (A, B) /\ A 0 0 0 1 = A 0 1 0 0)
  /\ get_ab (toy_ab_ks MGGA) = NotImplementedError
  /\ get_ab (toy_ab_ks NLC) = NotImplementedError.
Proof.
  split; [|split; reflexivity].
  intros xc [<-|[<-|[<-|[]]]]; eexists; eexists; split;
    try reflexivity; vm_compute; reflexivity.
Qed.

(** The pass of the GGA loop on orbital values that differ in the two spin
    slices: line 222 contracts the bbbb term with the pair density of the
    first slice, and the update of [A] is not symmetric.  [get_ab] itself
    never calls the pass on such values, its second slice being empty
    (lemma [mob_empty]). *)
Example gga_update_second_slice :
  let A := fst (gga_update one_point pt_oa pt_va pt_ob pt_vb
                  (fun _ _ _ _ => 0%Z, fun _ _ _ _ => 0%Z)) in
  A 0 0 0 1 = 1%Z /\ A 0 1 0 0 = 0%Z.
Proof. split; reflexivity. Qed.

(** * Further properties of the operators *)

Section OperatorShape.
Context {K : Type} {SK : Scalar K}.
Variable mf : SCF K.
Local Abbreviation C := (cplx K).

Lemma mask_batch_length (wfnsym : option Z) (t : list (list (list C))) :
  length (mask_batch mf wfnsym t) = length t.
Proof. apply tab_length. Qed.

Lemma masked_length (wfnsym : option Z) (t : list (list (list C))) :
  length (if sym_active mf wfnsym then mask_batch mf wfnsym t else t)
  = length t.
Proof. destruct (sym_active mf wfnsym); [apply mask_batch_length | reflexivity]. Qed.

(** The rows of a raveled batch of [nocc x nvir] blocks. *)
Lemma ravel_rows_block (n : nat) (f : nat -> nat -> nat -> C) (x : nat) :
  x < n ->
  nth x (ravel_rows (tab n (fun x => tab (nocc mf) (fun i =>
           tab (nvir mf) (fun a => f x i a))))) []
  = concat (tab (nocc mf) (fun i => tab (nvir mf) (fun a => f x i a))).
Proof. intros Hx. unfold ravel_rows. now rewrite map_tab, (nth_tab _ _ Hx). Qed.

Lemma ravel_rows_length (t : list (list (list C))) :
  length (ravel_rows t) = length t.
Proof. apply length_map. Qed.

(** After its optional projection, an image batch is a table of blocks. *)
Lemma masked_table (wfnsym : option Z) (n : nat)
  (f : nat -> nat -> nat -> C) :
  exists g,
    (if sym_active mf wfnsym
     then mask_batch mf wfnsym
            (tab n (fun x => tab (nocc mf) (fun i =>
               tab (nvir mf) (fun a => f x i a))))
     else tab n (fun x => tab (nocc mf) (fun i =>
            tab (nvir mf) (fun a => f x i a))))
    = tab n (fun x => tab (nocc mf) (fun i => tab (nvir mf) (fun a => g x i a)))
    /\ (forall x i a, x < n -> i < nocc mf -> a < nvir mf ->
          g x i a = if forbidden mf wfnsym i a then c0 else f x i a).
Proof.
  destruct (sym_active mf wfnsym) eqn:Hact.
  - exists (fun x i a => if forbidden mf wfnsym i a then c0 else f x i a).
    split; [|reflexivity].
    unfold mask_batch. rewrite tab_length.
    apply tab_ext; intros x Hx. apply tab_ext; intros i Hi.
    apply tab_ext; intros a Ha.
    unfold get3, get2, get1.
    now rewrite (nth_tab _ _ Hx), (nth_tab _ _ Hi), (nth_tab _ _ Ha).
  - exists f. split; [reflexivity|]. intros x i a _ _ _.
    unfold sym_active in Hact. unfold forbidden.
    destruct wfnsym as [w|]; [|reflexivity]. now rewrite Hact.
Qed.

Lemma block_row_length (f : nat -> nat -> C) :
  length (concat (tab (nocc mf) (fun i => tab (nvir mf) (fun a => f i a))))
  = nocc mf * nvir mf.
Proof. apply concat_tab_length. intros; apply tab_length. Qed.

Lemma block_row_nth (f : nat -> nat -> C) (i a : nat) :
  i < nocc mf -> a < nvir mf ->
  nth (i * nvir mf + a)
    (concat (tab (nocc mf) (fun i => tab (nvir mf) (fun a => f i a)))) c0
  = f i a.
Proof.
  intros Hi Ha.
  rewrite nth_concat_tab by (try assumption; intros; apply tab_length).
  now rewrite (nth_tab _ _ Ha).
Qed.

(** The image of the TDA core: its shape, and its entries. *)
Lemma tda_core_shape (foo fvv : list (list C)) (wfnsym : option Z)
  (zs : list (list (list C))) :
  length (tda_core mf foo fvv wfnsym zs) = length zs
  /\ forall x, x < length zs ->
       length (nth x (tda_core mf foo fvv wfnsym zs) []) = nocc mf * nvir mf.
Proof.
  unfold tda_core.
  match goal with |- context [mask_batch mf wfnsym (tab _ ?F)] =>
    match F with (fun x => tab _ (fun o => tab _ (fun v => @?f x o v))) =>
      destruct (masked_table wfnsym (length zs) f) as (g & Hg & _)
    end
  end.
  cbv beta in Hg. rewrite Hg.
  split; [now rewrite ravel_rows_length, tab_length|].
  intros x Hx. rewrite (ravel_rows_block _ Hx). apply block_row_length.
Qed.

Lemma tda_core_entry (foo fvv : list (list C)) (wfnsym : option Z)
  (zs : list (list (list C))) (x i a : nat) :
  x < length zs -> i < nocc mf -> a < nvir mf ->
  get2 (tda_core mf foo fvv wfnsym zs) x (i * nvir mf + a)
  = if forbidden mf wfnsym i a then c0
    else (proj_ov mf (gen_response mf
            (tab (length zs) (fun x => tab (nao mf) (fun p =>
               tab (nao mf) (fun q => dm_ov mf zs x p q))))) x i a
          + z_fvv mf zs fvv x i a - foo_z mf zs foo x i a)%C.
Proof.
  intros Hx Hi Ha. unfold tda_core.
  match goal with |- context [mask_batch mf wfnsym (tab _ ?F)] =>
    match F with (fun x => tab _ (fun o => tab _ (fun v => @?f x o v))) =>
      destruct (masked_table wfnsym (length zs) f) as (g & Hg & Hgv)
    end
  end.
  cbv beta in Hg, Hgv. rewrite Hg.
  unfold get2, get1. rewrite (ravel_rows_block _ Hx).
  rewrite block_row_nth by assumption. now apply Hgv.
Qed.

(** The image of the TDHF core: each row is the X half followed by the
    negated Y half. *)
Lemma tdhf_core_entry (wfnsym : option Z) (xs ys : list (list (list C))) :
  let v1ao := gen_response mf
                (tab (length xs) (fun x => tab (nao mf) (fun p =>
                   tab (nao mf) (fun q =>
                     (dm_ov mf xs x p q + dm_vo mf ys x p q)%C)))) in
  length (tdhf_core mf wfnsym xs ys) = length xs
  /\ forall x, x < length xs ->
       length (nth x (tdhf_core mf wfnsym xs ys) [])
       = 2 * (nocc mf * nvir mf)
       /\ forall i a, i < nocc mf -> a < nvir mf ->
            get2 (tdhf_core mf wfnsym xs ys) x (i * nvir mf + a)
            = (if forbidden mf wfnsym i a then c0
               else (proj_ov mf v1ao x i a + z_fvv mf xs (tdhf_fvv mf) x i a
                     - foo_z mf xs (tdhf_foo mf) x i a)%C)
            /\ get2 (tdhf_core mf wfnsym xs ys) x
                 (nocc mf * nvir mf + (i * nvir mf + a))
               = copp (if forbidden mf wfnsym i a then c0
                       else (proj_vo mf v1ao x i a
                             + z_fvv mf ys (tdhf_fvv mf) x i a
                             - foo_z mf ys (tdhf_foo mf) x i a)%C).
Proof.
  intros v1ao. unfold tdhf_core. fold v1ao.
  destruct (masked_table wfnsym (length xs)
              (fun x o v => (proj_ov mf v1ao x o v
                             + z_fvv mf xs (tdhf_fvv mf) x o v
                             - foo_z mf xs (tdhf_foo mf) x o v)%C))
    as (g1 & Hg1 & Hv1).
  destruct (masked_table wfnsym (length xs)
              (fun x o v => (proj_vo mf v1ao x o v
                             + z_fvv mf ys (tdhf_fvv mf) x o v
                             - foo_z mf ys (tdhf_foo mf) x o v)%C))
    as (g2 & Hg2 & Hv2).
  cbv beta in Hg1, Hg2, Hv1, Hv2. rewrite Hg1, Hg2.
  split; [apply tab_length|]. intros x Hx.
  rewrite (nth_tab _ _ Hx), !(ravel_rows_block _ Hx).
  split.
  - rewrite length_app, length_map, !block_row_length. lia.
  - intros i a Hi Ha. unfold get2, get1.
    rewrite (nth_tab _ _ Hx), !(ravel_rows_block _ Hx). split.
    + rewrite app_nth1 by (rewrite block_row_length; nia).
      rewrite block_row_nth by assumption. now apply Hv1.
    + rewrite app_nth2 by (rewrite block_row_length; lia).
      rewrite block_row_length.
      replace (nocc mf * nvir mf + (i * nvir mf + a) - nocc mf * nvir mf)
        with (i * nvir mf + a) by lia.
      rewrite (nth_indep _ c0 (copp c0))
        by (rewrite length_map, block_row_length; nia).
      rewrite map_nth, block_row_nth by assumption.
      now rewrite Hv2.
Qed.

(** When [vind] returns. *)
Lemma reshape_ok_iff (width : nat) (zs : list (list C)) :
  reshape_ok width zs = true
  <-> length zs <> 0 /\ width <> 0
      /\ forall x, x < length zs -> length (nth x zs []) = width.
Proof.
  unfold reshape_ok. rewrite !andb_true_iff, !negb_true_iff, !Nat.eqb_neq.
  rewrite forallb_forall. split.
  - intros [[H1 H2] H3]. repeat split; try assumption.
    intros x Hx. apply Nat.eqb_eq, H3, nth_In, Hx.
  - intros (H1 & H2 & H3). repeat split; try assumption.
    intros z Hz. apply (In_nth _ _ []) in Hz. destruct Hz as (x & Hx & <-).
    apply Nat.eqb_eq, H3, Hx.
Qed.

Lemma tda_vind_inv (fock_ao : option (list (list C))) (wfnsym : option Z)
  (zs r : list (list C)) :
  tda_vind mf fock_ao wfnsym zs = Some r ->
  reshape_ok (nocc mf * nvir mf) zs = true
  /\ r = tda_apply mf (tda_foo mf fock_ao) (tda_fvv mf fock_ao) wfnsym
           (reshape_ov mf 0 zs).
Proof.
  unfold tda_vind. destruct (reshape_ok _ zs); [|discriminate].
  intros [= <-]. now split.
Qed.

Lemma tdhf_vind_inv (wfnsym : option Z) (xys r : list (list C)) :
  tdhf_vind mf wfnsym xys = Some r ->
  reshape_ok (2 * (nocc mf * nvir mf)) xys = true
  /\ r = tdhf_apply mf wfnsym (reshape_ov mf 0 xys)
           (reshape_ov mf (nocc mf * nvir mf) xys).
Proof.
  unfold tdhf_vind. destruct (reshape_ok _ xys); [|discriminate].
  intros [= <-]. now split.
Qed.

Lemma masked_reshape_length (wfnsym : option Z) (off : nat)
  (zs : list (list C)) :
  length (if sym_active mf wfnsym
          then mask_batch mf wfnsym (reshape_ov mf off zs)
          else reshape_ov mf off zs) = length zs.
Proof. rewrite masked_length. apply reshape_ov_length. Qed.

(** The batch that the body of [vind] works on, after the projection of
    the input. *)
Lemma masked_input_entry (wfnsym : option Z) (off : nat)
  (zs : list (list C)) (x i a : nat) :
  x < length zs -> i < nocc mf -> a < nvir mf ->
  get3 (if sym_active mf wfnsym
        then mask_batch mf wfnsym (reshape_ov mf off zs)
        else reshape_ov mf off zs) x i a
  = if forbidden mf wfnsym i a then c0
    else get2 zs x (off + (i * nvir mf + a)).
Proof.
  intros Hx Hi Ha.
  assert (Hr : get3 (reshape_ov mf off zs) x i a
               = get2 zs x (off + (i * nvir mf + a))).
  { unfold reshape_ov. now rewrite get3_tab. }
  destruct (sym_active mf wfnsym) eqn:Hact.
  - unfold mask_batch.
    rewrite get3_tab by (try assumption; now rewrite reshape_ov_length).
    now rewrite Hr.
  - rewrite Hr. unfold sym_active in Hact. unfold forbidden.
    destruct wfnsym as [w|]; [|reflexivity]. now rewrite Hact.
Qed.

Lemma masked_input_ext (wfnsym : option Z) (off : nat)
  (zs zs' : list (list C)) :
  length zs = length zs' ->
  (forall x i a, x < length zs -> i < nocc mf -> a < nvir mf ->
     forbidden mf wfnsym i a = false ->
     get2 zs x (off + (i * nvir mf + a))
     = get2 zs' x (off + (i * nvir mf + a))) ->
  (if sym_active mf wfnsym
   then mask_batch mf wfnsym (reshape_ov mf off zs)
   else reshape_ov mf off zs)
  = (if sym_active mf wfnsym
     then mask_batch mf wfnsym (reshape_ov mf off zs')
     else reshape_ov mf off zs').
Proof.
  intros Hlen H.
  assert (Hin : forall x i a, x < length zs -> i < nocc mf -> a < nvir mf ->
            (if forbidden mf wfnsym i a then c0
             else get3 (reshape_ov mf off zs) x i a)
            = (if forbidden mf wfnsym i a then c0
               else get3 (reshape_ov mf off zs') x i a)).
  { intros x i a Hx Hi Ha. destruct (forbidden mf wfnsym i a) eqn:Hf.
    - reflexivity.
    - unfold reshape_ov. rewrite !get3_tab by (try assumption; lia).
      now apply H. }
  destruct (sym_active mf wfnsym) eqn:Hact.
  - unfold mask_batch. rewrite !reshape_ov_length, <- Hlen.
    apply tab_ext; intros x Hx. apply tab_ext; intros i Hi.
    apply tab_ext; intros a Ha. now apply Hin.
  - unfold reshape_ov. rewrite <- Hlen.
    apply tab_ext; intros x Hx. apply tab_ext; intros i Hi.
    apply tab_ext; intros a Ha. apply H; try assumption.
    unfold sym_active in Hact. unfold forbidden.
    destruct wfnsym as [w|]; [|reflexivity]. now rewrite Hact.
Qed.

Lemma tda_apply_shape (foo fvv : list (list C)) (wfnsym : option Z)
  (zs : list (list C)) :
  length (tda_apply mf foo fvv wfnsym (reshape_ov mf 0 zs)) = length zs
  /\ forall x, x < length zs ->
       length (nth x (tda_apply mf foo fvv wfnsym (reshape_ov mf 0 zs)) [])
       = nocc mf * nvir mf.
Proof.
  unfold tda_apply.
  destruct (tda_core_shape foo fvv wfnsym
              (if sym_active mf wfnsym
               then mask_batch mf wfnsym (reshape_ov mf 0 zs)
               else reshape_ov mf 0 zs)) as [Hl Hr].
  rewrite masked_reshape_length in Hl, Hr. now split.
Qed.

Lemma tdhf_apply_shape (wfnsym : option Z) (xys : list (list C)) :
  length (tdhf_apply mf wfnsym (reshape_ov mf 0 xys)
            (reshape_ov mf (nocc mf * nvir mf) xys)) = length xys
  /\ forall x, x < length xys ->
       length (nth x (tdhf_apply mf wfnsym (reshape_ov mf 0 xys)
                        (reshape_ov mf (nocc mf * nvir mf) xys)) [])
       = 2 * (nocc mf * nvir mf).
Proof.
  unfold tdhf_apply.
  destruct (tdhf_core_entry wfnsym
              (if sym_active mf wfnsym
               then mask_batch mf wfnsym (reshape_ov mf 0 xys)
               else reshape_ov mf 0 xys)
              (if sym_active mf wfnsym
               then mask_batch mf wfnsym
                      (reshape_ov mf (nocc mf * nvir mf) xys)
               else reshape_ov mf (nocc mf * nvir mf) xys)) as [Hl Hr].
  rewrite masked_reshape_length in Hl, Hr. split; [exact Hl|].
  intros x Hx. now apply Hr.
Qed.


(** X3.  [vind] reads its trial vectors at the allowed pairs only: two
    batches of the same shape that agree at every pair that is not
    symmetry-forbidden have the same image, under the TDA operator and,
    for both halves X and Y, under the TDHF operator. *)
Theorem vind_reads_allowed_only (fock_ao : option (list (list C)))
  (wfnsym : option Z) (zs zs' xys xys' : list (list C)) :
  let nov := nocc mf * nvir mf in
  length zs = length zs' -> length xys = length xys' ->
  reshape_ok nov zs = true -> reshape_ok nov zs' = true ->
  reshape_ok (2 * nov) xys = true -> reshape_ok (2 * nov) xys' = true ->
  (forall x i a, x < length zs -> i < nocc mf -> a < nvir mf ->
     forbidden mf wfnsym i a = false ->
     get2 zs x (i * nvir mf + a) = get2 zs' x (i * nvir mf + a)) ->
  (forall x i a, x < length xys -> i < nocc mf -> a < nvir mf ->
     forbidden mf wfnsym i a = false ->
     get2 xys x (i * nvir mf + a) = get2 xys' x (i * nvir mf + a)
     /\ get2 xys x (nov + (i * nvir mf + a))
        = get2 xys' x (nov + (i * nvir mf + a))) ->
  fst (gen_tda_operation mf fock_ao wfnsym) zs
  = fst (gen_tda_operation mf fock_ao wfnsym) zs'
  /\ fst (gen_tdhf_operation mf fock_ao wfnsym) xys
     = fst (gen_tdhf_operation mf fock_ao wfnsym) xys'.
Proof.
  intros nov Hl Hl' Hok1 Hok2 Hok3 Hok4 Hz Hxy. subst nov.
  cbn [gen_tda_operation gen_tdhf_operation fst].
  unfold tda_vind, tdhf_vind. rewrite Hok1, Hok2, Hok3, Hok4.
  unfold tda_apply, tdhf_apply. split; f_equal.
  - now rewrite (masked_input_ext wfnsym 0 zs zs' Hl).
  - rewrite (masked_input_ext wfnsym 0 xys xys' Hl')
      by (intros; now apply Hxy).
    rewrite (masked_input_ext wfnsym (nocc mf * nvir mf) xys xys' Hl')
      by (intros; now apply Hxy).
    reflexivity.
Qed.

End OperatorShape.

(** ** The operators and the symmetry label *)

Section SymmetryLabel.
Context {K : Type} {SK : Scalar K}.
Variable mf : SCF K.
Local Abbreviation C := (cplx K).

Lemma mask_batch_ext (w1 w2 : option Z) (t : list (list (list C))) :
  (forall i a, forbidden mf w1 i a = forbidden mf w2 i a) ->
  mask_batch mf w1 t = mask_batch mf w2 t.
Proof.
  intros H. unfold mask_batch.
  apply tab_ext; intros x _. apply tab_ext; intros i _.
  apply tab_ext; intros a _. now rewrite H.
Qed.

(** The builders read [wfnsym] through the test [wfnsym is not None and
    mol.symmetry] and through [sym_forbid] only. *)
Lemma operators_ext (fock_ao : option (list (list C))) (w1 w2 : option Z) :
  sym_active mf w1 = sym_active mf w2 ->
  (forall i a, forbidden mf w1 i a = forbidden mf w2 i a) ->
  snd (gen_tda_operation mf fock_ao w1) = snd (gen_tda_operation mf fock_ao w2)
  /\ snd (gen_tdhf_operation mf fock_ao w1)
     = snd (gen_tdhf_operation mf fock_ao w2)
  /\ (forall zs, fst (gen_tda_operation mf fock_ao w1) zs
                 = fst (gen_tda_operation mf fock_ao w2) zs)
  /\ (forall xys, fst (gen_tdhf_operation mf fock_ao w1) xys
                  = fst (gen_tdhf_operation mf fock_ao w2) xys).
Proof.
  intros Hact H.
  assert (Hd : forall foo fvv,
            hdiag_block mf foo fvv w1 = hdiag_block mf foo fvv w2).
  { intros foo fvv. unfold hdiag_block.
    apply tab_ext; intros i _. apply tab_ext; intros a _. now rewrite H. }
  cbn [gen_tda_operation gen_tdhf_operation fst snd].
  split; [unfold tda_hdiag; now rewrite Hd|].
  split; [unfold tdhf_hdiag; now rewrite Hd|].
  split.
  - intros zs. unfold tda_vind, tda_apply, tda_core. rewrite Hact.
    destruct (sym_active mf w2); [|reflexivity].
    now rewrite !(fun t => mask_batch_ext w1 w2 t H).
  - intros xys. unfold tdhf_vind, tdhf_apply, tdhf_core. rewrite Hact.
    destruct (sym_active mf w2); [|reflexivity].
    now rewrite !(fun t => mask_batch_ext w1 w2 t H).
Qed.

(** X6.  The builders reduce the target irrep modulo 10 (to the D2h
    subgroup): the irrep ids [w] and [w + 10*k] give the same diagonal and
    the same operator, for [gen_tda_operation] and for
    [gen_tdhf_operation]. *)
Theorem wfnsym_reduced_mod_10 (fock_ao : option (list (list C)))
  (w k : Z) (zs : list (list C)) :
  let w' := (w + k * 10)%Z in
  snd (gen_tda_operation mf fock_ao (Some w'))
  = snd (gen_tda_operation mf fock_ao (Some w))
  /\ snd (gen_tdhf_operation mf fock_ao (Some w'))
     = snd (gen_tdhf_operation mf fock_ao (Some w))
  /\ fst (gen_tda_operation mf fock_ao (Some w')) zs
     = fst (gen_tda_operation mf fock_ao (Some w)) zs
  /\ fst (gen_tdhf_operation mf fock_ao (Some w')) zs
     = fst (gen_tdhf_operation mf fock_ao (Some w)) zs.
Proof.
  intros w'.
  destruct (operators_ext fock_ao (Some w') (Some w)) as (H1 & H2 & H3 & H4).
  - reflexivity.
  - intros i a. unfold forbidden, sym_forbid, w'.
    now rewrite Z_mod_plus_full.
  - repeat split; auto.
Qed.

(** X7.  For a molecule without point-group symmetry ([mol.symmetry]
    false) the builders ignore [wfnsym]: every target irrep gives the
    diagonal and the operator of [wfnsym = None]. *)
Theorem wfnsym_ignored_without_symmetry (fock_ao : option (list (list C)))
  (wfnsym : option Z) (zs : list (list C)) :
  mol_symmetry mf = false ->
  snd (gen_tda_operation mf fock_ao wfnsym)
  = snd (gen_tda_operation mf fock_ao None)
  /\ snd (gen_tdhf_operation mf fock_ao wfnsym)
     = snd (gen_tdhf_operation mf fock_ao None)
  /\ fst (gen_tda_operation mf fock_ao wfnsym) zs
     = fst (gen_tda_operation mf fock_ao None) zs
  /\ fst (gen_tdhf_operation mf fock_ao wfnsym) zs
     = fst (gen_tdhf_operation mf fock_ao None) zs.
Proof.
  intros Hsym.
  destruct (operators_ext fock_ao wfnsym None) as (H1 & H2 & H3 & H4).
  - unfold sym_active. destruct wfnsym; [exact Hsym | reflexivity].
  - intros i a. unfold forbidden. destruct wfnsym; [|reflexivity].
    now rewrite Hsym.
  - repeat split; auto.
Qed.

End SymmetryLabel.

(** ** The image of the operators over a commutative ring *)

Section OperatorImage.
Context {K : Type} {SK : Scalar K}.
Hypothesis Kth : ring_theory k0 k1 kadd kmul ksub kopp (@eq K).
Add Ring Kring_image : Kth.
Variable mf : SCF K.
Local Abbreviation C := (cplx K).

Ltac cring :=
  repeat match goal with z : cplx _ |- _ => destruct z end;
  unfold cadd, csub, cmul, copp, conj, c0, c1, of_real, re, im; simpl;
  f_equal; ring.

Lemma get2_out_of_batch (r : list (list C)) (x j : nat) :
  length r <= x -> get2 r x j = c0.
Proof.
  intros H. unfold get2, get1. rewrite (nth_overflow r [] H).
  now destruct j.
Qed.

(** X2.  With the symmetry filter, the image of [vind] vanishes at every
    symmetry-forbidden pair: in each row of the TDA image, and in both
    halves of each row of the TDHF image. *)
Theorem vind_image_projected (fock_ao : option (list (list C)))
  (wfnsym : option Z) (zs xys r r' : list (list C)) (x i a : nat) :
  let nov := nocc mf * nvir mf in
  fst (gen_tda_operation mf fock_ao wfnsym) zs = Some r ->
  fst (gen_tdhf_operation mf fock_ao wfnsym) xys = Some r' ->
  i < nocc mf -> a < nvir mf -> forbidden mf wfnsym i a = true ->
  get2 r x (i * nvir mf + a) = c0
  /\ get2 r' x (i * nvir mf + a) = c0
  /\ get2 r' x (nov + (i * nvir mf + a)) = c0.
Proof.
  intros nov Hr Hr' Hi Ha Hf.
  cbn [gen_tda_operation gen_tdhf_operation fst] in *.
  apply tda_vind_inv in Hr. destruct Hr as [_ ->].
  apply tdhf_vind_inv in Hr'. destruct Hr' as [_ ->].
  split.
  - destruct (tda_apply_shape mf (tda_foo mf fock_ao) (tda_fvv mf fock_ao)
                wfnsym zs) as [Hl _].
    destruct (Nat.lt_ge_cases x (length zs)) as [Hx|Hx].
    + unfold tda_apply. rewrite tda_core_entry, Hf; try assumption.
      reflexivity. now rewrite masked_reshape_length.
    + apply get2_out_of_batch. now rewrite Hl.
  - destruct (tdhf_apply_shape mf wfnsym xys) as [Hl _].
    destruct (Nat.lt_ge_cases x (length xys)) as [Hx|Hx].
    + unfold tdhf_apply.
      match goal with |- context [tdhf_core mf wfnsym ?xs ?ys] =>
        destruct (tdhf_core_entry mf wfnsym xs ys) as [_ He]
      end.
      rewrite masked_reshape_length in He.
      destruct (He x Hx) as [_ He']. destruct (He' i a Hi Ha) as [H1 H2].
      subst nov. rewrite H1, H2, Hf. split; [reflexivity | apply (copp_0 Kth)].
    + split; apply get2_out_of_batch; now rewrite Hl.
Qed.

(** *** Diagonal Fock blocks *)

Lemma csum_delta (n a : nat) (g : nat -> C) :
  csum n (fun s => if Nat.eqb s a then g s else c0)
  = if Nat.ltb a n then g a else c0.
Proof.
  induction n as [|n IH]; simpl.
  - reflexivity.
  - rewrite IH. destruct (Nat.eqb n a) eqn:Hna.
    + apply Nat.eqb_eq in Hna. subst a.
      rewrite Nat.ltb_irrefl.
      replace (n <? S n) with true by (symmetry; apply Nat.ltb_lt; lia).
      apply (cadd_0_l Kth).
    + apply Nat.eqb_neq in Hna.
      destruct (a <? n) eqn:Han.
      * apply Nat.ltb_lt in Han.
        replace (a <? S n) with true by (symmetry; apply Nat.ltb_lt; lia).
        apply (cadd_0_r Kth).
      * apply Nat.ltb_ge in Han.
        replace (a <? S n) with false by (symmetry; apply Nat.ltb_ge; lia).
        apply (cadd_0_l Kth).
Qed.

Lemma get2_diag (n : nat) (v : list K) (i j : nat) :
  i < n -> j < n ->
  get2 (diag n v) i j = if Nat.eqb i j then of_real (nth i v k0) else c0.
Proof. intros Hi Hj. unfold diag. now rewrite get2_tab. Qed.

(** [einsum('xqs,sp->xqp', zs, fvv)] for a diagonal [fvv]. *)
Lemma z_fvv_diag (zs : list (list (list C))) (v : list K) (x i a : nat) :
  a < nvir mf ->
  z_fvv mf zs (diag (nvir mf) v) x i a
  = (get3 zs x i a * of_real (nth a v k0))%C.
Proof.
  intros Ha. unfold z_fvv.
  rewrite csum_ext with (g := fun s => if Nat.eqb s a
             then (get3 zs x i s * of_real (nth s v k0))%C else c0).
  - rewrite csum_delta.
    now replace (a <? nvir mf) with true by (symmetry; now apply Nat.ltb_lt).
  - intros s Hs. rewrite get2_diag by assumption.
    destruct (Nat.eqb s a); [reflexivity | apply (cmul_0_r Kth)].
Qed.

(** [einsum('xpr,sp->xsr', zs, foo)] for a diagonal [foo]. *)
Lemma foo_z_diag (zs : list (list (list C))) (v : list K) (x i a : nat) :
  i < nocc mf ->
  foo_z mf zs (diag (nocc mf) v) x i a
  = (get3 zs x i a * of_real (nth i v k0))%C.
Proof.
  intros Hi. unfold foo_z.
  rewrite csum_ext with (g := fun p => if Nat.eqb p i
             then (get3 zs x p a * of_real (nth i v k0))%C else c0).
  - rewrite csum_delta.
    now replace (i <? nocc mf) with true by (symmetry; now apply Nat.ltb_lt).
  - intros p Hp. rewrite get2_diag by assumption.
    rewrite (Nat.eqb_sym i p).
    destruct (Nat.eqb p i); [reflexivity | apply (cmul_0_r Kth)].
Qed.

(** The diagonal of the builders at a pair, for the orbital energies. *)
Lemma hdiag_entry (wfnsym : option Z) (i a : nat) :
  i < nocc mf -> a < nvir mf ->
  nth (i * nvir mf + a)
    (concat (hdiag_block mf (diag (nocc mf) (e_occ mf))
               (diag (nvir mf) (e_vir mf)) wfnsym)) c0
  = if forbidden mf wfnsym i a then c0
    else of_real (nth a (e_vir mf) k0 - nth i (e_occ mf) k0)%K.
Proof.
  intros Hi Ha. rewrite hdiag_block_nth by assumption.
  destruct (forbidden mf wfnsym i a); [reflexivity|].
  rewrite !diag_diagonal by assumption. cring.
Qed.

Lemma pair_of_index (j : nat) :
  j < nocc mf * nvir mf ->
  exists i a, i < nocc mf /\ a < nvir mf /\ j = i * nvir mf + a.
Proof.
  intros Hj. assert (Hv : nvir mf <> 0) by nia.
  exists (j / nvir mf), (j mod nvir mf). repeat split.
  - apply Nat.Div0.div_lt_upper_bound. nia.
  - now apply Nat.mod_upper_bound.
  - rewrite (Nat.div_mod_eq j (nvir mf)) at 1. lia.
Qed.

(** X4.  When the density response vanishes, the operators act as their
    diagonals: [vind] multiplies every entry of every trial vector by the
    entry of [hdiag] at the same position, for [gen_tda_operation] built from
    the orbital energies and for [gen_tdhf_operation], with or without
    symmetry filter. *)
Theorem vind_is_diagonal_without_response (fock_ao : option (list (list C)))
  (wfnsym : option Z) (zs xys : list (list C)) :
  let nov := nocc mf * nvir mf in
  (forall d x p q, get3 (gen_response mf d) x p q = c0) ->
  reshape_ok nov zs = true -> reshape_ok (2 * nov) xys = true ->
  exists r r',
    fst (gen_tda_operation mf None wfnsym) zs = Some r
    /\ fst (gen_tdhf_operation mf fock_ao wfnsym) xys = Some r'
    /\ (forall x j, x < length zs -> j < nov ->
          get2 r x j
          = (of_real (nth j (snd (gen_tda_operation mf None wfnsym)) k0)
             * get2 zs x j)%C)
    /\ (forall x j, x < length xys -> j < 2 * nov ->
          get2 r' x j
          = (of_real (nth j (snd (gen_tdhf_operation mf fock_ao wfnsym)) k0)
             * get2 xys x j)%C).
Proof.
  intros nov Hresp Hok Hok'. subst nov.
  cbn [gen_tda_operation gen_tdhf_operation fst snd].
  unfold tda_vind, tdhf_vind. rewrite Hok, Hok'.
  eexists. eexists. split; [reflexivity|]. split; [reflexivity|].
  split.
  - intros x j Hx Hj.
    destruct (pair_of_index Hj) as (i & a & Hi & Ha & ->).
    unfold tda_apply. rewrite tda_core_entry
      by (try assumption; now rewrite masked_reshape_length).
    unfold tda_hdiag. change k0 with (re (c0 : C)). rewrite map_nth.
    cbn [tda_foo tda_fvv]. rewrite hdiag_entry by assumption.
    rewrite proj_ov_zero by (try exact Kth; intros; apply Hresp).
    rewrite z_fvv_diag, foo_z_diag by assumption.
    rewrite masked_input_entry by assumption.
    destruct (forbidden mf wfnsym i a); cbn [Nat.add]; cring.
  - intros x j Hx Hj.
    unfold tdhf_apply.
    match goal with |- context [tdhf_core mf wfnsym ?xs ?ys] =>
      destruct (tdhf_core_entry mf wfnsym xs ys) as [_ He]
    end.
    rewrite masked_reshape_length in He.
    destruct (He x Hx) as [_ He']. clear He.
    unfold tdhf_hdiag. change k0 with (re (c0 : C)). rewrite map_nth.
    unfold tdhf_foo, tdhf_fvv in *.
    assert (Hh : length (concat (hdiag_block mf (diag (nocc mf) (e_occ mf))
                                   (diag (nvir mf) (e_vir mf)) wfnsym))
                 = nocc mf * nvir mf) by apply hdiag_block_length.
    destruct (Nat.lt_ge_cases j (nocc mf * nvir mf)) as [Hlt|Hge].
    + destruct (pair_of_index Hlt) as (i & a & Hi & Ha & ->).
      destruct (He' i a Hi Ha) as [-> _].
      rewrite app_nth1 by (rewrite Hh; exact Hlt).
      rewrite hdiag_entry by assumption.
      rewrite proj_ov_zero by (try exact Kth; intros; apply Hresp).
      rewrite z_fvv_diag, foo_z_diag by assumption.
      rewrite masked_input_entry by assumption.
      destruct (forbidden mf wfnsym i a); cbn [Nat.add]; cring.
    + assert (Hj' : j - nocc mf * nvir mf < nocc mf * nvir mf) by lia.
      destruct (pair_of_index Hj') as (i & a & Hi & Ha & Hia).
      replace j with (nocc mf * nvir mf + (i * nvir mf + a)) by lia.
      destruct (He' i a Hi Ha) as [_ ->].
      rewrite app_nth2 by (rewrite Hh; lia). rewrite Hh.
      replace (nocc mf * nvir mf + (i * nvir mf + a) - nocc mf * nvir mf)
        with (i * nvir mf + a) by lia.
      rewrite (nth_indep _ c0 (copp c0)) by (rewrite length_map, Hh; nia).
      rewrite map_nth, hdiag_entry by assumption.
      rewrite proj_vo_zero by (try exact Kth; intros; apply Hresp).
      rewrite z_fvv_diag, foo_z_diag by assumption.
      rewrite masked_input_entry by assumption.
      destruct (forbidden mf wfnsym i a); cring.
Qed.

(** *** The TDA operator inside the TDHF operator *)

(** X5.  A TDHF trial batch whose Y half is zero has, in the X half of its
    image, the image of its X half under the TDA operator built from the
    orbital energies; and the TDHF diagonal is the TDA diagonal followed by
    its negation. *)
Theorem tdhf_with_zero_y_is_tda (fock_ao : option (list (list C)))
  (wfnsym : option Z) (zs xys : list (list C)) :
  let nov := nocc mf * nvir mf in
  reshape_ok nov zs = true -> reshape_ok (2 * nov) xys = true ->
  length xys = length zs ->
  (forall x j, x < length zs -> j < nov ->
     get2 xys x j = get2 zs x j /\ get2 xys x (nov + j) = c0) ->
  (exists r r',
     fst (gen_tda_operation mf None wfnsym) zs = Some r
     /\ fst (gen_tdhf_operation mf fock_ao wfnsym) xys = Some r'
     /\ forall x j, x < length zs -> j < nov -> get2 r' x j = get2 r x j)
  /\ snd (gen_tdhf_operation mf fock_ao wfnsym)
     = snd (gen_tda_operation mf None wfnsym)
       ++ map kopp (snd (gen_tda_operation mf None wfnsym)).
Proof.
  intros nov Hok Hok' Hlen Hxy. subst nov. split.
  - cbn [gen_tda_operation gen_tdhf_operation fst].
    unfold tda_vind, tdhf_vind. rewrite Hok, Hok'.
    eexists. eexists. split; [reflexivity|]. split; [reflexivity|].
    intros x j Hx Hj. destruct (pair_of_index Hj) as (i & a & Hi & Ha & ->).
    unfold tda_apply, tdhf_apply.
    rewrite (masked_input_ext mf wfnsym 0 xys zs Hlen)
      by (intros x' i' a' Hx' Hi' Ha' _; cbn [Nat.add];
          apply Hxy; [lia | nia]).
    rewrite (masked_input_zero mf wfnsym (nocc mf * nvir mf) xys)
      by (intros x' i' a' Hx' Hi' Ha' _; apply Hxy; [lia | nia]).
    set (mzs := if sym_active mf wfnsym
                then mask_batch mf wfnsym (reshape_ov mf 0 zs)
                else reshape_ov mf 0 zs).
    assert (Hm : length mzs = length zs) by apply masked_reshape_length.
    destruct (tdhf_core_entry mf wfnsym mzs
                (zeros3 (length xys) (nocc mf) (nvir mf))) as [_ He].
    rewrite Hm in He. destruct (He x Hx) as [_ He'].
    destruct (He' i a Hi Ha) as [-> _].
    rewrite tda_core_entry by (try assumption; now rewrite Hm).
    rewrite Hm. destruct (forbidden mf wfnsym i a); [reflexivity|].
    cbn [tda_foo tda_fvv]. unfold tdhf_foo, tdhf_fvv.
    match goal with |- context [gen_response mf ?T] =>
      replace T with (tab (length zs) (fun x => tab (nao mf) (fun p =>
                        tab (nao mf) (fun q => dm_ov mf mzs x p q))));
        [reflexivity|]
    end.
    apply tab_ext; intros y _. apply tab_ext; intros p _.
    apply tab_ext; intros q _.
    rewrite (dm_vo_zeros Kth). symmetry. apply (cadd_0_r Kth).
  - cbn [gen_tda_operation gen_tdhf_operation snd].
    unfold tdhf_hdiag, tda_hdiag. cbn [tda_foo tda_fvv].
    unfold tdhf_foo, tdhf_fvv. now rewrite map_app, !map_map.
Qed.

(** *** Additivity *)

Lemma csum_lin (n : nat) (h f g : nat -> C) :
  (forall i, i < n -> h i = (f i + g i)%C) ->
  csum n h = (csum n f + csum n g)%C.
Proof.
  induction n as [|n IH]; intros H; simpl.
  - symmetry. apply (cadd_0_l Kth).
  - rewrite IH, H by (intros; try apply H; lia).
    generalize (csum n f) (csum n g) (f n) (g n). intros. cring.
Qed.

Lemma cmul_add_l (a b c : C) : ((a + b) * c = a * c + b * c)%C.
Proof. cring. Qed.

Lemma cmul3_add_l (a b c d : C) :
  ((a + b) * c * d = a * c * d + b * c * d)%C.
Proof. cring. Qed.

Lemma image_sum (p z f p' z' f' : C) :
  ((p + p') + (z + z') - (f + f') = (p + z - f) + (p' + z' - f'))%C.
Proof. cring. Qed.

Section Sum.
Variables t t' t'' : list (list (list C)).
Variable x : nat.
Hypothesis Hsum : forall o v, o < nocc mf -> v < nvir mf ->
  get3 t'' x o v = (get3 t x o v + get3 t' x o v)%C.

Lemma dm_ov_add (p q : nat) :
  dm_ov mf t'' x p q = (dm_ov mf t x p q + dm_ov mf t' x p q)%C.
Proof.
  unfold dm_ov. apply csum_lin; intros o Ho. apply csum_lin; intros v Hv.
  rewrite Hsum by assumption. apply cmul3_add_l.
Qed.

Lemma z_fvv_add (fvv : list (list C)) (o v : nat) :
  o < nocc mf ->
  z_fvv mf t'' fvv x o v = (z_fvv mf t fvv x o v + z_fvv mf t' fvv x o v)%C.
Proof.
  intros Ho. unfold z_fvv. apply csum_lin; intros s Hs.
  rewrite Hsum by assumption. apply cmul_add_l.
Qed.

Lemma foo_z_add (foo : list (list C)) (o v : nat) :
  v < nvir mf ->
  foo_z mf t'' foo x o v = (foo_z mf t foo x o v + foo_z mf t' foo x o v)%C.
Proof.
  intros Hv. unfold foo_z. apply csum_lin; intros s Hs.
  rewrite Hsum by assumption. apply cmul_add_l.
Qed.

End Sum.

Lemma proj_ov_add (V V' V'' : list (list (list C))) (x o v : nat) :
  (forall p q, get3 V'' x p q = (get3 V x p q + get3 V' x p q)%C) ->
  proj_ov mf V'' x o v = (proj_ov mf V x o v + proj_ov mf V' x o v)%C.
Proof.
  intros H. unfold proj_ov.
  apply csum_lin; intros p Hp. apply csum_lin; intros q Hq.
  rewrite H. apply cmul3_add_l.
Qed.

(** X8.  The TDA operator is additive when the density response is: the
    image of the entrywise sum of two trial batches of the same shape is the
    entrywise sum of their images. *)
Theorem tda_vind_additive (fock_ao : option (list (list C)))
  (wfnsym : option Z) (zs zs' r r' : list (list C)) :
  let nov := nocc mf * nvir mf in
  let table n (f : nat -> nat -> nat -> C) :=
    tab n (fun x => tab (nao mf) (fun p => tab (nao mf) (fun q => f x p q))) in
  (forall n f g x p q,
     get3 (gen_response mf (table n (fun x p q => (f x p q + g x p q)%C)))
       x p q
     = (get3 (gen_response mf (table n f)) x p q
        + get3 (gen_response mf (table n g)) x p q)%C) ->
  length zs = length zs' ->
  fst (gen_tda_operation mf fock_ao wfnsym) zs = Some r ->
  fst (gen_tda_operation mf fock_ao wfnsym) zs' = Some r' ->
  exists r'',
    fst (gen_tda_operation mf fock_ao wfnsym)
      (tab (length zs) (fun x => tab nov (fun j =>
         (get2 zs x j + get2 zs' x j)%C))) = Some r''
    /\ forall x j, x < length zs -> j < nov ->
         get2 r'' x j = (get2 r x j + get2 r' x j)%C.
Proof.
  intros nov table Hadd Hlen Hr Hr'. subst nov.
  cbn [gen_tda_operation fst] in *.
  apply tda_vind_inv in Hr. destruct Hr as [Hok ->].
  apply tda_vind_inv in Hr'. destruct Hr' as [Hok' ->].
  set (zs'' := tab (length zs) (fun x => tab (nocc mf * nvir mf) (fun j =>
                 (get2 zs x j + get2 zs' x j)%C))).
  assert (Hl'' : length zs'' = length zs) by apply tab_length.
  assert (Hok'' : reshape_ok (nocc mf * nvir mf) zs'' = true).
  { apply reshape_ok_iff in Hok. destruct Hok as (Hn & Hw & _).
    apply reshape_ok_iff. rewrite Hl''. repeat split; try assumption.
    intros x Hx. unfold zs''. rewrite (nth_tab _ _ Hx). apply tab_length. }
  unfold tda_vind. rewrite Hok''. eexists. split; [reflexivity|].
  intros x j Hx Hj. destruct (pair_of_index Hj) as (i & a & Hi & Ha & ->).
  unfold tda_apply.
  set (m := if sym_active mf wfnsym
            then mask_batch mf wfnsym (reshape_ov mf 0 zs)
            else reshape_ov mf 0 zs).
  set (m' := if sym_active mf wfnsym
             then mask_batch mf wfnsym (reshape_ov mf 0 zs')
             else reshape_ov mf 0 zs').
  set (m'' := if sym_active mf wfnsym
              then mask_batch mf wfnsym (reshape_ov mf 0 zs'')
              else reshape_ov mf 0 zs'').
  assert (Hm : length m = length zs) by apply masked_reshape_length.
  assert (Hm' : length m' = length zs).
  { rewrite Hlen. apply masked_reshape_length. }
  assert (Hm'' : length m'' = length zs).
  { rewrite <- Hl''. apply masked_reshape_length. }
  assert (Hsum : forall y o v, y < length zs -> o < nocc mf -> v < nvir mf ->
            get3 m'' y o v = (get3 m y o v + get3 m' y o v)%C).
  { intros y o v Hy Ho Hv. unfold m, m', m''.
    rewrite !masked_input_entry by (try assumption; lia).
    destruct (forbidden mf wfnsym o v).
    - symmetry. apply (cadd_0_l Kth).
    - cbn [Nat.add]. unfold zs''. rewrite get2_tab; [reflexivity | exact Hy|].
      nia. }
  rewrite !tda_core_entry by (try assumption; lia).
  destruct (forbidden mf wfnsym i a).
  { symmetry. apply (cadd_0_l Kth). }
  rewrite Hm, Hm', Hm''.
  rewrite (@z_fvv_add m m' m'' x (fun o v => Hsum x o v Hx)) by assumption.
  rewrite (@foo_z_add m m' m'' x (fun o v => Hsum x o v Hx)) by assumption.
  match goal with
  | |- (proj_ov mf ?V'' x i a + _ - _
        = (proj_ov mf ?V x i a + _ - _) + (proj_ov mf ?V' x i a + _ - _))%C =>
      rewrite (@proj_ov_add V V' V'' x i a)
  end.
  - apply image_sum.
  - intros p q. unfold table in Hadd. rewrite <- Hadd. do 2 f_equal.
    apply tab_ext; intros y Hy. apply tab_ext; intros p' _.
    apply tab_ext; intros q' _.
    apply (@dm_ov_add m m' m'' y (fun o v => Hsum y o v Hy)).
Qed.

Lemma dm_vo_add (t t' t'' : list (list (list C))) (x p q : nat) :
  (forall o v, o < nocc mf -> v < nvir mf ->
     get3 t'' x o v = (get3 t x o v + get3 t' x o v)%C) ->
  dm_vo mf t'' x p q = (dm_vo mf t x p q + dm_vo mf t' x p q)%C.
Proof.
  intros Hsum. unfold dm_vo.
  apply csum_lin; intros o Ho. apply csum_lin; intros v Hv.
  rewrite Hsum by assumption. apply cmul3_add_l.
Qed.

Lemma proj_vo_add (V V' V'' : list (list (list C))) (x o v : nat) :
  (forall p q, get3 V'' x p q = (get3 V x p q + get3 V' x p q)%C) ->
  proj_vo mf V'' x o v = (proj_vo mf V x o v + proj_vo mf V' x o v)%C.
Proof.
  intros H. unfold proj_vo.
  apply csum_lin; intros p Hp. apply csum_lin; intros q Hq.
  rewrite H. apply cmul3_add_l.
Qed.

Lemma cadd_swap (a a' b b' : C) :
  ((a + a') + (b + b') = (a + b) + (a' + b'))%C.
Proof. cring. Qed.

Lemma image_sum_opp (p z f p' z' f' : C) :
  (- ((p + p') + (z + z') - (f + f'))
   = - (p + z - f) + - (p' + z' - f'))%C.
Proof. cring. Qed.

(** X9.  The TDHF operator is additive when the density response is: the
    image of the entrywise sum of two trial batches of the same shape is the
    entrywise sum of their images, in both halves. *)
Theorem tdhf_vind_additive (fock_ao : option (list (list C)))
  (wfnsym : option Z) (xys xys' r r' : list (list C)) :
  let nov := nocc mf * nvir mf in
  let table n (f : nat -> nat -> nat -> C) :=
    tab n (fun x => tab (nao mf) (fun p => tab (nao mf) (fun q => f x p q))) in
  (forall n f g x p q,
     get3 (gen_response mf (table n (fun x p q => (f x p q + g x p q)%C)))
       x p q
     = (get3 (gen_response mf (table n f)) x p q
        + get3 (gen_response mf (table n g)) x p q)%C) ->
  length xys = length xys' ->
  fst (gen_tdhf_operation mf fock_ao wfnsym) xys = Some r ->
  fst (gen_tdhf_operation mf fock_ao wfnsym) xys' = Some r' ->
  exists r'',
    fst (gen_tdhf_operation mf fock_ao wfnsym)
      (tab (length xys) (fun x => tab (2 * nov) (fun j =>
         (get2 xys x j + get2 xys' x j)%C))) = Some r''
    /\ forall x j, x < length xys -> j < 2 * nov ->
         get2 r'' x j = (get2 r x j + get2 r' x j)%C.
Proof.
  intros nov table Hadd Hlen Hr Hr'. subst nov. unfold table in Hadd.
  cbn [gen_tdhf_operation fst] in *.
  apply tdhf_vind_inv in Hr. destruct Hr as [Hok ->].
  apply tdhf_vind_inv in Hr'. destruct Hr' as [Hok' ->].
  set (s := tab (length xys) (fun x =>
              tab (2 * (nocc mf * nvir mf)) (fun j =>
                (get2 xys x j + get2 xys' x j)%C))).
  assert (Hls : length s = length xys) by apply tab_length.
  assert (Hoks : reshape_ok (2 * (nocc mf * nvir mf)) s = true).
  { apply reshape_ok_iff in Hok. destruct Hok as (Hn & Hw & _).
    apply reshape_ok_iff. rewrite Hls. repeat split; try assumption.
    intros x Hx. unfold s. rewrite (nth_tab _ _ Hx). apply tab_length. }
  unfold tdhf_vind. rewrite Hoks. eexists. split; [reflexivity|].
  unfold tdhf_apply.
  set (mx := if sym_active mf wfnsym
             then mask_batch mf wfnsym (reshape_ov mf 0 xys)
             else reshape_ov mf 0 xys).
  set (my := if sym_active mf wfnsym
             then mask_batch mf wfnsym
                    (reshape_ov mf (nocc mf * nvir mf) xys)
             else reshape_ov mf (nocc mf * nvir mf) xys).
  set (mx' := if sym_active mf wfnsym
              then mask_batch mf wfnsym (reshape_ov mf 0 xys')
              else reshape_ov mf 0 xys').
  set (my' := if sym_active mf wfnsym
              then mask_batch mf wfnsym
                     (reshape_ov mf (nocc mf * nvir mf) xys')
              else reshape_ov mf (nocc mf * nvir mf) xys').
  set (mxs := if sym_active mf wfnsym
              then mask_batch mf wfnsym (reshape_ov mf 0 s)
              else reshape_ov mf 0 s).
  set (mys := if sym_active mf wfnsym
              then mask_batch mf wfnsym
                     (reshape_ov mf (nocc mf * nvir mf) s)
              else reshape_ov mf (nocc mf * nvir mf) s).
  assert (Hmx : length mx = length xys) by apply masked_reshape_length.
  assert (Hmx' : length mx' = length xys)
    by (rewrite Hlen; apply masked_reshape_length).
  assert (Hmxs : length mxs = length xys)
    by (rewrite <- Hls; apply masked_reshape_length).
  assert (Hsum : forall off, off = 0 \/ off = nocc mf * nvir mf ->
            forall y o v, y < length xys -> o < nocc mf -> v < nvir mf ->
            get3 (if sym_active mf wfnsym
                  then mask_batch mf wfnsym (reshape_ov mf off s)
                  else reshape_ov mf off s) y o v
            = (get3 (if sym_active mf wfnsym
                     then mask_batch mf wfnsym (reshape_ov mf off xys)
                     else reshape_ov mf off xys) y o v
               + get3 (if sym_active mf wfnsym
                       then mask_batch mf wfnsym (reshape_ov mf off xys')
                       else reshape_ov mf off xys') y o v)%C).
  { intros off Hoff y o v Hy Ho Hv.
    rewrite !masked_input_entry by (try assumption; lia).
    destruct (forbidden mf wfnsym o v).
    - symmetry. apply (cadd_0_l Kth).
    - unfold s. rewrite get2_tab; [reflexivity | exact Hy|].
      destruct Hoff as [-> | ->]; nia. }
  pose proof (Hsum 0 (or_introl eq_refl)) as Hsx.
  pose proof (Hsum _ (or_intror eq_refl)) as Hsy.
  fold mx mx' mxs in Hsx. fold my my' mys in Hsy. clear Hsum.
  destruct (tdhf_core_entry mf wfnsym mx my) as [_ He].
  destruct (tdhf_core_entry mf wfnsym mx' my') as [_ He'].
  destruct (tdhf_core_entry mf wfnsym mxs mys) as [_ Hes].
  rewrite Hmx in He. rewrite Hmx' in He'. rewrite Hmxs in Hes.
  intros x j Hx Hj.
  destruct (He x Hx) as [_ Hx1]. destruct (He' x Hx) as [_ Hx2].
  destruct (Hes x Hx) as [_ Hx3]. clear He He' Hes.
  assert (Hresp : forall p q,
            get3 (gen_response mf (tab (length xys) (fun x => tab (nao mf)
                    (fun p => tab (nao mf) (fun q =>
                       (dm_ov mf mxs x p q + dm_vo mf mys x p q)%C))))) x p q
            = (get3 (gen_response mf (tab (length xys) (fun x =>
                       tab (nao mf) (fun p => tab (nao mf) (fun q =>
                         (dm_ov mf mx x p q + dm_vo mf my x p q)%C)))))
                 x p q
               + get3 (gen_response mf (tab (length xys) (fun x =>
                         tab (nao mf) (fun p => tab (nao mf) (fun q =>
                           (dm_ov mf mx' x p q + dm_vo mf my' x p q)%C)))))
                   x p q)%C).
  { intros p q.
    rewrite <- (Hadd (length xys)
                  (fun x p q => (dm_ov mf mx x p q + dm_vo mf my x p q)%C)
                  (fun x p q => (dm_ov mf mx' x p q + dm_vo mf my' x p q)%C)).
    do 2 f_equal.
    apply tab_ext; intros y Hy. apply tab_ext; intros p' _.
    apply tab_ext; intros q' _.
    rewrite (@dm_ov_add mx mx' mxs y (fun o v => Hsx y o v Hy)).
    rewrite (@dm_vo_add my my' mys y p' q' (fun o v => Hsy y o v Hy)).
    apply cadd_swap. }
  destruct (Nat.lt_ge_cases j (nocc mf * nvir mf)) as [Hlt|Hge].
  - destruct (pair_of_index Hlt) as (i & a & Hi & Ha & ->).
    destruct (Hx1 i a Hi Ha) as [-> _]. destruct (Hx2 i a Hi Ha) as [-> _].
    destruct (Hx3 i a Hi Ha) as [-> _].
    destruct (forbidden mf wfnsym i a).
    { symmetry. apply (cadd_0_l Kth). }
    rewrite (@z_fvv_add mx mx' mxs x (fun o v => Hsx x o v Hx)) by assumption.
    rewrite (@foo_z_add mx mx' mxs x (fun o v => Hsx x o v Hx)) by assumption.
    rewrite (proj_ov_add _ _ _ _ _ _ Hresp). apply image_sum.
  - assert (Hj' : j - nocc mf * nvir mf < nocc mf * nvir mf) by lia.
    destruct (pair_of_index Hj') as (i & a & Hi & Ha & Hia).
    replace j with (nocc mf * nvir mf + (i * nvir mf + a)) by lia.
    destruct (Hx1 i a Hi Ha) as [_ ->]. destruct (Hx2 i a Hi Ha) as [_ ->].
    destruct (Hx3 i a Hi Ha) as [_ ->].
    destruct (forbidden mf wfnsym i a).
    { rewrite (copp_0 Kth). symmetry. apply (cadd_0_l Kth). }
    rewrite (@z_fvv_add my my' mys x (fun o v => Hsy x o v Hx)) by assumption.
    rewrite (@foo_z_add my my' mys x (fun o v => Hsy x o v Hx)) by assumption.
    rewrite (proj_vo_add _ _ _ _ _ _ Hresp). apply image_sum_opp.
Qed.

End OperatorImage.

(** ** The orbital counts of the kernels and of the operators *)

Section KernelCounts.

Lemma where_from_length (x : Z) (v : list Z) (i : nat) :
  length (where_from x v i) = length (filter (fun o => Z.eqb o x) v).
Proof.
  revert i. induction v as [|y v IH]; intros i; simpl.
  - reflexivity.
  - destruct (Z.eqb y x); simpl; now rewrite IH.
Qed.

Lemma occupation_counts (occ : list Z) :
  let c1 := length (where_eq 1%Z occ) in
  let c0 := length (where_eq 0%Z occ) in
  c1 <= kernel_nocc occ /\ kernel_nocc occ + c0 <= length occ
  /\ ((c1 = kernel_nocc occ /\ kernel_nocc occ + c0 = length occ)
      <-> Forall (fun o => o = 0%Z \/ o = 1%Z) occ).
Proof.
  cbn zeta. unfold where_eq, kernel_nocc. rewrite !where_from_length.
  induction occ as [|o occ (IH1 & IH2 & IH3)]; simpl.
  - repeat split; try lia. constructor.
  - destruct (Z.eqb_spec o 1) as [->|H1]; simpl.
    + split; [lia|]. split; [lia|]. rewrite Forall_cons_iff, <- IH3.
      intuition lia.
    + destruct (Z.eqb_spec o 0) as [->|H0]; simpl.
      * split; [lia|]. split; [lia|]. rewrite Forall_cons_iff, <- IH3.
        intuition lia.
      * destruct (Z.ltb_spec 0 o); simpl.
        -- split; [lia|]. split; [lia|]. rewrite Forall_cons_iff.
           split; [lia | intros [[?|?] _]; lia].
        -- split; [lia|]. split; [lia|]. rewrite Forall_cons_iff.
           split; [lia | intros [[?|?] _]; lia].
Qed.

Context {K : Type} {SK : Scalar K}.
Local Abbreviation C := (cplx K).

(** X9.  The kernels count the occupied orbitals as those of positive
    occupation and the virtual ones as all others, the operator builders as
    those of occupation exactly 1 and exactly 0.  The two pairs of counts
    agree if and only if every occupation is 0 or 1. *)
Theorem kernel_counts_agree (mf : SCF K) :
  (kernel_nocc (mo_occ mf) = nocc mf /\ kernel_nvir (mo_occ mf) = nvir mf)
  <-> Forall (fun o => o = 0%Z \/ o = 1%Z) (mo_occ mf).
Proof.
  destruct (occupation_counts (mo_occ mf)) as (H1 & H2 & H3).
  cbn zeta in *. rewrite <- H3.
  unfold kernel_nvir, kernel_nmo, nocc, nvir, occidx, viridx. lia.
Qed.

Lemma reshape_root_ok (n_occ n_vir : nat) (xi : list C) :
  length xi = n_occ * n_vir ->
  reshape_root n_occ n_vir xi
  = Ok (tab n_occ (fun i => tab n_vir (fun a => get1 xi (i * n_vir + a)))).
Proof. intros H. unfold reshape_root. now rewrite H, Nat.eqb_refl. Qed.

(** X10.  For occupations 0 and 1, the final reshape of [TDA.kernel]
    accepts every list of roots that have the width [nocc*nvir] of the
    operator's trial vectors: it returns one pair per root, whose X block
    holds the entries of the root in row-major order and whose Y is 0. *)
Theorem tda_xy_reshapes_roots (mf : SCF K) (x1 : list (list C)) :
  Forall (fun o => o = 0%Z \/ o = 1%Z) (mo_occ mf) ->
  Forall (fun xi => length xi = nocc mf * nvir mf) x1 ->
  exists xy,
    tda_xy (mo_occ mf) x1 = Ok xy
    /\ length xy = length x1
    /\ forall n, n < length x1 ->
         snd (nth n xy ([], 0%Z)) = 0%Z
         /\ length (fst (nth n xy ([], 0%Z))) = nocc mf
         /\ concat (fst (nth n xy ([], 0%Z))) = nth n x1 [].
Proof.
  intros Hocc Hx1.
  destruct (occupation_counts (mo_occ mf)) as (H1 & H2 & H3).
  cbn zeta in *. apply H3 in Hocc. destruct Hocc as [Ho' Hv'].
  assert (Ho : kernel_nocc (mo_occ mf) = nocc mf)
    by (unfold nocc, occidx; lia).
  assert (Hv : kernel_nvir (mo_occ mf) = nvir mf)
    by (unfold kernel_nvir, kernel_nmo, nvir, viridx; lia).
  clear H1 H2 H3 Ho' Hv'.
  induction Hx1 as [|xi x1 Hxi _ IH].
  - exists []. split; [reflexivity|]. split; [reflexivity|].
    intros n Hn. simpl in Hn. lia.
  - destruct IH as (xy & Hrun & Hlen & Hrows).
    cbn [tda_xy]. rewrite Ho, Hv in *.
    rewrite (reshape_root_ok _ _ xi Hxi), Hrun.
    eexists. split; [reflexivity|]. split; [simpl; now rewrite Hlen|].
    intros [|n] Hn; simpl in Hn.
    + cbn [nth fst snd]. split; [reflexivity|].
      split; [apply tab_length|].
      apply nth_ext with (d := c0) (d' := c0).
      * rewrite Hxi. apply concat_tab_length. intros; apply tab_length.
      * intros j Hj.
        rewrite (concat_tab_length (m := nvir mf)) in Hj
          by (intros; apply tab_length).
        assert (Hv0 : nvir mf <> 0) by nia.
        rewrite (Nat.div_mod_eq j (nvir mf)).
        rewrite (Nat.mul_comm (nvir mf)).
        rewrite nth_concat_tab;
          [| intros; apply tab_length
           | apply Nat.Div0.div_lt_upper_bound; nia
           | now apply Nat.mod_upper_bound].
        rewrite nth_tab by now apply Nat.mod_upper_bound.
        reflexivity.
    + apply Hrows. lia.
Qed.

End KernelCounts.

(** X11.  For occupations 0 and 1, [TDHF.kernel] normalises every list of
    roots that have the width [2*nocc*nvir] of the operator's trial
    vectors: [norm_xy] is applied to each root with the counts of the
    operator and no reshape fails. *)
Theorem tdhf_xy_normalises_roots {F : Type} {AF : Arith F} (occ : list Z)
  (x1 : list (list (amp (F := F)))) :
  let n_occ := length (where_eq 1%Z occ) in
  let n_vir := length (where_eq 0%Z occ) in
  Forall (fun o => o = 0%Z \/ o = 1%Z) occ ->
  Forall (fun z => length z = 2 * n_occ * n_vir) x1 ->
  exists xys,
    tdhf_xy occ x1 = Ok xys
    /\ length xys = length x1
    /\ forall n, n < length x1 ->
         norm_xy n_occ n_vir (nth n x1 []) = Ok (nth n xys ([], [])).
Proof.
  intros n_occ n_vir Hocc Hx1.
  destruct (occupation_counts occ) as (H1 & H2 & H3). cbn zeta in *.
  apply H3 in Hocc. destruct Hocc as [Ho Hv].
  assert (Hv' : kernel_nvir occ = n_vir)
    by (unfold kernel_nvir, kernel_nmo, n_vir; lia).
  fold n_occ in Ho.
  induction Hx1 as [|z x1 Hz _ IH].
  - exists []. split; [reflexivity|]. split; [reflexivity|].
    intros n Hn. simpl in Hn. lia.
  - destruct IH as (xys & Hrun & Hlen & Hrows).
    cbn [tdhf_xy]. rewrite <- Ho, Hv', Hrun.
    rewrite (norm_xy_ok n_occ n_vir z Hz).
    eexists. split; [reflexivity|]. split; [simpl; now rewrite Hlen|].
    intros [|n] Hn; simpl in Hn.
    + cbn [nth]. apply (norm_xy_ok n_occ n_vir z Hz).
    + cbn [nth]. apply Hrows. lia.
Qed.

(** ** Further properties of the initial guess *)

Section GuessMore.
Local Open Scope Q_scope.

Lemma combine_map_self {A B : Type} (f : A -> B) (l : list A) :
  combine l (map f l) = map (fun x => (x, f x)) l.
Proof. induction l as [|x l IH]; simpl; [reflexivity | now rewrite IH]. Qed.

Lemma map_as_tab {A B : Type} (f : A -> B) (l : list A) (d : A) :
  map f l = tab (length l) (fun k => f (nth k l d)).
Proof. rewrite <- (tab_nth l d) at 1. apply map_tab. Qed.

Lemma filter_all {A : Type} (f : A -> bool) (l : list A) :
  (forall x, In x l -> f x = true) -> filter f l = l.
Proof.
  induction l as [|x l IH]; intros H; simpl.
  - reflexivity.
  - rewrite H by now left. rewrite IH; [reflexivity|].
    intros y Hy. apply H. now right.
Qed.

Lemma seq_increasing (a n : nat) : StronglySorted lt (seq a n).
Proof.
  revert a. induction n as [|n IH]; intros a; simpl; constructor.
  - apply IH.
  - apply Forall_forall. intros k Hk. apply in_seq in Hk. lia.
Qed.

Lemma filter_increasing (f : nat -> bool) (l : list nat) :
  StronglySorted lt l -> StronglySorted lt (filter f l).
Proof.
  induction 1 as [|k l Hs IH Hk]; simpl.
  - constructor.
  - destruct (f k); [|exact IH]. constructor; [exact IH|].
    apply Forall_forall. intros j Hj. apply filter_In in Hj.
    rewrite Forall_forall in Hk. now apply Hk.
Qed.

Lemma where_le_increasing (e : list Q) (t : Q) :
  StronglySorted lt (where_le e t).
Proof. apply filter_increasing, seq_increasing. Qed.

Lemma where_le_all (e : list Q) (t : Q) :
  (forall k, (k < length e)%nat -> nth k e 0 <= t) ->
  where_le e t = seq 0 (length e).
Proof.
  intros H. apply filter_all. intros k Hk. apply in_seq in Hk.
  apply Qle_bool_iff, H. lia.
Qed.

Lemma fold_max_In (e : list Q) (x : Q) :
  fold_left (fun m y => if Qle_bool y m then m else y) e x = x
  \/ In (fold_left (fun m y => if Qle_bool y m then m else y) e x) e.
Proof.
  revert x. induction e as [|y e IH]; intros x; simpl.
  - now left.
  - destruct (Qle_bool y x).
    + destruct (IH x) as [H|H]; [now left | right; now right].
    + destruct (IH y) as [H|H]; [right; left; now rewrite H | right; now right].
Qed.

Lemma array_max_In (e : list Q) (m : Q) : array_max e = Some m -> In m e.
Proof.
  destruct e as [|x e]; simpl; [discriminate|]. intros [= <-].
  destruct (fold_max_In e x) as [H|H]; [left; now rewrite H | now right].
Qed.

Lemma py_min_le_l (a b : Q) : py_min a b <= a.
Proof.
  unfold py_min. destruct (Qle_bool a b) eqn:H; [lra|].
  apply Qle_bool_false in H. exact H.
Qed.

(** *** What [select_guess] returns *)

Lemma py_index_argsort (e : list Q) (k : Z) :
  (- Z.of_nat (length e) <= k < Z.of_nat (length e))%Z ->
  exists j, py_index (argsort e) k = Some j /\ (j < length e)%nat.
Proof.
  intros Hk. unfold py_index. rewrite argsort_length.
  assert (Hget : forall p, (p < length e)%nat ->
            exists j, nth_error (argsort e) p = Some j /\ (j < length e)%nat).
  { intros p Hp. exists (nth p (argsort e) 0%nat). split.
    - apply nth_error_nth'. now rewrite argsort_length.
    - apply argsort_lt, nth_In. now rewrite argsort_length. }
  destruct (Z.leb_spec 0 k).
  - apply Hget. lia.
  - destruct (Z.leb_spec (- Z.of_nat (length e)) k); [|lia].
    apply Hget. lia.
Qed.

Lemma select_guess_inv (e : list Q) (m : Q) (n : Z) (x0 : list (list Q)) :
  select_guess e m n = Ok x0 ->
  exists j, (j < length e)%nat
    /\ x0 = map (unit_vector (length e))
              (where_le e (py_min m (nth j e 0) + degeneracy_tol)).
Proof.
  unfold select_guess.
  destruct (py_index (argsort e) (Z.min n (Z.of_nat (length e)) - 1))
    as [j|] eqn:Hj; [|discriminate].
  intros [= <-]. exists j. split; [|reflexivity].
  apply argsort_lt. unfold py_index in Hj.
  destruct (0 <=? _)%Z; [now apply nth_error_In in Hj|].
  destruct (_ <=? _)%Z; [now apply nth_error_In in Hj | discriminate].
Qed.

(** A count of states that is zero or negative is a Python index from the
    end of the sorted gaps. *)
Lemma select_guess_wrap (e : list Q) (m : Q) (n : Z) :
  (- Z.of_nat (length e) < n <= 0)%Z ->
  select_guess e m n = select_guess e m (n + Z.of_nat (length e)).
Proof.
  intros Hn. unfold select_guess.
  rewrite (Z.min_l n) by lia. rewrite (Z.min_l (n + _)) by lia.
  unfold py_index. rewrite argsort_length.
  replace (0 <=? n - 1)%Z with false by (symmetry; apply Z.leb_gt; lia).
  replace (- Z.of_nat (length e) <=? n - 1)%Z with true
    by (symmetry; apply Z.leb_le; lia).
  replace (0 <=? n + Z.of_nat (length e) - 1)%Z with true
    by (symmetry; apply Z.leb_le; lia).
  now replace (Z.of_nat (length e) + (n - 1))%Z
    with (n + Z.of_nat (length e) - 1)%Z by lia.
Qed.

Lemma select_guess_clamp (e : list Q) (m : Q) (n : Z) :
  (Z.of_nat (length e) <= n)%Z ->
  select_guess e m n = select_guess e m (Z.of_nat (length e)).
Proof.
  intros Hn. unfold select_guess.
  now rewrite (Z.min_r n), Z.min_id by lia.
Qed.

(** With all the states asked for, the threshold is the largest gap. *)
Lemma select_guess_all (e : list Q) (m : Q) :
  (0 < length e)%nat -> (forall g, In g e -> g <= m) ->
  select_guess e m (Z.of_nat (length e))
  = Ok (tab (length e) (unit_vector (length e))).
Proof.
  intros Hpos Hmax.
  destruct (@select_guess_run e m (Z.of_nat (length e)))
    as (Hk & Hj & _ & Hrun); [lia | exact Hmax |].
  rewrite Hrun. f_equal. unfold tab. f_equal.
  apply where_le_all. intros k Hk'.
  set (last := Z.to_nat (Z.of_nat (length e) - 1)) in *.
  assert (Hin : In k (argsort e)).
  { apply (Permutation_in _ (Permutation_sym (argsort_perm e))).
    apply in_seq. lia. }
  apply (In_nth _ _ 0%nat) in Hin. destruct Hin as (r & Hr & <-).
  rewrite argsort_length in Hr.
  assert (Htol : 0 <= degeneracy_tol) by (unfold degeneracy_tol; lra).
  destruct (Nat.eq_dec r last) as [->|Hne]; [lra|].
  assert (Hle : key_le e (nth r (argsort e) 0%nat)
                  (nth last (argsort e) 0%nat)).
  { apply (StronglySorted_nth (R := key_le e) 0%nat (argsort_sorted e)).
    - unfold last. lia.
    - now rewrite argsort_length. }
  unfold key_le in Hle. lra.
Qed.

(** *** The gaps and their masked copy *)

Variable mf : SCF Q.

Lemma guess_e_ia_tab :
  guess_e_ia mf
  = tab (length (guess_occidx mf)) (fun i =>
      tab (length (guess_viridx mf)) (fun a =>
        nth (nth a (guess_viridx mf) 0%nat) (mo_energy mf) 0
        - nth (nth i (guess_occidx mf) 0%nat) (mo_energy mf) 0)).
Proof.
  unfold guess_e_ia. rewrite (map_as_tab _ (guess_occidx mf) 0%nat).
  apply tab_ext; intros i _.
  now rewrite (map_as_tab _ (guess_viridx mf) 0%nat).
Qed.

Lemma guess_mask_tab (w : Z) :
  mol_symmetry mf = true ->
  guess_mask mf (Some w) (guess_e_ia mf)
  = tab (length (guess_occidx mf)) (fun i =>
      tab (length (guess_viridx mf)) (fun a =>
        if guess_forbid mf w (nth i (guess_occidx mf) 0%nat)
             (nth a (guess_viridx mf) 0%nat)
        then sentinel
        else nth (nth a (guess_viridx mf) 0%nat) (mo_energy mf) 0
             - nth (nth i (guess_occidx mf) 0%nat) (mo_energy mf) 0)).
Proof.
  intros Hsym. unfold guess_mask, guess_e_ia. rewrite Hsym.
  rewrite combine_map_self, map_map, (map_as_tab _ (guess_occidx mf) 0%nat).
  apply tab_ext; intros i _.
  rewrite combine_map_self, map_map.
  now rewrite (map_as_tab _ (guess_viridx mf) 0%nat).
Qed.

Lemma guess_nov_pairs :
  guess_nov mf = (length (guess_occidx mf) * length (guess_viridx mf))%nat.
Proof.
  unfold guess_nov. rewrite guess_e_ia_tab. apply concat_tab_length.
  intros; apply tab_length.
Qed.

Lemma guess_e_ia_length : length (concat (guess_e_ia mf)) = guess_nov mf.
Proof. reflexivity. Qed.

Lemma guess_mask_length (wfnsym : option Z) :
  length (concat (guess_mask mf wfnsym (guess_e_ia mf))) = guess_nov mf.
Proof.
  destruct (sym_active mf wfnsym) eqn:Hact.
  - unfold sym_active in Hact. destruct wfnsym as [w|]; [|discriminate].
    rewrite (guess_mask_tab w Hact), guess_nov_pairs.
    apply concat_tab_length. intros; apply tab_length.
  - rewrite (guess_mask_inactive mf wfnsym _ Hact). apply guess_e_ia_length.
Qed.

Lemma init_guess_inv (nstates : Z) (wfnsym : option Z)
  (x0 : list (list Q)) :
  init_guess mf nstates wfnsym = Ok x0 ->
  exists m j,
    array_max (concat (guess_e_ia mf)) = Some m
    /\ (j < guess_nov mf)%nat
    /\ x0 = map (unit_vector (guess_nov mf))
              (where_le (concat (guess_mask mf wfnsym (guess_e_ia mf)))
                 (py_min m (nth j (concat (guess_mask mf wfnsym
                                             (guess_e_ia mf))) 0)
                  + degeneracy_tol)).
Proof.
  unfold init_guess.
  destruct (array_max (concat (guess_e_ia mf))) as [m|]; [|discriminate].
  intros H. apply select_guess_inv in H. destruct H as (j & Hj & ->).
  rewrite guess_mask_length in *. now exists m, j.
Qed.

Lemma init_guess_rows_idx (nstates : Z) (wfnsym : option Z)
  (x0 : list (list Q)) :
  init_guess mf nstates wfnsym = Ok x0 ->
  exists idx,
    x0 = map (unit_vector (guess_nov mf)) idx
    /\ Forall (fun j => (j < guess_nov mf)%nat) idx.
Proof.
  intros H. apply init_guess_inv in H. destruct H as (m & j & _ & _ & ->).
  eexists. split; [reflexivity|].
  apply Forall_forall. intros k Hk. apply where_le_In in Hk.
  rewrite guess_mask_length in Hk. tauto.
Qed.

(** X12.  [init_guess] raises [ValueError] exactly when there is no pair of
    an orbital of occupation 2 and one of occupation 0 (the array of gaps is
    empty); otherwise it raises [IndexError] when [nstates <= -nov], an
    index before the start of the sorted gaps, and returns a guess for every
    other [nstates], positive or not. *)
Theorem init_guess_outcome (nstates : Z) (wfnsym : option Z) :
  (guess_nov mf = 0%nat -> init_guess mf nstates wfnsym = ValueError)
  /\ ((0 < guess_nov mf)%nat -> (nstates <= - Z.of_nat (guess_nov mf))%Z ->
      init_guess mf nstates wfnsym = IndexError)
  /\ ((0 < guess_nov mf)%nat -> (- Z.of_nat (guess_nov mf) < nstates)%Z ->
      exists x0, init_guess mf nstates wfnsym = Ok x0).
Proof.
  unfold init_guess. pose proof guess_e_ia_length as He.
  pose proof (guess_mask_length wfnsym) as Hm.
  split; [|split].
  - intros H0. rewrite H0 in He.
    destruct (concat (guess_e_ia mf)); [reflexivity | discriminate].
  - intros Hpos Hn.
    destruct (array_max (concat (guess_e_ia mf))) as [m|] eqn:Hmax.
    + unfold select_guess, py_index. rewrite argsort_length, Hm.
      rewrite Z.min_l by lia.
      replace (0 <=? nstates - 1)%Z with false
        by (symmetry; apply Z.leb_gt; lia).
      now replace (- Z.of_nat (guess_nov mf) <=? nstates - 1)%Z with false
        by (symmetry; apply Z.leb_gt; lia).
    + destruct (concat (guess_e_ia mf)); [simpl in He; lia | discriminate].
  - intros Hpos Hn.
    destruct (array_max (concat (guess_e_ia mf))) as [m|] eqn:Hmax.
    + unfold select_guess.
      destruct (@py_index_argsort
                  (concat (guess_mask mf wfnsym (guess_e_ia mf)))
                  (Z.min nstates (Z.of_nat (length (concat
                     (guess_mask mf wfnsym (guess_e_ia mf))))) - 1))
        as (j & -> & _); [rewrite Hm; lia|].
      eexists. reflexivity.
    + destruct (concat (guess_e_ia mf)); [simpl in He; lia | discriminate].
Qed.

(** X13.  Whenever [init_guess] returns, the rows of [x0] are unit vectors
    of length [nov], one for each selected pair, in strictly ascending order
    of the raveled pair index (not of the gap); in particular no two rows
    are equal. *)
Theorem init_guess_rows_ascending (nstates : Z) (wfnsym : option Z)
  (x0 : list (list Q)) :
  init_guess mf nstates wfnsym = Ok x0 ->
  exists idx,
    x0 = map (unit_vector (guess_nov mf)) idx
    /\ StronglySorted lt idx
    /\ Forall (fun j => (j < guess_nov mf)%nat) idx
    /\ Forall (fun row => length row = guess_nov mf) x0.
Proof.
  intros H. apply init_guess_inv in H. destruct H as (m & j & _ & _ & ->).
  eexists. split; [reflexivity|]. split; [apply where_le_increasing|].
  split.
  - apply Forall_forall. intros k Hk. apply where_le_In in Hk.
    rewrite guess_mask_length in Hk. tauto.
  - apply Forall_forall. intros row Hrow. apply in_map_iff in Hrow.
    destruct Hrow as (k & <- & _). apply tab_length.
Qed.

(** X14.  The count of states is clamped from above and wraps from below:
    [nstates >= nov] gives the guess of [nstates = nov], and
    [-nov < nstates <= 0] the guess of [nstates + nov]; so [nstates = 0]
    asks for all [nov] states, not for none. *)
Theorem init_guess_nstates_wraps (nstates : Z) (wfnsym : option Z) :
  ((Z.of_nat (guess_nov mf) <= nstates)%Z ->
   init_guess mf nstates wfnsym
   = init_guess mf (Z.of_nat (guess_nov mf)) wfnsym)
  /\ ((- Z.of_nat (guess_nov mf) < nstates <= 0)%Z ->
      init_guess mf nstates wfnsym
      = init_guess mf (nstates + Z.of_nat (guess_nov mf)) wfnsym).
Proof.
  unfold init_guess. pose proof (guess_mask_length wfnsym) as Hm.
  split; intros Hn;
    destruct (array_max (concat (guess_e_ia mf))); try reflexivity.
  - rewrite <- Hm in *. now apply select_guess_clamp.
  - rewrite <- Hm in *. now apply select_guess_wrap.
Qed.

(** X15.  Without symmetry filter, asking for all the states, with
    [nstates >= nov] or with [nstates = 0], returns the [nov x nov]
    identity matrix: every pair once, in the order of the pairs. *)
Theorem init_guess_all_states (nstates : Z) (wfnsym : option Z) :
  sym_active mf wfnsym = false -> (0 < guess_nov mf)%nat ->
  (Z.of_nat (guess_nov mf) <= nstates)%Z \/ nstates = 0%Z ->
  init_guess mf nstates wfnsym
  = Ok (tab (guess_nov mf) (unit_vector (guess_nov mf))).
Proof.
  intros Hact Hpos Hn. unfold init_guess.
  rewrite (guess_mask_inactive mf wfnsym _ Hact).
  pose proof guess_e_ia_length as He.
  destruct (array_max (concat (guess_e_ia mf))) as [m|] eqn:Hmax.
  - rewrite <- He in *.
    assert (Hall : select_guess (concat (guess_e_ia mf)) m
                     (Z.of_nat (length (concat (guess_e_ia mf))))
                   = Ok (tab (length (concat (guess_e_ia mf)))
                           (unit_vector (length (concat (guess_e_ia mf)))))).
    { apply select_guess_all; [exact Hpos|]. now apply array_max_bound. }
    destruct Hn as [Hn | ->].
    + now rewrite select_guess_clamp.
    + rewrite select_guess_wrap by lia. exact Hall.
  - destruct (concat (guess_e_ia mf)); [simpl in He; lia | discriminate].
Qed.

(** X16.  With the symmetry filter, and gaps that stay below the sentinel
    [1e99] by more than the tolerance, no symmetry-forbidden pair is
    selected, whatever [nstates]: every row of [x0] is the unit vector of a
    pair [(i,a)] whose irreps combine to the target irrep. *)
Theorem init_guess_skips_forbidden (nstates w : Z) (x0 : list (list Q)) :
  mol_symmetry mf = true ->
  (forall g, In g (concat (guess_e_ia mf)) -> g + degeneracy_tol < sentinel) ->
  init_guess mf nstates (Some w) = Ok x0 ->
  exists idx,
    x0 = map (unit_vector (guess_nov mf)) idx
    /\ forall i a,
         (i < length (guess_occidx mf))%nat ->
         (a < length (guess_viridx mf))%nat ->
         In (i * length (guess_viridx mf) + a)%nat idx ->
         guess_forbid mf w (nth i (guess_occidx mf) 0%nat)
           (nth a (guess_viridx mf) 0%nat) = false.
Proof.
  intros Hsym Hbelow H. apply init_guess_inv in H.
  destruct H as (m & j & Hmax & _ & ->).
  eexists. split; [reflexivity|].
  intros i a Hi Ha Hin. apply where_le_In in Hin. destruct Hin as [_ Hle].
  rewrite (guess_mask_tab w Hsym) in Hle.
  rewrite nth_concat_tab in Hle
    by (try assumption; intros; apply tab_length).
  rewrite (nth_tab _ _ Ha) in Hle.
  destruct (guess_forbid mf w _ _); [|reflexivity].
  exfalso.
  match type of Hle with _ <= py_min m ?b + _ =>
    pose proof (py_min_le_l m b) as Hmin
  end.
  specialize (Hbelow m (array_max_In _ Hmax)). lra.
Qed.

(** *** The TDHF guess *)

Lemma seq_add_map (n m : nat) :
  seq n m = map (fun k => (n + k)%nat) (seq 0 m).
Proof.
  induction n as [|n IH]; simpl.
  - now rewrite map_id.
  - rewrite <- seq_shift, IH, map_map. reflexivity.
Qed.

Lemma tab_app {A : Type} (n m : nat) (f : nat -> A) :
  tab (n + m) f = tab n f ++ tab m (fun k => f (n + k)%nat).
Proof.
  unfold tab. rewrite seq_app, map_app. simpl.
  now rewrite (seq_add_map n m), map_map.
Qed.

(** [hstack((x, zeros_like(x)))] of a unit vector is a unit vector. *)
Lemma unit_vector_pad (n j : nat) :
  (j < n)%nat ->
  unit_vector n j ++ map (fun _ => 0) (unit_vector n j)
  = unit_vector (2 * n) j.
Proof.
  intros Hj. unfold unit_vector.
  replace (2 * n)%nat with (n + n)%nat by lia.
  rewrite tab_app, map_tab. f_equal.
  apply tab_ext; intros k _.
  now replace (n + k =? j)%nat with false by (symmetry; apply Nat.eqb_neq; lia).
Qed.

(** X17.  [TDHF.init_guess] returns, for the pairs that [TDA.init_guess]
    selects, the unit vectors of length [2*nov] with the one in the X half:
    the Y half of every row is zero; and it raises what [TDA.init_guess]
    raises. *)
Theorem tdhf_init_guess_layout (nstates : Z) (wfnsym : option Z) :
  match init_guess mf nstates wfnsym with
  | Ok x0 =>
      exists idx,
        Forall (fun j => (j < guess_nov mf)%nat) idx
        /\ x0 = map (unit_vector (guess_nov mf)) idx
        /\ tdhf_init_guess mf nstates wfnsym
           = Ok (map (unit_vector (2 * guess_nov mf)) idx)
  | ValueError => tdhf_init_guess mf nstates wfnsym = ValueError
  | IndexError => tdhf_init_guess mf nstates wfnsym = IndexError
  | NotImplementedError =>
      tdhf_init_guess mf nstates wfnsym = NotImplementedError
  end.
Proof.
  unfold tdhf_init_guess.
  destruct (init_guess mf nstates wfnsym) as [x0| | |] eqn:H;
    try reflexivity.
  destruct (@init_guess_rows_idx nstates wfnsym x0 H) as (idx & -> & Hlt).
  exists idx. split; [exact Hlt|]. split; [reflexivity|].
  f_equal. rewrite map_map. apply map_ext_in. intros j Hj.
  apply unit_vector_pad. rewrite Forall_forall in Hlt. now apply Hlt.
Qed.

(** X18.  [init_guess] reads the target irrep as the builders do: it is
    ignored for a molecule without point-group symmetry, and reduced
    modulo 10 otherwise. *)
Theorem init_guess_wfnsym_label (nstates w k : Z) (wfnsym : option Z) :
  (mol_symmetry mf = false ->
   init_guess mf nstates wfnsym = init_guess mf nstates None)
  /\ init_guess mf nstates (Some (w + k * 10)%Z)
     = init_guess mf nstates (Some w).
Proof.
  split.
  - intros Hsym. unfold init_guess.
    rewrite (guess_mask_inactive mf wfnsym); [reflexivity|].
    unfold sym_active. destruct wfnsym; [exact Hsym | reflexivity].
  - unfold init_guess, guess_mask, guess_forbid.
    now rewrite Z_mod_plus_full.
Qed.

End GuessMore.

(** ** Further properties of the normalisation *)

Section NormMore.
Local Open Scope R_scope.

Lemma scale_block_one (x : list (list (R * R))) : scale_block x 1 = x.
Proof.
  unfold scale_block. cbn [fmul R_arith].
  transitivity (map (fun row : list (R * R) => row) x); [|apply map_id].
  apply map_ext; intros row.
  transitivity (map (fun e : R * R => e) row); [|apply map_id].
  apply map_ext; intros [a b]; simpl. f_equal; lra.
Qed.

Lemma scale_block_twice (x : list (list (R * R))) (c s : R) :
  scale_block (scale_block x c) s = scale_block x (c * s).
Proof.
  unfold scale_block. cbn [fmul R_arith]. rewrite map_map.
  apply map_ext; intros row. rewrite map_map.
  apply map_ext; intros [a b]; simpl. f_equal; ring.
Qed.

(** The blocks of a scaled root are the scaled blocks. *)
Lemma block_of_scale (n_occ n_vir off : nat) (z : list (R * R)) (c : R) :
  (off + n_occ * n_vir <= length z)%nat ->
  block_of n_occ n_vir off (map (fun e => (fst e * c, snd e * c)) z)
  = scale_block (block_of n_occ n_vir off z) c.
Proof.
  intros Hlen. unfold block_of, scale_block. cbn [fmul f0 R_arith].
  rewrite map_tab. apply tab_ext; intros i Hi.
  rewrite map_tab. apply tab_ext; intros a Ha.
  assert (Hk : (off + (i * n_vir + a) < length z)%nat) by nia.
  rewrite (nth_indep _ (0, 0)
             ((fun e : R * R => (fst e * c, snd e * c)) (0, 0)))
    by now rewrite length_map.
  now rewrite (map_nth (fun e : R * R => (fst e * c, snd e * c))).
Qed.

(** X19.  In exact arithmetic [norm_xy] leaves a normalised root as it is:
    when ‖X‖²−‖Y‖² = 1 for the two blocks of [z], it returns these blocks
    unchanged. *)
Theorem norm_xy_fixes_normalised (n_occ n_vir : nat) (z : list (R * R)) :
  length z = (2 * n_occ * n_vir)%nat ->
  indefinite_norm2 (block_of n_occ n_vir 0 z)
    (block_of n_occ n_vir (n_occ * n_vir) z) = 1 ->
  norm_xy n_occ n_vir z
  = Ok (block_of n_occ n_vir 0 z, block_of n_occ n_vir (n_occ * n_vir) z).
Proof.
  intros Hlen Hone. rewrite (norm_xy_ok n_occ n_vir z Hlen).
  cbn [fsqrt fsub fmul fdiv f1 R_arith]. rewrite !lib_norm_sqr.
  unfold indefinite_norm2 in Hone. rewrite Hone.
  replace (1 / 1) with 1 by lra. rewrite sqrt_1.
  now rewrite !scale_block_one.
Qed.

(** X20.  In exact arithmetic the result of [norm_xy] does not depend on
    the scale of the root: for a root of positive indefinite norm and a
    factor [c > 0], the root [c*z] is normalised to the same pair of blocks
    as [z]. *)
Theorem norm_xy_scale_invariant (n_occ n_vir : nat) (z : list (R * R))
  (c : R) :
  length z = (2 * n_occ * n_vir)%nat ->
  0 < c ->
  0 < indefinite_norm2 (block_of n_occ n_vir 0 z)
        (block_of n_occ n_vir (n_occ * n_vir) z) ->
  norm_xy n_occ n_vir (map (fun e => (fst e * c, snd e * c)) z)
  = norm_xy n_occ n_vir z.
Proof.
  intros Hlen Hc Hpos.
  rewrite (norm_xy_ok n_occ n_vir z Hlen).
  rewrite norm_xy_ok by now rewrite length_map.
  rewrite !block_of_scale by lia.
  set (x := block_of n_occ n_vir 0 z) in *.
  set (y := block_of n_occ n_vir (n_occ * n_vir) z) in *.
  cbn [fsqrt fsub fmul fdiv f1 R_arith]. rewrite !lib_norm_sqr.
  rewrite !frobenius2_scale, !scale_block_twice.
  unfold indefinite_norm2 in Hpos.
  assert (Hs : c * sqrt (1 / (c * c * frobenius2 x - c * c * frobenius2 y))
               = sqrt (1 / (frobenius2 x - frobenius2 y))).
  { assert (Hcc : 0 < c * c * (frobenius2 x - frobenius2 y))
      by (apply Rmult_lt_0_compat; [apply Rmult_lt_0_compat|]; assumption).
    replace (1 / (c * c * frobenius2 x - c * c * frobenius2 y))
      with ((1 / c) * (1 / c) * (1 / (frobenius2 x - frobenius2 y)))
      by (field; repeat split; lra).
    assert (Hic : 0 <= 1 / c).
    { apply Rlt_le. unfold Rdiv. rewrite Rmult_1_l.
      now apply Rinv_0_lt_compat. }
    rewrite sqrt_mult_alt by nra.
    rewrite sqrt_square by exact Hic. field. lra. }
  now rewrite Hs.
Qed.

End NormMore.

(** ** The further properties of the operators on [sym_mf] and [toy_mf] *)


(** Two trial vectors that differ at the forbidden pair [(0,1)] only. *)
Lemma vind_reads_allowed_only_witness :
  fst (gen_tda_operation sym_mf None (Some 0%Z)) [[(1, 0); (7, 0)]%Z]
  = fst (gen_tda_operation sym_mf None (Some 0%Z)) [[(1, 0); (9, 0)]%Z]
  /\ fst (gen_tdhf_operation sym_mf None (Some 0%Z))
       [[(1, 0); (7, 0); (2, 0); (5, 0)]%Z]
     = fst (gen_tdhf_operation sym_mf None (Some 0%Z))
         [[(1, 0); (8, 0); (2, 0); (6, 0)]%Z].
Proof.
  apply (vind_reads_allowed_only sym_mf None (Some 0%Z)
           [[(1, 0); (7, 0)]%Z] [[(1, 0); (9, 0)]%Z]
           [[(1, 0); (7, 0); (2, 0); (5, 0)]%Z]
           [[(1, 0); (8, 0); (2, 0); (6, 0)]%Z]);
    try reflexivity.
  - intros x i a Hx Hi Ha Hf.
    change (nocc sym_mf) with 1 in Hi. change (nvir sym_mf) with 2 in Ha.
    simpl in Hx.
    assert (x = 0) by lia. assert (i = 0) by lia.
    assert (Ha' : a = 0 \/ a = 1) by lia. subst x i.
    destruct Ha' as [-> | ->]; [reflexivity | cbv in Hf; discriminate].
  - intros x i a Hx Hi Ha Hf.
    change (nocc sym_mf) with 1 in Hi. change (nvir sym_mf) with 2 in Ha.
    simpl in Hx.
    assert (x = 0) by lia. assert (i = 0) by lia.
    assert (Ha' : a = 0 \/ a = 1) by lia. subst x i.
    destruct Ha' as [-> | ->];
      [split; reflexivity | cbv in Hf; discriminate].
Defined.

(** [toy_mf] has no point-group symmetry: irrep 3 is ignored. *)
Lemma wfnsym_ignored_without_symmetry_witness :
  snd (gen_tda_operation toy_mf None (Some 3%Z)) = [3%Z]
  /\ fst (gen_tda_operation toy_mf None (Some 3%Z)) [[(1, 0)%Z]]
     = fst (gen_tda_operation toy_mf None None) [[(1, 0)%Z]].
Proof.
  destruct (wfnsym_ignored_without_symmetry toy_mf None (Some 3%Z)
              [[(1, 0)%Z]] eq_refl) as (H1 & _ & H3 & _).
  split; [rewrite H1; reflexivity | exact H3].
Defined.

(** The forbidden pair [(0,1)] of [sym_mf]: positions 1 and 3 of the
    images. *)
Lemma vind_image_projected_witness :
  get2 [[(3, 0); (0, 0)]%Z] 0 1 = c0
  /\ get2 [[(3, 0); (0, 0); (-6, 0); (0, 0)]%Z] 0 1 = c0
  /\ get2 [[(3, 0); (0, 0); (-6, 0); (0, 0)]%Z] 0 3 = c0.
Proof.
  apply (@vind_image_projected Z _ Z_ring sym_mf None (Some 0%Z)
           [[(1, 0); (7, 0)]%Z] [[(1, 0); (7, 0); (2, 0); (5, 0)]%Z]
           [[(3, 0); (0, 0)]%Z] [[(3, 0); (0, 0); (-6, 0); (0, 0)]%Z]
           0 0 1).
  - reflexivity.
  - reflexivity.
  - vm_compute. lia.
  - vm_compute. lia.
  - reflexivity.
Defined.

(** [sym_mf] has no density response: the images are the trial vectors
    times the diagonals [(3, 0)] and [(3, 0, -3, 0)]. *)
Lemma vind_is_diagonal_without_response_witness :
  exists r r',
    fst (gen_tda_operation sym_mf None (Some 0%Z)) [[(1, 0); (7, 0)]%Z]
    = Some r
    /\ fst (gen_tdhf_operation sym_mf None (Some 0%Z))
         [[(1, 0); (7, 0); (2, 0); (5, 0)]%Z] = Some r'
    /\ get2 r 0 0 = (of_real 3%Z * (1, 0)%Z)%C
    /\ get2 r' 0 2 = (of_real (-3)%Z * (2, 0)%Z)%C.
Proof.
  destruct (vind_is_diagonal_without_response Z_ring sym_mf None (Some 0%Z)
              [[(1, 0); (7, 0)]%Z] [[(1, 0); (7, 0); (2, 0); (5, 0)]%Z])
    as (r & r' & Hr & Hr' & H & H').
  - intros d x p q. apply get3_zero_response.
  - reflexivity.
  - reflexivity.
  - exists r, r'. split; [exact Hr|]. split; [exact Hr'|]. split.
    + apply (H 0 0); vm_compute; lia.
    + apply (H' 0 2); vm_compute; lia.
Defined.

(** The TDHF trial vector [(1, 7, 0, 0)] and the TDA trial vector
    [(1, 7)]. *)
Lemma tdhf_with_zero_y_is_tda_witness :
  (exists r r',
     fst (gen_tda_operation sym_mf None (Some 0%Z)) [[(1, 0); (7, 0)]%Z]
     = Some r
     /\ fst (gen_tdhf_operation sym_mf None (Some 0%Z))
          [[(1, 0); (7, 0); (0, 0); (0, 0)]%Z] = Some r'
     /\ get2 r' 0 0 = get2 r 0 0)
  /\ snd (gen_tdhf_operation sym_mf None (Some 0%Z)) = [3; 0; -3; 0]%Z.
Proof.
  destruct (tdhf_with_zero_y_is_tda Z_ring sym_mf None (Some 0%Z)
              [[(1, 0); (7, 0)]%Z] [[(1, 0); (7, 0); (0, 0); (0, 0)]%Z])
    as [(r & r' & Hr & Hr' & H) Hd].
  - reflexivity.
  - reflexivity.
  - reflexivity.
  - intros x j Hx Hj. simpl in Hx. assert (x = 0) by lia. subst x.
    change (nocc sym_mf * nvir sym_mf) with 2 in *.
    assert (Hj' : j = 0 \/ j = 1) by lia.
    destruct Hj' as [-> | ->]; split; reflexivity.
  - split.
    + exists r, r'. split; [exact Hr|]. split; [exact Hr'|].
      apply (H 0 0); vm_compute; lia.
    + rewrite Hd. reflexivity.
Defined.

(** The sum of the trial vectors [(1, 7)] and [(2, 5)] of [sym_mf]. *)
Lemma tda_vind_additive_witness :
  exists r'',
    fst (gen_tda_operation sym_mf None (Some 0%Z)) [[(3, 0); (12, 0)]%Z]
    = Some r''
    /\ get2 r'' 0 0 = ((3, 0)%Z + (6, 0)%Z)%C.
Proof.
  destruct (@tda_vind_additive Z _ Z_ring sym_mf None (Some 0%Z)
              [[(1, 0); (7, 0)]%Z] [[(2, 0); (5, 0)]%Z]
              [[(3, 0); (0, 0)]%Z] [[(6, 0); (0, 0)]%Z])
    as (r'' & Hr & H).
  - intros n f g x p q. cbn [sym_mf gen_response].
    now rewrite !get3_zero_response.
  - reflexivity.
  - reflexivity.
  - reflexivity.
  - exists r''. split; [exact Hr|]. apply (H 0 0); vm_compute; lia.
Defined.

(** The sum of the TDHF trial vectors [(1, 7, 2, 5)] and [(1, 0, 1, 0)] of
    [sym_mf]. *)
Lemma tdhf_vind_additive_witness :
  exists r'',
    fst (gen_tdhf_operation sym_mf None (Some 0%Z))
      [[(2, 0); (7, 0); (3, 0); (5, 0)]%Z] = Some r''
    /\ get2 r'' 0 2 = ((-6, 0)%Z + (-3, 0)%Z)%C.
Proof.
  destruct (@tdhf_vind_additive Z _ Z_ring sym_mf None (Some 0%Z)
              [[(1, 0); (7, 0); (2, 0); (5, 0)]%Z]
              [[(1, 0); (0, 0); (1, 0); (0, 0)]%Z]
              [[(3, 0); (0, 0); (-6, 0); (0, 0)]%Z]
              [[(3, 0); (0, 0); (-3, 0); (0, 0)]%Z])
    as (r'' & Hr & H).
  - intros n f g x p q. cbn [sym_mf gen_response].
    now rewrite !get3_zero_response.
  - reflexivity.
  - reflexivity.
  - reflexivity.
  - exists r''. split; [exact Hr|]. apply (H 0 2); vm_compute; lia.
Defined.

(** ** Further properties of [get_ab] *)

Section GetABOutcome.
Context {K : Type} {SK : Scalar K}.
Variable inp : ab_input K.





(** X22.  [get_ab] takes [nao] from the shape of the coefficient matrix
    (line 120) and cuts the orbitals at row [nao] (lines 128-131): the
    slices [moa] and [orboa] are the whole matrices [mo] and [orbo], and
    the slices [mob] and [orbob] have no row, whatever the input. *)
Theorem get_ab_slices :
  moa inp = ab_mo inp /\ orboa inp = ab_orbo inp
  /\ mob inp = [] /\ orbob inp = []
  /\ length (ab_mo inp) = length (ab_mo_coeff inp).
Proof.
  split; [apply moa_all|]. split; [apply orboa_all|].
  split; [apply mob_empty|]. split; [apply orbob_empty|].
  apply tab_length.
Qed.

End GetABOutcome.

Section GetABFree.
Context {K : Type} {SK : Scalar K}.
Hypothesis Kth : ring_theory k0 k1 kadd kmul ksub kopp (@eq K).
Add Ring Kring_free : Kth.
Variable inp : ab_input K.
Local Open Scope K_scope.




End GetABFree.

(** ** What the operators allocate *)

Section MemoryMore.
Context {K : Type} {SK : Scalar K}.
Local Abbreviation C := (cplx K).
Variable mf : SCF K.




End MemoryMore.

(** ** The kernels and the initial guess on concrete inputs *)

(** [toy_mf] has occupations [1, 0]: a root of width 1 becomes a
    [1 x 1] block. *)
Lemma tda_xy_reshapes_roots_witness :
  tda_xy (mo_occ toy_mf) [[(3, 0)%Z]] = Ok [([[(3, 0)%Z]], 0%Z)]
  /\ exists xy,
       tda_xy (mo_occ toy_mf) [[(3, 0)%Z]] = Ok xy /\ length xy = 1.
Proof.
  split; [reflexivity|].
  destruct (@tda_xy_reshapes_roots Z _ toy_mf [[(3, 0)%Z]])
    as (xy & Hrun & Hlen & _).
  - simpl. constructor; [now right|]. constructor; [now left|]. constructor.
  - constructor; [reflexivity | constructor].
  - exists xy. split; assumption.
Defined.

Lemma tdhf_xy_normalises_roots_witness :
  exists xys,
    tdhf_xy [1; 0]%Z [[(1, 0); (0, 0)]%R] = Ok xys /\ length xys = 1.
Proof.
  destruct (@tdhf_xy_normalises_roots R _ [1; 0]%Z [[(1, 0); (0, 0)]%R])
    as (xys & Hrun & Hlen & _).
  - constructor; [now right|]. constructor; [now left|]. constructor.
  - constructor; [reflexivity | constructor].
  - exists xys. split; assumption.
Defined.

(** [degenerate_mf] has three pairs. *)
Lemma init_guess_outcome_witness :
  init_guess degenerate_mf (-3) None = IndexError
  /\ exists x0, init_guess degenerate_mf (-2) None = Ok x0.
Proof.
  split.
  - apply (proj1 (proj2 (init_guess_outcome degenerate_mf (-3) None)));
      vm_compute; [lia | discriminate].
  - apply (proj2 (proj2 (init_guess_outcome degenerate_mf (-2) None)));
      vm_compute; [lia | reflexivity].
Defined.

Lemma init_guess_rows_ascending_witness :
  exists idx,
    [[1; 0; 0]; [0; 1; 0]]%Q = map (unit_vector (guess_nov degenerate_mf)) idx
    /\ StronglySorted lt idx.
Proof.
  destruct (@init_guess_rows_ascending degenerate_mf 1%Z None
              [[1; 0; 0]; [0; 1; 0]]%Q eq_refl) as (idx & H1 & H2 & _).
  exists idx. split; assumption.
Defined.

Lemma init_guess_nstates_wraps_witness :
  init_guess degenerate_mf 5 None = init_guess degenerate_mf 3 None
  /\ init_guess degenerate_mf (-1) None = init_guess degenerate_mf 2 None.
Proof.
  split.
  - apply (proj1 (init_guess_nstates_wraps degenerate_mf 5 None)).
    vm_compute. discriminate.
  - apply (proj2 (init_guess_nstates_wraps degenerate_mf (-1) None)).
    vm_compute. split; [reflexivity | discriminate].
Defined.

(** [nstates = 0] on [degenerate_mf]: the identity matrix. *)
Lemma init_guess_all_states_witness :
  init_guess degenerate_mf 0 None
  = Ok [[1; 0; 0]; [0; 1; 0]; [0; 0; 1]]%Q.
Proof.
  rewrite (@init_guess_all_states degenerate_mf 0%Z None).
  - reflexivity.
  - reflexivity.
  - vm_compute. lia.
  - now right.
Defined.

(** In [sym_guess_mf] with target irrep 0 the two gaps are 1 and 2, and the
    pair of the gap 2 is forbidden: with [nstates = 2] the guess holds the
    other pair only. *)
Lemma init_guess_skips_forbidden_witness :
  init_guess sym_guess_mf 2 (Some 0%Z) = Ok [[1; 0]]%Q
  /\ exists idx,
       [[1; 0]]%Q = map (unit_vector (guess_nov sym_guess_mf)) idx
       /\ (In 1 idx -> guess_forbid sym_guess_mf 0 0 2 = false).
Proof.
  split; [reflexivity|].
  destruct (@init_guess_skips_forbidden sym_guess_mf 2%Z 0%Z [[1; 0]]%Q)
    as (idx & Hx0 & Hskip).
  - reflexivity.
  - intros g Hg. vm_compute in Hg.
    destruct Hg as [<-|[<-|[]]]; reflexivity.
  - reflexivity.
  - exists idx. split; [exact Hx0|]. intros Hin.
    apply (Hskip 0 1); [vm_compute; lia | vm_compute; lia | exact Hin].
Defined.

Lemma init_guess_wfnsym_label_witness :
  init_guess degenerate_mf 1 (Some 3%Z) = init_guess degenerate_mf 1 None.
Proof.
  exact (proj1 (init_guess_wfnsym_label degenerate_mf 1 0 0 (Some 3%Z))
           eq_refl).
Defined.

(** ** The normalisation, [get_ab] and the store on concrete inputs *)

(** X = [[1]], Y = [[0]] is normalised already. *)
Lemma norm_xy_fixes_normalised_witness :
  norm_xy 1 1 [(1, 0); (0, 0)]%R = Ok ([[(1, 0)%R]], [[(0, 0)%R]]).
Proof.
  rewrite (norm_xy_fixes_normalised 1 1 [(1, 0); (0, 0)]%R).
  - reflexivity.
  - reflexivity.
  - unfold indefinite_norm2, frobenius2. simpl. lra.
Defined.

(** X = [[2]], Y = [[1]] and twice this root. *)
Lemma norm_xy_scale_invariant_witness :
  norm_xy 1 1 (map (fun e => (fst e * 2, snd e * 2))
                 [(2, 0); (1, 0)])%R
  = norm_xy 1 1 [(2, 0); (1, 0)]%R.
Proof.
  apply (@norm_xy_scale_invariant 1 1 [(2, 0); (1, 0)]%R 2%R).
  - reflexivity.
  - lra.
  - unfold indefinite_norm2, frobenius2. simpl. lra.
Defined.



(** ** From the initial guess to the final reshape *)

Section DefaultGuess.


Variable mf : SCF Q.


End DefaultGuess.

